(** * chrome-storage: a Rocq model of the storage orchestrator, its cache
      and its synchronisation manager

    The development follows the TypeScript sources of the package:

    - [src/core/advanced-storage.ts]   (class [AdvancedStorage])
    - [src/adapters/memory-adapter.ts] (class [MemoryAdapter], the backend
      that the orchestrator falls back to and the one modelled here)
    - [src/cache/storage-cache.ts]     (class [StorageCache])
    - [src/sync/sync-manager.ts]       (class [SyncManager])
    - [src/validation/schema-validator.ts] (method [validate])

    JavaScript values are dynamically typed, so stored items, envelopes and
    option bags are all terms of one type [value]; property reads, truthiness
    and object spread are written out as functions on it.  Asynchronous
    methods are modelled as state transformers in a state-and-exception
    monad: the state survives a thrown error, exactly as the fields of the
    JavaScript objects do. *)

From Stdlib Require Import ZArith List Bool Lia.
From Stdlib Require Import Strings.String Strings.Ascii.
From stdpp Require Import base option gmap strings pretty.

Set Warnings "-register-all".
Local Open Scope string_scope.
Local Open Scope list_scope.
Local Open Scope Z_scope.
Import ListNotations.

(* ===================================================================== *)
(** * JavaScript values *)
(* ===================================================================== *)

Module JS.

(** Numbers are integers here (sizes, versions and millisecond timestamps
    are the only numbers the modelled code computes with); [VNaN] is the
    result of arithmetic on [undefined].  An object is the list of its own
    enumerable properties, each key occurring once. *)
Inductive value : Type :=
| VUndefined
| VNull
| VNaN
| VBool (b : bool)
| VNum (n : Z)
| VStr (s : string)
| VArr (items : list value)
| VObj (fields : list (string * value)).

(** [if (v)]: JavaScript truthiness. *)
Definition truthy (v : value) : bool :=
  match v with
  | VUndefined | VNull | VNaN => false
  | VBool b => b
  | VNum n => negb (n =? 0)
  | VStr s => negb (String.eqb s "")
  | VArr _ | VObj _ => true
  end.

(** [typeof v === 'object'] holds of objects, arrays and [null]. *)
Definition typeof_object (v : value) : bool :=
  match v with
  | VNull | VArr _ | VObj _ => true
  | _ => false
  end.

(** [Array.isArray(v)]. *)
Definition isArray (v : value) : bool :=
  match v with VArr _ => true | _ => false end.

Fixpoint assoc {A : Type} (k : string) (l : list (string * A)) : option A :=
  match l with
  | [] => None
  | (k', v) :: rest => if String.eqb k k' then Some v else assoc k rest
  end.

(** Assignment [o[k] = v]: an existing property keeps its place, a new one
    is appended. *)
Fixpoint assoc_set {A : Type} (k : string) (v : A) (l : list (string * A))
  : list (string * A) :=
  match l with
  | [] => [(k, v)]
  | (k', v') :: rest =>
      if String.eqb k k' then (k, v) :: rest else (k', v') :: assoc_set k v rest
  end.

Fixpoint assoc_remove {A : Type} (k : string) (l : list (string * A))
  : list (string * A) :=
  match l with
  | [] => []
  | (k', v') :: rest =>
      if String.eqb k k' then assoc_remove k rest else (k', v') :: assoc_remove k rest
  end.

(** Decimal rendering of an array index. *)
Definition index_key (i : nat) : string := pretty (N.of_nat i).

Fixpoint indexed_from (i : nat) (items : list value) : list (string * value) :=
  match items with
  | [] => []
  | x :: rest => (index_key i, x) :: indexed_from (S i) rest
  end.

(** The own enumerable properties copied by a spread [{...v}]: those of an
    object, the indexed elements of an array, nothing for a primitive.
    (A string spreads its characters; no modelled code spreads a string.) *)
Definition own_props (v : value) : list (string * value) :=
  match v with
  | VObj fs => fs
  | VArr items => indexed_from 0 items
  | _ => []
  end.

(** [Object.assign(target, src)] / a spread of [src] after [target]. *)
Definition obj_assign (target src : list (string * value)) : list (string * value) :=
  fold_left (fun acc kv => assoc_set (fst kv) (snd kv) acc) src target.

(** The property read [v.k] on a value that is neither [null] nor
    [undefined]: [undefined] when the property is missing. *)
Definition prop (k : string) (v : value) : value :=
  match v with
  | VObj fs => match assoc k fs with Some x => x | None => VUndefined end
  | _ => VUndefined
  end.

(** [v === null || v === undefined]: a property read on such a value throws
    a [TypeError]. *)
Definition nullish (v : value) : bool :=
  match v with VUndefined | VNull => true | _ => false end.

(** [k in v] for an object or an array. *)
Definition js_in (k : string) (v : value) : bool :=
  match v with
  | VObj fs => match assoc k fs with Some _ => true | None => false end
  | VArr items =>
      String.eqb k "length"
      || existsb (fun i => String.eqb k (index_key i)) (seq 0 (length items))
  | _ => false
  end.

(** Structural equality; it coincides with [===] on primitives. *)
Fixpoint value_eqb (a b : value) {struct a} : bool :=
  match a, b with
  | VUndefined, VUndefined => true
  | VNull, VNull => true
  | VNaN, VNaN => true
  | VBool x, VBool y => Bool.eqb x y
  | VNum x, VNum y => x =? y
  | VStr x, VStr y => String.eqb x y
  | VArr xs, VArr ys =>
      (fix go (xs ys : list value) {struct xs} : bool :=
         match xs, ys with
         | [], [] => true
         | x :: xs', y :: ys' => value_eqb x y && go xs' ys'
         | _, _ => false
         end) xs ys
  | VObj fs, VObj gs =>
      (fix go (fs gs : list (string * value)) {struct fs} : bool :=
         match fs, gs with
         | [], [] => true
         | (k, x) :: fs', (k', y) :: gs' =>
             String.eqb k k' && value_eqb x y && go fs' gs'
         | _, _ => false
         end) fs gs
  | _, _ => false
  end.

(** Deep equality as test frameworks understand it: arrays element by
    element, objects property by property whatever the property order. *)
Fixpoint deep_equal (a b : value) {struct a} : bool :=
  match a, b with
  | VUndefined, VUndefined => true
  | VNull, VNull => true
  | VNaN, VNaN => true
  | VBool x, VBool y => Bool.eqb x y
  | VNum x, VNum y => x =? y
  | VStr x, VStr y => String.eqb x y
  | VArr xs, VArr ys =>
      (fix go (xs ys : list value) {struct xs} : bool :=
         match xs, ys with
         | [], [] => true
         | x :: xs', y :: ys' => deep_equal x y && go xs' ys'
         | _, _ => false
         end) xs ys
  | VObj fs, VObj gs =>
      Nat.eqb (length fs) (length gs)
      && (fix go (fs : list (string * value)) {struct fs} : bool :=
            match fs with
            | [] => true
            | (k, x) :: fs' =>
                match assoc k gs with
                | Some y => deep_equal x y
                | None => false
                end && go fs'
            end) fs
  | _, _ => false
  end.

(** [String(v)], as a template literal or a [+] with a string renders it:
    an array is its elements joined by commas, [null] and [undefined]
    elements rendering as nothing. *)
Fixpoint to_string (v : value) {struct v} : string :=
  match v with
  | VUndefined => "undefined"
  | VNull => "null"
  | VNaN => "NaN"
  | VBool true => "true"
  | VBool false => "false"
  | VNum n => pretty n
  | VStr s => s
  | VArr items =>
      (fix join (l : list value) {struct l} : string :=
         match l with
         | [] => ""
         | x :: rest =>
             (if nullish x then "" else to_string x)
             +:+ match rest with [] => "" | _ :: _ => "," +:+ join rest end
         end) items
  | VObj _ => "[object Object]"
  end.

(** [new Set(xs)] spread back into an array: first occurrences, in order. *)
Fixpoint dedup_values (seen xs : list value) : list value :=
  match xs with
  | [] => []
  | x :: rest =>
      if existsb (value_eqb x) seen then dedup_values seen rest
      else x :: dedup_values (x :: seen) rest
  end.

End JS.
Export JS.

(* ===================================================================== *)
(** * Errors and the state-and-exception monad *)
(* ===================================================================== *)

(** The error classes of [src/core/types.ts], the [TypeError] that a
    property read on [null] or [undefined] raises, and two markers:
    [Foreign] for an exception thrown by an external collaborator (a codec,
    a schema, a provider) and [Unmodelled] for a run that leaves the
    fragment of JavaScript and of the backend modelled here. *)
Inductive error : Type :=
| StorageError (code : string)
| QuotaExceededError (usage quota : Z)
| EncryptionError
| ValidationError
| TypeError
| Foreign (tag : string)
| Unmodelled (what : string).

Inductive result (A : Type) : Type :=
| Ok (a : A)
| Err (e : error).
Arguments Ok {A} a.
Arguments Err {A} e.

Definition is_ok {A : Type} (r : result A) : bool :=
  match r with Ok _ => true | Err _ => false end.

(** A method of an object whose fields are the state [S]: it returns or
    throws, and in both cases leaves a state behind. *)
Definition M (S A : Type) : Type := S -> result A * S.

Definition ret {S A : Type} (a : A) : M S A := fun s => (Ok a, s).
Definition throw {S A : Type} (e : error) : M S A := fun s => (Err e, s).
Definition bind {S A B : Type} (m : M S A) (k : A -> M S B) : M S B :=
  fun s => match m s with
           | (Ok a, s') => k a s'
           | (Err e, s') => (Err e, s')
           end.
Definition modify {S : Type} (f : S -> S) : M S unit := fun s => (Ok tt, f s).
Definition gets {S A : Type} (f : S -> A) : M S A := fun s => (Ok (f s), s).
Definition self {S : Type} : M S S := fun s => (Ok s, s).
Definition lift_result {S A : Type} (r : result A) : M S A := fun s => (r, s).

(** [try { m } catch (error) { h error; throw error }]. *)
Definition on_error {S A : Type} (m : M S A) (h : error -> S -> S) : M S A :=
  fun s => match m s with
           | (Ok a, s') => (Ok a, s')
           | (Err e, s') => (Err e, h e s')
           end.

(** [if (c) { m }] for a statement. *)
Definition when_ {S : Type} (c : bool) (m : M S unit) : M S unit :=
  if c then m else ret tt.

Declare Scope monad_scope.
Delimit Scope monad_scope with monad.
Notation "'let*' x ':=' m 'in' k" := (bind m (fun x => k))
  (at level 10, x pattern, m at level 100, k at level 200) : monad_scope.
Notation "m ';;' k" := (bind m (fun _ => k))
  (at level 100, k at level 200, right associativity) : monad_scope.

(** The platform function behind every [estimateSize]: the byte length of
    [JSON.stringify(v)] as [new Blob([...]).size] reports it. *)
Class Platform : Type := { blob_size : value -> Z }.

(* ===================================================================== *)
(** * The in-memory backend ([MemoryAdapter]) *)
(* ===================================================================== *)

Module MemoryAdapter.

(** [interface MemoryRecord]. *)
Record MemoryRecord : Type := {
  value_of : value;
  metadata : value;
  expiresAt : option Z;
  created : Z;
  updated : Z
}.

(** The fields of the adapter: the [store] map and the two capacities.
    Watchers and the optional [localStorage] mirror do not influence what
    the adapter returns and are left out.  The cleanup timer is left out as
    well: it removes records whose [expiresAt] has passed, which [get]
    already reports as absent, so the statements below hold between two
    runs of the timer and say nothing about [size] across one. *)
Record t : Type := {
  store : gmap string MemoryRecord;
  maxSize : Z;
  maxMemory : Z
}.

(** [new MemoryAdapter({ namespace })]: both capacities take their defaults. *)
Definition create : t :=
  {| store := ∅; maxSize := 10000; maxMemory := 50 * 1024 * 1024 |}.

Definition with_store (f : gmap string MemoryRecord -> gmap string MemoryRecord)
  (a : t) : t :=
  {| store := f (store a); maxSize := maxSize a; maxMemory := maxMemory a |}.

(** The character class of [/^[a-zA-Z0-9._\-:]+$/]. *)
Definition key_char_ok (c : ascii) : bool :=
  let n := nat_of_ascii c in
  ((97 <=? n) && (n <=? 122))%nat
  || ((65 <=? n) && (n <=? 90))%nat
  || ((48 <=? n) && (n <=? 57))%nat
  || (n =? 46)%nat || (n =? 95)%nat || (n =? 45)%nat || (n =? 58)%nat.

Fixpoint all_chars (p : ascii -> bool) (s : string) : bool :=
  match s with
  | EmptyString => true
  | String c rest => p c && all_chars p rest
  end.

(** [BaseAdapter.validateKey].  (Lengths are counted in bytes; they agree
    with JavaScript's on every key the character class admits.) *)
Definition validateKey (key : string) : result unit :=
  if String.eqb key "" then Err (StorageError "INVALID_KEY")
  else if (250 <? String.length key)%nat then Err (StorageError "KEY_TOO_LONG")
  else if negb (all_chars key_char_ok key) then Err (StorageError "INVALID_KEY_FORMAT")
  else Ok tt.

(** [record.expiresAt && Date.now() > record.expiresAt]. *)
Definition expired (now : Z) (r : MemoryRecord) : bool :=
  match expiresAt r with
  | Some e => negb (e =? 0) && (e <? now)
  | None => false
  end.

(** [MemoryAdapter.get]: the stored value, or [null]; an expired record is
    dropped on the way. *)
Definition get (now : Z) (key : string) : M t value :=
  (lift_result (validateKey key) ;;
   let* a := self in
   match store a !! key with
   | None => ret VNull
   | Some record =>
       if expired now record
       then (modify (with_store (delete key)) ;; ret VNull)
       else ret (value_of record)
   end)%monad.

(** The object whose serialised length [MemoryAdapter.estimateSize(key,
    record)] measures: [{ key, ...record }]. *)
Definition opt_num (o : option Z) : value :=
  match o with Some n => VNum n | None => VUndefined end.

Definition record_json (key : string) (r : MemoryRecord) : value :=
  VObj [("key", VStr key); ("value", value_of r); ("metadata", metadata r);
        ("expiresAt", opt_num (expiresAt r)); ("created", VNum (created r));
        ("updated", VNum (updated r))].

(** [MemoryAdapter.size]. *)
Definition size `{Platform} (a : t) : Z :=
  map_fold (fun k r acc => acc + blob_size (record_json k r)) 0 (store a).

(** [MemoryAdapter.checkLimits] evicts other records once the store holds
    [maxSize] records or [maxMemory] bytes.  The eviction itself is outside
    the model: a write that would trigger it is reported as [Unmodelled]. *)
Definition checkLimits `{Platform} (key : string) (v : value) : M t unit :=
  (let* a := self in
   if match store a !! key with Some _ => false | None => true end
      && (maxSize a <=? Z.of_nat (map_size (store a)))
   then throw (Unmodelled "MemoryAdapter count eviction")
   else if maxMemory a <?
           size a + blob_size (VObj [("key", VStr key); ("value", v)])
   then throw (Unmodelled "MemoryAdapter memory eviction")
   else ret tt)%monad.

(** [options?.ttl ? now + options.ttl : undefined]. *)
Definition ttl_expiry (now : Z) (ttl : option Z) : option Z :=
  match ttl with
  | Some n => if n =? 0 then None else Some (now + n)
  | None => None
  end.

(** [oldRecord?.created || now]. *)
Definition created_or (now : Z) (old : option MemoryRecord) : Z :=
  match old with
  | Some r => if created r =? 0 then now else created r
  | None => now
  end.

(** [MemoryAdapter.set]. *)
Definition set `{Platform} (now : Z) (key : string) (v : value)
  (ttl : option Z) (meta : value) : M t unit :=
  (lift_result (validateKey key) ;;
   checkLimits key v ;;
   modify (fun a =>
     let record := {| value_of := v; metadata := meta;
                      expiresAt := ttl_expiry now ttl;
                      created := created_or now (store a !! key);
                      updated := now |} in
     with_store (insert key record) a))%monad.

(** [MemoryAdapter.delete]. *)
Definition delete (key : string) : M t unit :=
  (lift_result (validateKey key) ;;
   modify (with_store (base.delete key)))%monad.

(** [MemoryAdapter.clear]. *)
Definition clear : M t unit := modify (with_store (fun _ => ∅)).

(** [MemoryAdapter.keys]. *)
Definition keys (a : t) : list string := map fst (map_to_list (store a)).

(** [get] hands out the stored object itself, not a copy: an assignment to
    a property of the object it returned changes the record in the store. *)
Definition assign_through_alias (key : string) (k : string) (v : value) (a : t) : t :=
  with_store
    (alter (fun r =>
       {| value_of :=
            match value_of r with
            | VObj fs => VObj (assoc_set k v fs)
            | other => other
            end;
          metadata := metadata r; expiresAt := expiresAt r;
          created := created r; updated := updated r |}) key) a.

(** [value !== null]. *)
Definition not_null (v : value) : bool :=
  match v with VNull => false | _ => true end.

(** [BaseAdapter.has], which [MemoryAdapter] inherits. *)
Definition has (now : Z) (key : string) : M t bool :=
  (let* v := get now key in ret (not_null v))%monad.

(** The body of the callback of [MemoryAdapter.getMany]: the lookup of
    [get], without its [validateKey]. *)
Definition lookup (now : Z) (key : string) : M t value :=
  (let* a := self in
   match store a !! key with
   | None => ret VNull
   | Some record =>
       if expired now record
       then (modify (with_store (base.delete key)) ;; ret VNull)
       else ret (value_of record)
   end)%monad.

(** [MemoryAdapter.getMany]. *)
Fixpoint getMany (now : Z) (keys : list string) : M t (list value) :=
  match keys with
  | [] => ret []
  | key :: rest =>
      (let* v := lookup now key in
       let* vs := getMany now rest in
       ret (v :: vs))%monad
  end.

(** [BaseAdapter.getMany], [Promise.all(keys.map(key => this.get(key)))]:
    every [get] is carried out; the first failure, if any, is the one
    reported. *)
Fixpoint getMany_base (now : Z) (keys : list string) : M t (list value) :=
  match keys with
  | [] => ret []
  | key :: rest =>
      fun a =>
        match get now key a with
        | (Ok v, a') =>
            match getMany_base now rest a' with
            | (Ok vs, a'') => (Ok (v :: vs), a'')
            | (Err e, a'') => (Err e, a'')
            end
        | (Err e, a') => (Err e, snd (getMany_base now rest a'))
        end
  end.

(** [interface TransactionOperation]; [at] is the clock reading of the
    operation (an update reads the clock twice, in its [get] and in its
    [set]), and an update function may throw. *)
Inductive TransactionOperation : Type :=
| op_get (at_ : Z) (key : string)
| op_set (at_ : Z) (key : string) (v : value) (ttl : option Z) (meta : value)
| op_delete (key : string)
| op_update (at_get at_set : Z) (key : string)
            (updateFn : option (value -> result value))
            (ttl : option Z) (meta : value).

(** The body of the loop of [BaseAdapter.transaction] for one operation. *)
Definition run_operation `{Platform} (op : TransactionOperation) : M t unit :=
  match op with
  | op_get at_ key => (get at_ key ;; ret tt)%monad
  | op_set at_ key v ttl meta => set at_ key v ttl meta
  | op_delete key => delete key
  | op_update at_get at_set key (Some updateFn) ttl meta =>
      (let* current := get at_get key in
       let* updated := lift_result (updateFn current) in
       set at_set key updated ttl meta)%monad
  | op_update _ _ _ None _ _ => ret tt
  end.

(** [BaseAdapter.transaction]: the operations one after the other. *)
Fixpoint transaction `{Platform} (operations : list TransactionOperation) : M t unit :=
  match operations with
  | [] => ret tt
  | op :: rest => (run_operation op ;; transaction rest)%monad
  end.

(** [findOldestKey], over the records in the iteration order of the store
    (the order of insertion).  [best] is the pair of [oldestKey] and
    [oldestTime], absent while they are [undefined] and [Infinity]. *)
Fixpoint oldest (best : option (string * Z)) (records : list (string * MemoryRecord))
  : option (string * Z) :=
  match records with
  | [] => best
  | (key, record) :: rest =>
      match best with
      | Some (_, oldestTime) =>
          if updated record <? oldestTime
          then oldest (Some (key, updated record)) rest
          else oldest best rest
      | None => oldest (Some (key, updated record)) rest
      end
  end.

Definition findOldestKey (records : list (string * MemoryRecord)) : option string :=
  fst <$> oldest None records.

(** A candidate of [selectEvictionCandidates]. *)
Record candidate : Type := {
  cand_key : string;
  cand_size : Z;
  cand_updated : Z
}.

(** [candidates.sort((a, b) => a.updated - b.updated)], a stable sort. *)
Fixpoint insert_by_updated (x : candidate) (l : list candidate) : list candidate :=
  match l with
  | [] => [x]
  | y :: rest =>
      if cand_updated x <=? cand_updated y then x :: y :: rest
      else y :: insert_by_updated x rest
  end.

Definition sort_by_updated (l : list candidate) : list candidate :=
  foldr insert_by_updated [] l.

(** The loop that fills [keysToEvict]. *)
Fixpoint take_until (requiredSpace freedSpace : Z) (l : list candidate) : list string :=
  match l with
  | [] => []
  | c :: rest =>
      if requiredSpace <=? freedSpace then []
      else cand_key c :: take_until requiredSpace (freedSpace + cand_size c) rest
  end.

(** The candidate pushed for one record. *)
Definition candidate_of `{Platform} (kr : string * MemoryRecord) : candidate :=
  {| cand_key := fst kr;
     cand_size := blob_size (record_json (fst kr) (snd kr));
     cand_updated := updated (snd kr) |}.

(** [selectEvictionCandidates], over the records in iteration order. *)
Definition selectEvictionCandidates `{Platform} (requiredSpace : Z)
  (records : list (string * MemoryRecord)) : list string :=
  take_until requiredSpace 0 (sort_by_updated (map candidate_of records)).

(** Candidates in the order of their [updated] stamps, oldest first. *)
Definition ascending (l : list candidate) : Prop :=
  forall before x after y,
    l = before ++ x :: after -> List.In y after -> cand_updated x <= cand_updated y.

(** The bytes that evicting the given candidates frees. *)
Definition freed (l : list candidate) : Z :=
  fold_right (fun c sum => cand_size c + sum) 0 l.

(** [cleanup], the body of the cleanup timer: every record that has
    expired is handed to [delete], whose rejection is only logged. *)
Definition cleanup (now : Z) (a : t) : t :=
  let keysToDelete :=
    map fst (filter (fun kr => expired now (snd kr)) (map_to_list (store a))) in
  fold_left (fun a key => snd (delete key a)) keysToDelete a.

End MemoryAdapter.

(* ===================================================================== *)
(** * The two third-party containers behind the cache *)
(* ===================================================================== *)

(** Modelled from the spec: the npm package [lru-cache] is not part of the
    repository; this is its documented contract as far as [StorageCache]
    relies on it.  Entries are kept most recently used first; an entry
    larger than the byte budget is not stored; the least recently used
    entries leave while the count or byte budget is exceeded; an entry
    older than its time-to-live reads as absent and is dropped. *)
Module LruCache.

Record item : Type := {
  held : value;
  weight : Z;
  start : Z;
  lifetime : Z
}.

Record t : Type := {
  max : Z;
  maxTotal : Z;
  items : list (string * item)
}.

Definition with_items (f : list (string * item) -> list (string * item)) (c : t) : t :=
  {| max := max c; maxTotal := maxTotal c; items := f (items c) |}.

Definition stale (now : Z) (it : item) : bool :=
  negb (lifetime it =? 0) && (start it + lifetime it <? now).

(** How many entries, counted from the most recently used one, fit both
    budgets. *)
Fixpoint fitting (count bytes : Z) (l : list (string * item)) : nat :=
  match l with
  | [] => O
  | (_, it) :: rest =>
      if (0 <? count) && (weight it <=? bytes)
      then S (fitting (count - 1) (bytes - weight it) rest)
      else O
  end.

Definition trim (c : t) : t :=
  with_items (fun l => firstn (fitting (max c) (maxTotal c) l) l) c.

Definition get (now : Z) (key : string) (c : t) : option value * t :=
  match assoc key (items c) with
  | None => (None, c)
  | Some it =>
      if stale now it then (None, with_items (assoc_remove key) c)
      else (Some (held it),
            with_items (fun l =>
              (key, {| held := held it; weight := weight it;
                       start := now; lifetime := lifetime it |})
              :: assoc_remove key l) c)
  end.

Definition set (now : Z) (key : string) (v : value) (ttl size : Z) (c : t) : t :=
  if maxTotal c <? size then with_items (assoc_remove key) c
  else trim (with_items (fun l =>
         (key, {| held := v; weight := size; start := now; lifetime := ttl |})
         :: assoc_remove key l) c).

Definition has (now : Z) (key : string) (c : t) : bool :=
  match assoc key (items c) with
  | Some it => negb (stale now it)
  | None => false
  end.

Definition delete (key : string) (c : t) : bool * t :=
  (match assoc key (items c) with Some _ => true | None => false end,
   with_items (assoc_remove key) c).

Definition clear (c : t) : t := with_items (fun _ => []) c.

Definition keys (c : t) : list string := map fst (items c).

(** [has] under [updateAgeOnHas]: recency is left alone, the age of a fresh
    entry is renewed, a stale entry reads as absent. *)
Definition has_renewing (now : Z) (key : string) (c : t) : bool * t :=
  match assoc key (items c) with
  | Some it =>
      if stale now it then (false, c)
      else (true,
            with_items (assoc_set key {| held := held it; weight := weight it;
                                         start := now; lifetime := lifetime it |}) c)
  | None => (false, c)
  end.

(** [purgeStale]. *)
Definition purgeStale (now : Z) (c : t) : t :=
  with_items (filter (fun ki => negb (stale now (snd ki)))) c.

End LruCache.

(** Modelled from the spec: the npm package [quick-lru] is not part of the
    repository.  [StorageCache] uses it as a [Map] ([get], [set], [delete],
    [size], [entries], [keys], [clear]) and evicts by itself before the
    package's own bound is reached, so the package is modelled as the
    insertion-ordered map it then behaves as; its two-generation recycling
    is not modelled.  The same type serves for the plain [Map] of the
    insertion-order strategy. *)
Module JsMap.

Definition t (V : Type) : Type := list (string * V).

Definition get {V : Type} (key : string) (m : t V) : option V := assoc key m.
Definition set {V : Type} (key : string) (v : V) (m : t V) : t V := assoc_set key v m.
Definition delete {V : Type} (key : string) (m : t V) : t V := assoc_remove key m.
Definition size {V : Type} (m : t V) : Z := Z.of_nat (length m).
Definition keys {V : Type} (m : t V) : list string := map fst m.

End JsMap.

(* ===================================================================== *)
(** * The cache ([StorageCache]) *)
(* ===================================================================== *)

Module StorageCache.

Inductive strategy : Type := lru | lfu | fifo | ttl_only.

(** [interface CacheEntry]; the key is the key of the map holding it. *)
Record CacheEntry : Type := {
  value_of : value;
  size : Z;
  frequency : Z;
  createdAt : Z;
  accessedAt : Z;
  expiresAt : option Z
}.

(** The fields of a [StorageCache].  [lruCache] is the container of the
    recency strategy; [entries] is [quickCache] under the frequency
    strategy and [fifoCache] under the insertion-order one.  Of the
    statistics, the hit rate is the quotient of two counters kept here and
    the entry count is the length of the container. *)
Record t : Type := {
  cfg_strategy : strategy;
  cfg_maxSize : Z;
  cfg_maxMemory : Z;
  cfg_ttl : Z;
  lruCache : LruCache.t;
  entries : JsMap.t CacheEntry;
  frequencyMap : gmap string Z;
  hits : Z;
  misses : Z;
  reads : Z;
  writes : Z;
  memoryUsage : Z
}.

Definition or_default (x d : Z) : Z := if x =? 0 then d else x.

(** [new StorageCache(config)]; an absent number is written [0], which
    [||] treats alike. *)
Definition create (s : strategy) (maxSize maxMemory ttl : Z) : t :=
  {| cfg_strategy := s;
     cfg_maxSize := or_default maxSize 1000;
     cfg_maxMemory := or_default maxMemory (10 * 1024 * 1024);
     cfg_ttl := or_default ttl 3600000;
     lruCache := {| LruCache.max := or_default maxSize 1000;
                    LruCache.maxTotal := or_default maxMemory (10 * 1024 * 1024);
                    LruCache.items := [] |};
     entries := [];
     frequencyMap := ∅;
     hits := 0; misses := 0; reads := 0; writes := 0; memoryUsage := 0 |}.

Definition with_lru (f : LruCache.t -> LruCache.t) (c : t) : t :=
  {| cfg_strategy := cfg_strategy c; cfg_maxSize := cfg_maxSize c;
     cfg_maxMemory := cfg_maxMemory c; cfg_ttl := cfg_ttl c;
     lruCache := f (lruCache c); entries := entries c;
     frequencyMap := frequencyMap c; hits := hits c; misses := misses c;
     reads := reads c; writes := writes c; memoryUsage := memoryUsage c |}.

Definition with_entries (f : JsMap.t CacheEntry -> JsMap.t CacheEntry) (c : t) : t :=
  {| cfg_strategy := cfg_strategy c; cfg_maxSize := cfg_maxSize c;
     cfg_maxMemory := cfg_maxMemory c; cfg_ttl := cfg_ttl c;
     lruCache := lruCache c; entries := f (entries c);
     frequencyMap := frequencyMap c; hits := hits c; misses := misses c;
     reads := reads c; writes := writes c; memoryUsage := memoryUsage c |}.

Definition with_frequencyMap (f : gmap string Z -> gmap string Z) (c : t) : t :=
  {| cfg_strategy := cfg_strategy c; cfg_maxSize := cfg_maxSize c;
     cfg_maxMemory := cfg_maxMemory c; cfg_ttl := cfg_ttl c;
     lruCache := lruCache c; entries := entries c;
     frequencyMap := f (frequencyMap c); hits := hits c; misses := misses c;
     reads := reads c; writes := writes c; memoryUsage := memoryUsage c |}.

(** Updates of the counters: [(hits, misses, reads, writes, memoryUsage)]
    each moved by the given amount. *)
Definition bump (dh dm dr dw dmem : Z) (c : t) : t :=
  {| cfg_strategy := cfg_strategy c; cfg_maxSize := cfg_maxSize c;
     cfg_maxMemory := cfg_maxMemory c; cfg_ttl := cfg_ttl c;
     lruCache := lruCache c; entries := entries c;
     frequencyMap := frequencyMap c; hits := hits c + dh; misses := misses c + dm;
     reads := reads c + dr; writes := writes c + dw;
     memoryUsage := memoryUsage c + dmem |}.

(** [isExpired]. *)
Definition isExpired (now : Z) (e : CacheEntry) : bool :=
  match expiresAt e with
  | Some x => negb (x =? 0) && (x <? now)
  | None => false
  end.

Definition touched (now : Z) (df : Z) (e : CacheEntry) : CacheEntry :=
  {| value_of := value_of e; size := size e; frequency := frequency e + df;
     createdAt := createdAt e; accessedAt := now; expiresAt := expiresAt e |}.

(** [StorageCache.get]; [VUndefined] is the miss. *)
Definition get (now : Z) (key : string) (c : t) : value * t :=
  let c := bump 0 0 1 0 0 c in
  let miss := (VUndefined, bump 0 1 0 0 0 c) in
  match cfg_strategy c with
  | lru =>
      let (found, l') := LruCache.get now key (lruCache c) in
      let c := with_lru (fun _ => l') c in
      match found with
      | Some VUndefined | None => (VUndefined, bump 0 1 0 0 0 c)
      | Some v =>
          (v, with_frequencyMap
                (fun fm => <[key := match fm !! key with
                                    | Some f => or_default f 0 + 1
                                    | None => 1
                                    end]> fm)
                (bump 1 0 0 0 0 c))
      end
  | lfu =>
      match JsMap.get key (entries c) with
      | Some entry =>
          if isExpired now entry then miss
          else
            let entry' := touched now 1 entry in
            (value_of entry,
             with_frequencyMap (insert key (frequency entry'))
               (bump 1 0 0 0 0 (with_entries (JsMap.set key entry') c)))
      | None => miss
      end
  | fifo =>
      match JsMap.get key (entries c) with
      | Some entry =>
          if isExpired now entry then miss
          else (value_of entry,
                bump 1 0 0 0 0 (with_entries (JsMap.set key (touched now 0 entry)) c))
      | None => miss
      end
  | ttl_only => miss
  end.

(** [StorageCache.delete]. *)
Definition delete (key : string) (c : t) : bool * t :=
  let (deleted, c) :=
    match cfg_strategy c with
    | lru =>
        let (d, l') := LruCache.delete key (lruCache c) in
        (d, with_lru (fun _ => l') c)
    | lfu | fifo =>
        match JsMap.get key (entries c) with
        | Some entry =>
            (true, with_entries (JsMap.delete key) (bump 0 0 0 0 (- size entry) c))
        | None => (false, c)
        end
    | ttl_only => (false, c)
    end in
  (deleted, with_frequencyMap (base.delete key) c).

(** [evictLFU]: the first entry, in iteration order, of least frequency;
    [if (evictKey)] skips the empty key. *)
Fixpoint least_frequent (best : option (string * Z)) (l : JsMap.t CacheEntry)
  : option (string * Z) :=
  match l with
  | [] => best
  | (k, e) :: rest =>
      match best with
      | Some (_, minFreq) =>
          if frequency e <? minFreq then least_frequent (Some (k, frequency e)) rest
          else least_frequent best rest
      | None => least_frequent (Some (k, frequency e)) rest
      end
  end.

Definition evictLFU (c : t) : t :=
  match least_frequent None (entries c) with
  | Some (evictKey, _) =>
      if String.eqb evictKey "" then c else snd (delete evictKey c)
  | None => c
  end.

(** [evictFIFO]. *)
Definition evictFIFO (c : t) : t :=
  match JsMap.keys (entries c) with
  | firstKey :: _ =>
      if String.eqb firstKey "" then c else snd (delete firstKey c)
  | [] => c
  end.

(** A score is the quotient [num / den] of [evictByMemory]:
    [frequency / size] under the frequency strategy, [createdAt] under the
    insertion-order one.  Quotients are compared exactly (sizes are
    positive), not as floating-point numbers. *)
Record candidate : Type := {
  cand_key : string;
  cand_size : Z;
  score_num : Z;
  score_den : Z
}.

Definition score_le (a b : candidate) : bool :=
  score_num a * score_den b <=? score_num b * score_den a.

Definition score_lt (a b : candidate) : bool :=
  score_num a * score_den b <? score_num b * score_den a.

(** [entries.sort((a, b) => a.score - b.score)], a stable sort. *)
Fixpoint insert_by_score (x : candidate) (l : list candidate) : list candidate :=
  match l with
  | [] => [x]
  | y :: rest => if score_le x y then x :: y :: rest else y :: insert_by_score x rest
  end.

Definition sort_by_score (l : list candidate) : list candidate :=
  foldr insert_by_score [] l.

Definition candidates (c : t) : list candidate :=
  match cfg_strategy c with
  | lfu =>
      map (fun ke => {| cand_key := fst ke; cand_size := size (snd ke);
                        score_num := frequency (snd ke);
                        score_den := size (snd ke) |}) (entries c)
  | fifo =>
      map (fun ke => {| cand_key := fst ke; cand_size := size (snd ke);
                        score_num := createdAt (snd ke); score_den := 1 |}) (entries c)
  | _ => []
  end.

Fixpoint evict_until (requiredSize freedSpace : Z) (l : list candidate) (c : t) : t :=
  match l with
  | [] => c
  | entry :: rest =>
      if requiredSize <=? freedSpace then c
      else evict_until requiredSize (freedSpace + cand_size entry) rest
             (snd (delete (cand_key entry) c))
  end.

(** [evictByMemory]. *)
Definition evictByMemory (requiredSize : Z) (c : t) : t :=
  evict_until requiredSize 0 (sort_by_score (candidates c)) c.

(** [enforceLimit]. *)
Definition enforceLimit (requiredSize : Z) (c : t) : t :=
  let c :=
    match cfg_strategy c with
    | lfu => if cfg_maxSize c <=? JsMap.size (entries c) then evictLFU c else c
    | fifo => if cfg_maxSize c <=? JsMap.size (entries c) then evictFIFO c else c
    | _ => c
    end in
  if cfg_maxMemory c <? memoryUsage c + requiredSize
  then evictByMemory requiredSize c
  else c.

(** [ttl ? now + ttl : this.config.ttl ? now + this.config.ttl : undefined]. *)
Definition entry_expiry (now : Z) (ttl : option Z) (c : t) : option Z :=
  match ttl with
  | Some n => if n =? 0 then (if cfg_ttl c =? 0 then None else Some (now + cfg_ttl c))
              else Some (now + n)
  | None => if cfg_ttl c =? 0 then None else Some (now + cfg_ttl c)
  end.

Definition ttl_or_default (ttl : option Z) (c : t) : Z :=
  match ttl with
  | Some n => or_default n (cfg_ttl c)
  | None => cfg_ttl c
  end.

(** [StorageCache.set]. *)
Definition set `{Platform} (now : Z) (key : string) (v : value) (ttl : option Z)
  (c : t) : t :=
  let c := bump 0 0 0 1 0 c in
  let sz := blob_size v in
  let c :=
    match cfg_strategy c with
    | lru =>
        let c := if cfg_maxMemory c <? memoryUsage c + sz
                 then evictByMemory sz c else c in
        bump 0 0 0 0 sz
          (with_lru (LruCache.set now key v (ttl_or_default ttl c) sz) c)
    | s =>
        let entry := {| value_of := v; size := sz; frequency := 1;
                        createdAt := now; accessedAt := now;
                        expiresAt := entry_expiry now ttl c |} in
        let c := enforceLimit sz c in
        let c := match s with
                 | lfu | fifo => with_entries (JsMap.set key entry) c
                 | _ => c
                 end in
        bump 0 0 0 0 sz c
    end in
  with_frequencyMap (insert key 1) c.

(** [StorageCache.clear]. *)
Definition clear (c : t) : t :=
  let c :=
    match cfg_strategy c with
    | lru => with_lru LruCache.clear c
    | lfu | fifo => with_entries (fun _ => []) c
    | ttl_only => c
    end in
  let c := with_frequencyMap (fun _ => ∅) c in
  bump 0 0 0 0 (- memoryUsage c) c.

(** [StorageCache.keys]. *)
Definition keys (c : t) : list string :=
  match cfg_strategy c with
  | lru => LruCache.keys (lruCache c)
  | lfu | fifo => JsMap.keys (entries c)
  | ttl_only => []
  end.

(** [StorageCache.has]. *)
Definition has (now : Z) (key : string) (c : t) : bool * t :=
  match cfg_strategy c with
  | lru =>
      let (found, l') := LruCache.has_renewing now key (lruCache c) in
      (found, with_lru (fun _ => l') c)
  | lfu | fifo =>
      (match JsMap.get key (entries c) with
       | Some entry => negb (isExpired now entry)
       | None => false
       end, c)
  | ttl_only => (false, c)
  end.

(** [StorageCache.prune]; it returns the number of entries pruned. *)
Definition prune (now : Z) (c : t) : Z * t :=
  match cfg_strategy c with
  | lru =>
      let l' := LruCache.purgeStale now (lruCache c) in
      (Z.of_nat (length (LruCache.items (lruCache c)))
       - Z.of_nat (length (LruCache.items l')),
       with_lru (fun _ => l') c)
  | s =>
      let keysToDelete :=
        match s with
        | lfu | fifo =>
            map fst (filter (fun ke => isExpired now (snd ke)) (entries c))
        | _ => []
        end in
      (Z.of_nat (length keysToDelete),
       fold_left (fun c key => snd (delete key c)) keysToDelete c)
  end.

(** An element of the array given to [warm], with the clock reading of the
    [set] it causes. *)
Record warm_entry : Type := {
  warm_at : Z;
  warm_key : string;
  warm_value : value;
  warm_ttl : option Z
}.

(** [StorageCache.warm]. *)
Definition warm `{Platform} (es : list warm_entry) (c : t) : t :=
  fold_left (fun c e => set (warm_at e) (warm_key e) (warm_value e) (warm_ttl e) c)
            es c.

(** The bytes of the entries held. *)
Definition held_bytes (c : t) : Z :=
  fold_right (fun ke sum => size (snd ke) + sum) 0 (entries c).

End StorageCache.

(* ===================================================================== *)
(** * The synchronisation manager: its fields and its entry points *)
(* ===================================================================== *)

Module SyncCore.

Inductive change_type : Type := set_change | delete_change | clear_change.

(** [interface SyncChange]. *)
Record SyncChange : Type := {
  key : string;
  type : change_type;
  value_of : value;
  timestamp : Z;
  source : string
}.

Inductive resolution_tag : Type := kept_local | took_remote | merged.

(** [interface SyncConflict]. *)
Record SyncConflict : Type := {
  conflict_key : string;
  localValue : value;
  remoteValue : value;
  localTimestamp : Z;
  remoteTimestamp : Z;
  resolution : option resolution_tag;
  mergedValue : value
}.

(** [interface SyncResult]. *)
Record SyncResult : Type := {
  success : bool;
  synced : Z;
  conflicts : list SyncConflict;
  errors : list error
}.

(** [interface SyncProvider], as the answers a provider gives during one
    cycle: each call returns or throws. *)
Record SyncProvider : Type := {
  name : string;
  push : list SyncChange -> result SyncResult;
  pull : result (list SyncChange)
}.

Inductive policy : Type := local | remote | merge | manual.

Inductive event : Type :=
| sync_start
| sync_complete (r : SyncResult)
| conflict (c : SyncConflict).

(** A call made to a provider, recorded in the order made. *)
Inductive provider_call : Type :=
| pushed (provider : string) (changes : list SyncChange)
| pulled (provider : string).

(** The fields of a [SyncManager].  [listening] records that [start] has
    installed the change listener on the storage; [calls] is the trace of
    the calls made to providers.  The pending map is iterated in key
    order here, in insertion order in JavaScript. *)
Record t : Type := {
  enabled : bool;
  conflictResolution : policy;
  providers : list SyncProvider;
  runtimeId : string;
  pendingChanges : gmap string SyncChange;
  syncing : bool;
  lastSyncTime : option Z;
  listening : bool;
  emitted : list event;
  calls : list provider_call
}.

Definition with_pending (f : gmap string SyncChange -> gmap string SyncChange)
  (s : t) : t :=
  {| enabled := enabled s; conflictResolution := conflictResolution s;
     providers := providers s; runtimeId := runtimeId s;
     pendingChanges := f (pendingChanges s); syncing := syncing s;
     lastSyncTime := lastSyncTime s; listening := listening s;
     emitted := emitted s; calls := calls s |}.

Definition with_syncing (b : bool) (s : t) : t :=
  {| enabled := enabled s; conflictResolution := conflictResolution s;
     providers := providers s; runtimeId := runtimeId s;
     pendingChanges := pendingChanges s; syncing := b;
     lastSyncTime := lastSyncTime s; listening := listening s;
     emitted := emitted s; calls := calls s |}.

Definition with_lastSyncTime (now : Z) (s : t) : t :=
  {| enabled := enabled s; conflictResolution := conflictResolution s;
     providers := providers s; runtimeId := runtimeId s;
     pendingChanges := pendingChanges s; syncing := syncing s;
     lastSyncTime := Some now; listening := listening s;
     emitted := emitted s; calls := calls s |}.

Definition emit (e : event) (s : t) : t :=
  {| enabled := enabled s; conflictResolution := conflictResolution s;
     providers := providers s; runtimeId := runtimeId s;
     pendingChanges := pendingChanges s; syncing := syncing s;
     lastSyncTime := lastSyncTime s; listening := listening s;
     emitted := emitted s ++ [e]; calls := calls s |}.

Definition record_call (c : provider_call) (s : t) : t :=
  {| enabled := enabled s; conflictResolution := conflictResolution s;
     providers := providers s; runtimeId := runtimeId s;
     pendingChanges := pendingChanges s; syncing := syncing s;
     lastSyncTime := lastSyncTime s; listening := listening s;
     emitted := emitted s; calls := calls s ++ [c] |}.

(** The part of [sync] that runs before its first [await]:

    [if (this.syncing || !this.config.enabled) return;
     this.syncing = true; this.emit('sync-start');]

    The boolean tells whether a cycle was entered. *)
Definition sync_begin (s : t) : bool * t :=
  if syncing s || negb (enabled s) then (false, s)
  else (true, emit sync_start (with_syncing true s)).

(** The [finally] block of [sync]. *)
Definition sync_end (s : t) : t := with_syncing false s.

(** [getSourceId]. *)
Definition getSourceId (now : Z) (s : t) : string :=
  (if String.eqb (runtimeId s) "" then "unknown" else runtimeId s)
  +:+ "_" +:+ pretty now.

(** [queueChange].  When ten changes are pending it calls [sync] without
    awaiting it: what runs at once is [sync_begin]; the cycle so entered
    proceeds when the scheduler resumes it. *)
Definition queueChange (now : Z) (k : string) (ty : change_type) (v : value)
  (s : t) : t :=
  let change := {| key := k; type := ty; value_of := v; timestamp := now;
                   source := getSourceId now s |} in
  let s := with_pending (insert k change) s in
  if 10 <=? Z.of_nat (map_size (pendingChanges s)) then snd (sync_begin s) else s.

(** [mergeValues]. *)
Definition mergeValues (localV remoteV : value) : value :=
  if typeof_object localV && typeof_object remoteV then
    VObj (obj_assign (obj_assign [] (own_props remoteV)) (own_props localV))
  else if isArray localV && isArray remoteV then
    match localV, remoteV with
    | VArr l, VArr r => VArr (dedup_values [] (l ++ r))
    | _, _ => localV
    end
  else localV.

(** [combineResults]. *)
Definition combineResults (results : list SyncResult) : SyncResult :=
  {| success := forallb success results;
     synced := fold_left (fun sum r => sum + synced r) results 0;
     conflicts := flat_map conflicts results;
     errors := flat_map errors results |}.

End SyncCore.

(* ===================================================================== *)
(** * The orchestrator ([AdvancedStorage]) *)
(* ===================================================================== *)

Module AdvancedStorage.

(** The codec services are external: [encrypt] draws a fresh nonce, so it
    takes the random bytes of the call as an argument; every call returns
    or throws. *)
Record EncryptionService : Type := {
  encrypt : Z -> value -> result value;
  decrypt : value -> result value
}.

Record CompressionService : Type := {
  compress : value -> result value;
  decompress : value -> result value
}.

(** What [schema.parseAsync(data)] does: resolve, reject with a [ZodError],
    or reject with something else. *)
Inductive parse_outcome : Type :=
| parse_ok
| zod_error
| parse_throws (tag : string).

Abbreviation StorageSchema := (value -> parse_outcome).

(** [interface SetOptions], the fields [set] reads.  An absent bag is the
    bag of absent fields ([no_options]). *)
Record SetOptions : Type := {
  opt_ttl : option Z;
  opt_tags : value;
  opt_encrypt : option bool;
  opt_compress : option bool;
  opt_metadata : option (list (string * value))
}.

Definition no_options : SetOptions :=
  {| opt_ttl := None; opt_tags := VUndefined; opt_encrypt := None;
     opt_compress := None; opt_metadata := None |}.

(** The normalised [StorageConfig], as far as the methods below read it
    (the cache and sync sections live on in the services built from them). *)
Record StorageConfig : Type := {
  namespace : string;
  encryption_enabled : bool;
  compression_threshold : Z;
  versioning_enabled : bool;
  versioning_maxVersions : Z;
  versioning_autoCleanup : bool;
  quota_maxSize : Z;
  quota_warnAt : Z;
  quota_enforceLimit : bool
}.

Inductive event : Type :=
| change (key : string) (type : SyncCore.change_type)
         (oldValue newValue : value) (timestamp : Z)
| error_event (code : string) (cause : error)
| quota_warning (usage quota : Z).

(** The fields of an [AdvancedStorage].  The validator is always present
    (the constructor creates it); the task queue and the metrics collector
    do not influence results and are left out; [emitted] is the list of
    events emitted so far. *)
Record t : Type := {
  config : StorageConfig;
  adapter : MemoryAdapter.t;
  cache : option StorageCache.t;
  encryption : option EncryptionService;
  compression : option CompressionService;
  sync : option SyncCore.t;
  schemas : gmap string StorageSchema;
  versionCounter : gmap string value;
  emitted : list event
}.

Definition with_adapter (f : MemoryAdapter.t -> MemoryAdapter.t) (s : t) : t :=
  {| config := config s; adapter := f (adapter s); cache := cache s;
     encryption := encryption s; compression := compression s; sync := sync s;
     schemas := schemas s; versionCounter := versionCounter s;
     emitted := emitted s |}.

Definition with_cache (f : StorageCache.t -> StorageCache.t) (s : t) : t :=
  {| config := config s; adapter := adapter s; cache := f <$> cache s;
     encryption := encryption s; compression := compression s; sync := sync s;
     schemas := schemas s; versionCounter := versionCounter s;
     emitted := emitted s |}.

Definition with_sync (f : SyncCore.t -> SyncCore.t) (s : t) : t :=
  {| config := config s; adapter := adapter s; cache := cache s;
     encryption := encryption s; compression := compression s;
     sync := f <$> sync s;
     schemas := schemas s; versionCounter := versionCounter s;
     emitted := emitted s |}.

Definition with_versionCounter (f : gmap string value -> gmap string value)
  (s : t) : t :=
  {| config := config s; adapter := adapter s; cache := cache s;
     encryption := encryption s; compression := compression s; sync := sync s;
     schemas := schemas s; versionCounter := f (versionCounter s);
     emitted := emitted s |}.

Definition with_schemas (f : gmap string StorageSchema -> gmap string StorageSchema)
  (s : t) : t :=
  {| config := config s; adapter := adapter s; cache := cache s;
     encryption := encryption s; compression := compression s; sync := sync s;
     schemas := f (schemas s); versionCounter := versionCounter s;
     emitted := emitted s |}.

Definition log (e : event) (s : t) : t :=
  {| config := config s; adapter := adapter s; cache := cache s;
     encryption := encryption s; compression := compression s; sync := sync s;
     schemas := schemas s; versionCounter := versionCounter s;
     emitted := emitted s ++ [e] |}.

(** Run a method of the adapter on the adapter field. *)
Definition on_adapter {A : Type} (m : M MemoryAdapter.t A) : M t A :=
  fun s => let (r, a') := m (adapter s) in (r, with_adapter (fun _ => a') s).

(** [this.emit('change', c)]: the event is emitted, and the listener that
    [SyncManager.start] installed queues it for synchronisation. *)
Definition emit_change (now : Z) (k : string) (ty : SyncCore.change_type)
  (oldV newV : value) : M t unit :=
  modify (fun s =>
    with_sync (fun sm =>
                 if SyncCore.listening sm
                 then SyncCore.queueChange now k ty newV sm else sm)
      (log (change k ty oldV newV now) s)).

(** [if (this.sync) this.sync.queueChange(key, type, value)]. *)
Definition queue_sync (now : Z) (k : string) (ty : SyncCore.change_type)
  (v : value) : M t unit :=
  modify (with_sync (SyncCore.queueChange now k ty v)).

(** [getInternalKey]. *)
Definition getInternalKey (s : t) (key : string) : string :=
  namespace (config s) +:+ ":" +:+ key.

(** [getSchemaKey]: [key.split(':')[0]]. *)
Fixpoint before_colon (key : string) : string :=
  match key with
  | EmptyString => EmptyString
  | String c rest =>
      if Ascii.eqb c ":"%char then EmptyString else String c (before_colon rest)
  end.

Definition getSchemaKey (key : string) : string := before_colon key.

(** [isStorageItem]. *)
Definition isStorageItem (v : value) : bool :=
  truthy v && typeof_object v
  && js_in "id" v && js_in "key" v && js_in "value" v && js_in "metadata" v.

(** [estimateSize]. *)
Definition estimateSize `{Platform} (v : value) : Z := blob_size v.

(** [shouldCompress]. *)
Definition shouldCompress `{Platform} (s : t) (v : value) (o : SetOptions) : bool :=
  match compression s with
  | None => false
  | Some _ =>
      match opt_compress o with
      | Some false => false
      | Some true => true
      | None =>
          let threshold := compression_threshold (config s) in
          (if threshold =? 0 then 1024 else threshold) <=? estimateSize v
      end
  end.

(** [shouldEncrypt]. *)
Definition shouldEncrypt (s : t) (o : SetOptions) : bool :=
  match encryption s with
  | None => false
  | Some _ =>
      match opt_encrypt o with
      | Some false => false
      | other =>
          encryption_enabled (config s)
          || match other with Some true => true | _ => false end
      end
  end.

(** [registerSchema]. *)
Definition registerSchema (key : string) (schema : StorageSchema) (s : t) : t :=
  with_schemas (insert key schema) s.

(** [SchemaValidator.validate]. *)
Definition validate (v : value) (schema : StorageSchema) : result unit :=
  match schema v with
  | parse_ok => Ok tt
  | zod_error => Err ValidationError
  | parse_throws tag => Err (Foreign tag)
  end.

(** [size]. *)
Definition size `{Platform} (s : t) : Z := MemoryAdapter.size (adapter s).

(** [checkQuota]. *)
Definition checkQuota `{Platform} (key : string) (v : value) : M t unit :=
  (let* s := self in
   if negb (quota_enforceLimit (config s)) then ret tt
   else
     let itemSize := estimateSize v in
     let currentSize := size s in
     let quota := quota_maxSize (config s) * 1024 * 1024 in
     if quota <? currentSize + itemSize
     then throw (QuotaExceededError (currentSize + itemSize) quota)
     else
       let warnAt := if quota_warnAt (config s) =? 0 then 80
                     else quota_warnAt (config s) in
       when_ ((0 <? quota) && (warnAt * quota <=? (currentSize + itemSize) * 100))
         (modify (log (quota_warning (currentSize + itemSize) quota))))%monad.

(** The read [item.metadata.f]; it throws when [item.metadata] is [null] or
    [undefined]. *)
Definition metadata_field (f : string) (item : value) : result value :=
  let m := prop "metadata" item in
  if nullish m then Err TypeError else Ok (prop f m).

(** [x + 1]: addition on numbers, [NaN] on [undefined], concatenation on
    strings and on what converts to a string. *)
Definition plus_one (v : value) : value :=
  match v with
  | VNum n => VNum (n + 1)
  | VUndefined | VNaN => VNaN
  | VNull => VNum 1
  | VBool b => VNum (if b then 2 else 1)
  | VStr _ | VArr _ | VObj _ => VStr (to_string v +:+ "1")
  end.

(** [currentItem ? currentItem.metadata.version + 1 : 1]. *)
Definition next_version (currentItem : value) : result value :=
  if truthy currentItem then
    match metadata_field "version" currentItem with
    | Ok v => Ok (plus_one v)
    | Err e => Err e
    end
  else Ok (VNum 1).

(** [currentItem?.metadata.created || now]. *)
Definition created_or_now (now : Z) (currentItem : value) : result value :=
  if nullish currentItem then Ok (VNum now)
  else match metadata_field "created" currentItem with
       | Ok c => Ok (if truthy c then c else VNum now)
       | Err e => Err e
       end.

(** [currentItem?.value]. *)
Definition old_value (currentItem : value) : value :=
  if nullish currentItem then VUndefined else prop "value" currentItem.

(** JavaScript's default [sort] on strings followed by [reverse]. *)
Fixpoint insert_string (x : string) (l : list string) : list string :=
  match l with
  | [] => [x]
  | y :: rest => if String.leb x y then x :: y :: rest else y :: insert_string x rest
  end.

Definition sort_strings (l : list string) : list string := foldr insert_string [] l.

(** [l.slice(n)]. *)
Definition slice_from {A : Type} (n : Z) (l : list A) : list A :=
  if 0 <=? n then skipn (Z.to_nat n) l
  else skipn (length l - Z.to_nat (- n)) l.

(** The prefix under which the versions of [key] are archived. *)
Definition version_prefix (key : string) : string := "__version:" +:+ key +:+ ":".

(** [Promise.all(keys.map(k => this.adapter.delete(k)))]: every deletion is
    carried out; the first failure, if any, is the one reported. *)
Fixpoint delete_each (ks : list string) : M t unit :=
  match ks with
  | [] => ret tt
  | k :: rest =>
      fun s =>
        match on_adapter (MemoryAdapter.delete k) s with
        | (Ok _, s') => delete_each rest s'
        | (Err e, s') => (Err e, snd (delete_each rest s'))
        end
  end.

(** [cleanupVersions]. *)
Definition cleanupVersions (key : string) : M t unit :=
  (let* s := self in
   let maxVersions := if versioning_maxVersions (config s) =? 0 then 10
                      else versioning_maxVersions (config s) in
   let versionKeys := MemoryAdapter.keys (adapter s) in
   let keyVersions :=
     rev (sort_strings (filter (fun k => String.prefix (version_prefix key) k)
                               versionKeys)) in
   if maxVersions <? Z.of_nat (length keyVersions)
   then delete_each (slice_from maxVersions keyVersions)
   else ret tt)%monad.

(** [storeVersion]. *)
Definition storeVersion `{Platform} (now : Z) (key : string) (item : value)
  : M t unit :=
  (let* version := lift_result (metadata_field "version" item) in
   let versionKey := "__version:" +:+ key +:+ ":" +:+ to_string version in
   on_adapter (MemoryAdapter.set now versionKey item None VUndefined) ;;
   let* s := self in
   when_ (versioning_autoCleanup (config s)) (cleanupVersions key))%monad.

(** [deleteVersions]. *)
Definition deleteVersions (key : string) : M t unit :=
  (let* s := self in
   delete_each (filter (fun k => String.prefix (version_prefix key) k)
                       (MemoryAdapter.keys (adapter s))))%monad.

(** The envelope [set] builds.  Dates are their millisecond timestamps. *)
Definition envelope `{Platform} (now : Z) (key : string) (version created : value)
  (processedValue : value) (compressed encrypted : bool) (o : SetOptions) : value :=
  VObj [("id", VStr (key +:+ "_" +:+ to_string version +:+ "_" +:+ pretty now));
        ("key", VStr key);
        ("value", processedValue);
        ("metadata",
         VObj (obj_assign
                 [("created", created);
                  ("updated", VNum now);
                  ("version", version);
                  ("size", VNum (estimateSize processedValue));
                  ("compressed", VBool compressed);
                  ("encrypted", VBool encrypted);
                  ("tags", opt_tags o);
                  ("ttl", MemoryAdapter.opt_num (opt_ttl o));
                  ("expiresAt",
                   MemoryAdapter.opt_num (MemoryAdapter.ttl_expiry now (opt_ttl o)))]
                 (match opt_metadata o with Some fs => fs | None => [] end)))].

Definition metadata_value (o : SetOptions) : value :=
  match opt_metadata o with Some fs => VObj fs | None => VUndefined end.

(** [this.cache.set(...)] when there is a cache. *)
Definition cache_set `{Platform} (now : Z) (key : string) (v : value)
  (ttl : option Z) : M t unit :=
  modify (with_cache (StorageCache.set now key v ttl)).

(** [// Validate against schema if registered]. *)
Definition validate_registered (key : string) (v : value) : M t unit :=
  (let* s := self in
   match schemas s !! getSchemaKey key with
   | Some schema => lift_result (validate v schema)
   | None => ret tt
   end)%monad.

(** [// Prepare value]: compression, then encryption. *)
Definition prepare (nonce : Z) (v : value) (compressed encrypted : bool)
  : M t value :=
  (let* s := self in
   let* compressedValue :=
     if compressed then
       match compression s with
       | Some c => lift_result (compress c v)
       | None => throw TypeError
       end
     else ret v in
   if encrypted then
     match encryption s with
     | Some e => lift_result (encrypt e nonce compressedValue)
     | None => throw TypeError
     end
   else ret compressedValue)%monad.

(** The [try] block of [set]. *)
Definition set_body `{Platform} (now nonce : Z) (key : string) (v : value)
  (o : SetOptions) : M t unit :=
  (validate_registered key v ;;
   checkQuota key v ;;
   let* s := self in
   let* currentItem := on_adapter (MemoryAdapter.get now (getInternalKey s key)) in
   let* version := lift_result (next_version currentItem) in
   modify (with_versionCounter (insert key version)) ;;
   let* processedValue := prepare nonce v (shouldCompress s v o) (shouldEncrypt s o) in
   let* created := lift_result (created_or_now now currentItem) in
   let item := envelope now key version created processedValue
                 (shouldCompress s v o) (shouldEncrypt s o) o in
   on_adapter (MemoryAdapter.set now (getInternalKey s key) item
                 (opt_ttl o) (metadata_value o)) ;;
   when_ (versioning_enabled (config s) && truthy currentItem)
     (storeVersion now key currentItem) ;;
   cache_set now key v (opt_ttl o) ;;
   emit_change now key SyncCore.set_change (old_value currentItem) v ;;
   queue_sync now key SyncCore.set_change v)%monad.

(** [AdvancedStorage.set]; [now] is the clock reading of the call, [nonce]
    the random bytes its encryption draws. *)
Definition set `{Platform} (now nonce : Z) (key : string) (v : value)
  (o : SetOptions) : M t unit :=
  on_error (set_body now nonce key v o)
    (fun e => log (error_event "SET_ERROR" e)).

(** [item.metadata.ttl] as the [ttl?: number] that [cache.set] expects. *)
Definition as_ttl (v : value) : result (option Z) :=
  if negb (truthy v) then Ok None
  else match v with
       | VNum n => Ok (Some n)
       | _ => Err (Unmodelled "a time-to-live that is not a number")
       end.

(** [item.value = x] on the object that [adapter.get] returned. *)
Definition assign_value (internalKey : string) (x : value) (item : value)
  : M t value :=
  (modify (with_adapter
             (MemoryAdapter.assign_through_alias internalKey "value" x)) ;;
   ret (match item with
        | VObj fs => VObj (assoc_set "value" x fs)
        | other => other
        end))%monad.

(** [this.cache.get(key)] when there is a cache, [undefined] otherwise. *)
Definition cache_get (now : Z) (key : string) : M t value :=
  fun s => match cache s with
           | Some c =>
               let (v, c') := StorageCache.get now key c in
               (Ok v, with_cache (fun _ => c') s)
           | None => (Ok VUndefined, s)
           end.

(** [// Decrypt if needed] and [// Decompress if needed]: one decoding step
    on the envelope that the adapter returned. *)
Definition decode (internalKey flag : string)
  (codec : option (value -> result value)) (item : value) : M t value :=
  (let* marked := lift_result (metadata_field flag item) in
   match codec with
   | Some undo =>
       if truthy marked then
         let* plain := lift_result (undo (prop "value" item)) in
         assign_value internalKey plain item
       else ret item
   | None => ret item
   end)%monad.

(** The part of [get] that follows a cache miss. *)
Definition get_from_adapter `{Platform} (now : Z) (key : string) : M t value :=
  (let* s := self in
   let* item := on_adapter (MemoryAdapter.get now (getInternalKey s key)) in
   if negb (truthy item) then ret VNull
   else if negb (isStorageItem item) then ret item
   else
     let* item := decode (getInternalKey s key) "encrypted"
                    (decrypt <$> encryption s) item in
     let* item := decode (getInternalKey s key) "compressed"
                    (decompress <$> compression s) item in
     match cache s with
     | Some _ =>
         let* ttl_v := lift_result (metadata_field "ttl" item) in
         let* ttl := lift_result (as_ttl ttl_v) in
         cache_set now key (prop "value" item) ttl
     | None => ret tt
     end ;;
     ret (prop "value" item))%monad.

(** [AdvancedStorage.get]. *)
Definition get `{Platform} (now : Z) (key : string) : M t value :=
  on_error
    (let* cached := cache_get now key in
     match cached with
     | VUndefined => get_from_adapter now key
     | found => ret found
     end)%monad
    (fun e => log (error_event "GET_ERROR" e)).

(** [AdvancedStorage.delete]. *)
Definition delete (now : Z) (key : string) : M t unit :=
  on_error
    (let* s := self in
     let* currentItem := on_adapter (MemoryAdapter.get now (getInternalKey s key)) in
     on_adapter (MemoryAdapter.delete (getInternalKey s key)) ;;
     modify (with_cache (fun c => snd (StorageCache.delete key c))) ;;
     when_ (versioning_enabled (config s)) (deleteVersions key) ;;
     emit_change now key SyncCore.delete_change (old_value currentItem) VUndefined ;;
     queue_sync now key SyncCore.delete_change VUndefined)%monad
    (fun e => log (error_event "DELETE_ERROR" e)).

(** [AdvancedStorage.clear]. *)
Definition clear (now : Z) : M t unit :=
  on_error
    (on_adapter MemoryAdapter.clear ;;
     modify (with_cache StorageCache.clear) ;;
     modify (with_versionCounter (fun _ => ∅)) ;;
     emit_change now "*" SyncCore.clear_change VUndefined VUndefined ;;
     queue_sync now "*" SyncCore.clear_change VUndefined)%monad
    (fun e => log (error_event "CLEAR_ERROR" e)).

(** [s.slice(n)] on a string. *)
Fixpoint drop (n : nat) (s : string) : string :=
  match n, s with
  | O, _ => s
  | S n', String _ rest => drop n' rest
  | S _, EmptyString => EmptyString
  end.

(** [removeInternalPrefix]. *)
Definition removeInternalPrefix (s : t) (key : string) : string :=
  let prefix := namespace (config s) +:+ ":" in
  if String.prefix prefix key then drop (String.length prefix) key else key.

(** [AdvancedStorage.keys]; the keys come in the order in which the
    adapter lists them. *)
Definition keys (s : t) : list string :=
  map (removeInternalPrefix s)
      (filter (fun key => negb (String.prefix "__" key))
              (MemoryAdapter.keys (adapter s))).

(** [AdvancedStorage.has]. *)
Definition has (now : Z) (key : string) : M t bool :=
  fun s =>
    match cache s with
    | Some c =>
        let (cached, c') := StorageCache.has now key c in
        if cached then (Ok true, with_cache (fun _ => c') s)
        else on_adapter (MemoryAdapter.has now (getInternalKey s key))
               (with_cache (fun _ => c') s)
    | None => on_adapter (MemoryAdapter.has now (getInternalKey s key)) s
    end.


(** What the constructor is given, after [normalizeConfig]: the sections
    read by the methods ([StorageConfig]) and the sections from which
    [initializeServices] builds the optional services. *)
Record Options : Type := {
  base : StorageConfig;
  cache_enabled : bool;
  cache_strategy : StorageCache.strategy;
  cache_maxSize : Z;
  cache_maxMemory : Z;
  cache_ttl : Z;
  encryption_service : EncryptionService;
  compression_enabled : bool;
  compression_service : CompressionService;
  sync_enabled : bool;
  sync_conflictResolution : SyncCore.policy;
  sync_providers : list SyncCore.SyncProvider
}.

(** [new SyncManager(this, config)] followed by [start()]: when enabled,
    the listener is installed and the initial [sync()] has run up to its
    first [await]. *)
Definition started_sync (o : Options) : SyncCore.t :=
  snd (SyncCore.sync_begin
         {| SyncCore.enabled := sync_enabled o;
            SyncCore.conflictResolution := sync_conflictResolution o;
            SyncCore.providers := sync_providers o;
            SyncCore.runtimeId := "";
            SyncCore.pendingChanges := ∅;
            SyncCore.syncing := false;
            SyncCore.lastSyncTime := None;
            SyncCore.listening := sync_enabled o;
            SyncCore.emitted := [];
            SyncCore.calls := [] |}).

(** [new AdvancedStorage(config)] over the in-memory backend. *)
Definition create (o : Options) : t :=
  {| config := base o;
     adapter := MemoryAdapter.create;
     cache := if cache_enabled o
              then Some (StorageCache.create (cache_strategy o) (cache_maxSize o)
                           (cache_maxMemory o) (cache_ttl o))
              else None;
     encryption := if encryption_enabled (base o)
                   then Some (encryption_service o) else None;
     compression := if compression_enabled o
                    then Some (compression_service o) else None;
     sync := if sync_enabled o then Some (started_sync o) else None;
     schemas := ∅;
     versionCounter := ∅;
     emitted := [] |}.

End AdvancedStorage.

(* ===================================================================== *)
(** * The synchronisation cycle ([SyncManager.sync]) *)
(* ===================================================================== *)

(** The manager is the [sync] field of the storage it synchronises, and it
    calls back into that storage; so the cycle is a transformer of the
    storage.  A cycle reads the clock once ([now]); [nonce] feeds the
    encryption of the writes it performs. *)
Module SyncManager.

Import SyncCore.

Definition is_null (v : value) : bool :=
  match v with VNull => true | _ => false end.

Definition is_set (ty : change_type) : bool :=
  match ty with set_change => true | _ => false end.

(** The body of the loop of [applyRemoteChanges] for one change; a thrown
    error is swallowed by its [catch].  The option bag [{ skipSync: true }]
    carries no field that the storage reads. *)
Definition applyRemoteChange `{Platform} (now nonce : Z) (change : SyncChange)
  (s : AdvancedStorage.t) : list SyncConflict * AdvancedStorage.t :=
  match AdvancedStorage.get now (key change) s with
  | (Ok localV, s) =>
      if negb (is_null localV) && is_set (type change) then
        ([{| conflict_key := key change; localValue := localV;
             remoteValue := value_of change; localTimestamp := now;
             remoteTimestamp := timestamp change; resolution := None;
             mergedValue := VUndefined |}], s)
      else
        ([], snd (match type change with
                  | set_change =>
                      AdvancedStorage.set now nonce (key change) (value_of change)
                        AdvancedStorage.no_options s
                  | delete_change => AdvancedStorage.delete now (key change) s
                  | clear_change => AdvancedStorage.clear now s
                  end))
  | (Err _, s) => ([], s)
  end.

(** [applyRemoteChanges]. *)
Fixpoint applyRemoteChanges `{Platform} (now nonce : Z) (changes : list SyncChange)
  (s : AdvancedStorage.t) : list SyncConflict * AdvancedStorage.t :=
  match changes with
  | [] => ([], s)
  | change :: rest =>
      let (found, s) := applyRemoteChange now nonce change s in
      let (more, s) := applyRemoteChanges now nonce rest s in
      (found ++ more, s)
  end.

(** [Array.from(this.pendingChanges.values())]. *)
Definition pending_values (s : AdvancedStorage.t) : list SyncChange :=
  match AdvancedStorage.sync s with
  | Some sm => map snd (map_to_list (pendingChanges sm))
  | None => []
  end.

(** [syncWithProvider]. *)
Definition syncWithProvider `{Platform} (now nonce : Z) (provider : SyncProvider)
  : M AdvancedStorage.t SyncResult :=
  (let* changes := gets pending_values in
   modify (AdvancedStorage.with_sync (record_call (pushed (name provider) changes))) ;;
   let* pushResult := lift_result (push provider changes) in
   modify (AdvancedStorage.with_sync (record_call (pulled (name provider)))) ;;
   let* remoteChanges := lift_result (pull provider) in
   let* found := (fun s => let (c, s') := applyRemoteChanges now nonce remoteChanges s
                           in (Ok c, s')) in
   when_ (success pushResult)
     (modify (AdvancedStorage.with_sync (with_pending (fun _ => ∅)))) ;;
   ret {| success := success pushResult;
          synced := synced pushResult + Z.of_nat (length remoteChanges);
          conflicts := conflicts pushResult ++ found;
          errors := errors pushResult |})%monad.

Definition resolved (c : SyncConflict) (r : resolution_tag) (mergedV : value)
  : SyncConflict :=
  {| conflict_key := conflict_key c; localValue := localValue c;
     remoteValue := remoteValue c; localTimestamp := localTimestamp c;
     remoteTimestamp := remoteTimestamp c; resolution := Some r;
     mergedValue := mergedV |}.

(** The body of the loop of [resolveConflicts] for one conflict, under the
    configured policy; it returns the conflict as the loop leaves it. *)
Definition resolveConflict `{Platform} (now nonce : Z) (p : policy) (c : SyncConflict)
  (s : AdvancedStorage.t) : SyncConflict * AdvancedStorage.t :=
  match p with
  | local => (resolved c kept_local (mergedValue c), s)
  | remote =>
      match AdvancedStorage.set now nonce (conflict_key c) (remoteValue c)
              AdvancedStorage.no_options s with
      | (Ok _, s') => (resolved c took_remote (mergedValue c), s')
      | (Err _, s') => (c, s')
      end
  | merge =>
      let mergedV := mergeValues (localValue c) (remoteValue c) in
      match AdvancedStorage.set now nonce (conflict_key c) mergedV
              AdvancedStorage.no_options s with
      | (Ok _, s') => (resolved c merged mergedV, s')
      | (Err _, s') => (c, s')
      end
  | manual => (c, AdvancedStorage.with_sync (emit (conflict c)) s)
  end.

(** [resolveConflicts]. *)
Fixpoint resolveConflicts `{Platform} (now nonce : Z) (p : policy)
  (cs : list SyncConflict) (s : AdvancedStorage.t)
  : list SyncConflict * AdvancedStorage.t :=
  match cs with
  | [] => ([], s)
  | c :: rest =>
      let (c', s) := resolveConflict now nonce p c s in
      let (rest', s) := resolveConflicts now nonce p rest s in
      (c' :: rest', s)
  end.

(** The loop of [sync] over the providers: a provider that throws
    contributes a failed result and the loop goes on. *)
Fixpoint syncWithProviders `{Platform} (now nonce : Z) (ps : list SyncProvider)
  (s : AdvancedStorage.t) : list SyncResult * AdvancedStorage.t :=
  match ps with
  | [] => ([], s)
  | provider :: rest =>
      let (r, s) :=
        match syncWithProvider now nonce provider s with
        | (Ok result, s') => (result, s')
        | (Err e, s') =>
            ({| success := false; synced := 0; conflicts := []; errors := [e] |}, s')
        end in
      let (rs, s) := syncWithProviders now nonce rest s in
      (r :: rs, s)
  end.

(** What [sync] does once it has passed its guard: the [try] block and the
    [finally] block. *)
Definition resume `{Platform} (now nonce : Z) (s : AdvancedStorage.t)
  : AdvancedStorage.t :=
  match AdvancedStorage.sync s with
  | None => s
  | Some sm =>
      let (results, s) := syncWithProviders now nonce (providers sm) s in
      let combined := combineResults results in
      let (settled, s) :=
        match conflicts combined with
        | [] => ([], s)
        | cs => resolveConflicts now nonce (conflictResolution sm) cs s
        end in
      let report := {| success := success combined; synced := synced combined;
                       conflicts := settled; errors := errors combined |} in
      AdvancedStorage.with_sync
        (fun sm => sync_end (emit (sync_complete report) (with_lastSyncTime now sm)))
        s
  end.

(** [SyncManager.sync]. *)
Definition sync `{Platform} (now nonce : Z) (s : AdvancedStorage.t)
  : AdvancedStorage.t :=
  match AdvancedStorage.sync s with
  | None => s
  | Some sm =>
      let (entered, sm') := sync_begin sm in
      if entered
      then resume now nonce (AdvancedStorage.with_sync (fun _ => sm') s)
      else s
  end.

End SyncManager.

(* ===================================================================== *)
(** * Concrete collaborators for the examples *)
(* ===================================================================== *)

(** The theorems below hold for every platform and every codec that obeys
    its contract.  The examples need particular ones: a size function that
    counts the characters of the JSON text of a value (exact on values
    whose strings need no escaping), and codecs that wrap a value in the
    object shape of the real ones and unwrap it again. *)
Module Demo.

Fixpoint json_length (v : value) {struct v} : Z :=
  match v with
  | VUndefined => 9
  | VNull | VNaN => 4
  | VBool true => 4
  | VBool false => 5
  | VNum n => Z.of_nat (String.length (pretty n))
  | VStr s => Z.of_nat (String.length s) + 2
  | VArr items =>
      2 + (fix go (l : list value) {struct l} : Z :=
             match l with
             | [] => 0
             | x :: rest =>
                 json_length x + match rest with [] => 0 | _ :: _ => 1 + go rest end
             end) items
  | VObj fs =>
      2 + (fix go (l : list (string * value)) {struct l} : Z :=
             match l with
             | [] => 0
             | (k, x) :: rest =>
                 Z.of_nat (String.length k) + 3 + json_length x
                 + match rest with [] => 0 | _ :: _ => 1 + go rest end
             end) fs
  end.

#[export] Instance platform : Platform := {| blob_size := json_length |}.

Definition is_str (expected : string) (v : value) : bool :=
  match v with VStr s => String.eqb s expected | _ => false end.

Definition encryption : AdvancedStorage.EncryptionService :=
  {| AdvancedStorage.encrypt := fun nonce v =>
       Ok (VObj [("algorithm", VStr "AES-GCM"); ("data", v); ("nonce", VNum nonce)]);
     AdvancedStorage.decrypt := fun sealed =>
       if is_str "AES-GCM" (prop "algorithm" sealed)
       then Ok (prop "data" sealed) else Err EncryptionError |}.

Definition compression : AdvancedStorage.CompressionService :=
  {| AdvancedStorage.compress := fun v =>
       Ok (VObj [("algorithm", VStr "none"); ("data", v)]);
     AdvancedStorage.decompress := fun packed =>
       if is_str "none" (prop "algorithm" packed)
       then Ok (prop "data" packed)
       else Err (StorageError "DECOMPRESSION_ERROR") |}.

(** [normalizeConfig({ adapter: 'memory', cache: { enabled: false } })]. *)
Definition config : AdvancedStorage.StorageConfig :=
  {| AdvancedStorage.namespace := "default";
     AdvancedStorage.encryption_enabled := false;
     AdvancedStorage.compression_threshold := 1024;
     AdvancedStorage.versioning_enabled := false;
     AdvancedStorage.versioning_maxVersions := 10;
     AdvancedStorage.versioning_autoCleanup := true;
     AdvancedStorage.quota_maxSize := 100;
     AdvancedStorage.quota_warnAt := 80;
     AdvancedStorage.quota_enforceLimit := true |}.

Definition options : AdvancedStorage.Options :=
  {| AdvancedStorage.base := config;
     AdvancedStorage.cache_enabled := false;
     AdvancedStorage.cache_strategy := StorageCache.lru;
     AdvancedStorage.cache_maxSize := 1000;
     AdvancedStorage.cache_maxMemory := 10 * 1024 * 1024;
     AdvancedStorage.cache_ttl := 3600000;
     AdvancedStorage.encryption_service := encryption;
     AdvancedStorage.compression_enabled := false;
     AdvancedStorage.compression_service := compression;
     AdvancedStorage.sync_enabled := false;
     AdvancedStorage.sync_conflictResolution := SyncCore.local;
     AdvancedStorage.sync_providers := [] |}.

End Demo.

(* ===================================================================== *)
(** * The scheduler's view of the re-entrancy guard *)
(* ===================================================================== *)

(** JavaScript runs one task at a time, and a task gives way only at an
    [await].  For the guard of [sync] this leaves three kinds of atomic
    steps: a call of [sync] runs up to its first [await] ([sync_begin]); a
    cycle that is in flight reaches its [finally] block ([sync_end]); and
    anything else, be it the body of a cycle, [queueChange] or the
    storage, changes fields other than the flag.  [in_flight] counts the
    cycles that have passed the guard and not yet reached [finally]. *)
Module Scheduler.

Record state : Type := {
  manager : SyncCore.t;
  in_flight : nat
}.

Inductive step : state -> state -> Prop :=
| step_call (sm : SyncCore.t) (n : nat) :
    step {| manager := sm; in_flight := n |}
         {| manager := snd (SyncCore.sync_begin sm);
            in_flight := if fst (SyncCore.sync_begin sm) then S n else n |}
| step_finally (sm : SyncCore.t) (n : nat) :
    step {| manager := sm; in_flight := S n |}
         {| manager := SyncCore.sync_end sm; in_flight := n |}
| step_other (sm sm' : SyncCore.t) (n : nat) :
    SyncCore.syncing sm' = SyncCore.syncing sm ->
    step {| manager := sm; in_flight := n |}
         {| manager := sm'; in_flight := n |}.

(** The states a manager can be in, from its construction on. *)
Inductive reachable : state -> Prop :=
| reach_new (sm : SyncCore.t) :
    SyncCore.syncing sm = false ->
    reachable {| manager := sm; in_flight := 0 |}
| reach_step (st st' : state) :
    reachable st -> step st st' -> reachable st'.

End Scheduler.

(* ===================================================================== *)
(** * Scenarios *)
(* ===================================================================== *)

(** Concrete storages and calls, used by the examples that accompany the
    theorems. *)
Module Scenario.

Import AdvancedStorage.
#[local] Existing Instance Demo.platform.

Definition with_options (ttl : option Z) (compress_it : option bool)
  (meta : option (list (string * value))) : SetOptions :=
  {| opt_ttl := ttl; opt_tags := VUndefined; opt_encrypt := None;
     opt_compress := compress_it; opt_metadata := meta |}.

(** A provider that accepts what is pushed and has nothing to hand out. *)
Definition quiet_provider : SyncCore.SyncProvider :=
  {| SyncCore.name := "custom";
     SyncCore.push := fun changes =>
       Ok {| SyncCore.success := true;
             SyncCore.synced := Z.of_nat (length changes);
             SyncCore.conflicts := []; SyncCore.errors := [] |};
     SyncCore.pull := Ok [] |}.

(** [{ sync: { enabled: true, conflictResolution: 'merge',
              providers: ['custom'], customProvider } }]. *)
Definition syncing_options : Options :=
  {| base := Demo.config;
     cache_enabled := false;
     cache_strategy := StorageCache.lru;
     cache_maxSize := 1000;
     cache_maxMemory := 10 * 1024 * 1024;
     cache_ttl := 3600000;
     encryption_service := Demo.encryption;
     compression_enabled := false;
     compression_service := Demo.compression;
     sync_enabled := true;
     sync_conflictResolution := SyncCore.merge;
     sync_providers := [quiet_provider] |}.

(** A storage just constructed with synchronisation enabled: its initial
    [sync()] is in flight. *)
Definition just_started : t := create syncing_options.

(** Local [[1, 2]] against remote [[2, 3]] for one key. *)
Definition array_conflict : SyncCore.SyncConflict :=
  {| SyncCore.conflict_key := "list";
     SyncCore.localValue := VArr [VNum 1; VNum 2];
     SyncCore.remoteValue := VArr [VNum 2; VNum 3];
     SyncCore.localTimestamp := 1000;
     SyncCore.remoteTimestamp := 900;
     SyncCore.resolution := None;
     SyncCore.mergedValue := VUndefined |}.

(** Local [{a: 1}] against remote [{b: 2}] for one key. *)
Definition object_conflict : SyncCore.SyncConflict :=
  {| SyncCore.conflict_key := "settings";
     SyncCore.localValue := VObj [("a", VNum 1)];
     SyncCore.remoteValue := VObj [("b", VNum 2)];
     SyncCore.localTimestamp := 1000;
     SyncCore.remoteTimestamp := 900;
     SyncCore.resolution := None;
     SyncCore.mergedValue := VUndefined |}.

(** A storage with every optional service off. *)
Definition plain : t := create Demo.options.

(** [normalizeConfig] of a configuration that sets the encryption and
    versioning switches, the quota in megabytes and the quota switch. *)
Definition configured (encrypting versioning : bool) (maxSize : Z) (enforce : bool)
  : StorageConfig :=
  {| namespace := "default";
     encryption_enabled := encrypting;
     compression_threshold := 1024;
     versioning_enabled := versioning;
     versioning_maxVersions := 10;
     versioning_autoCleanup := true;
     quota_maxSize := maxSize;
     quota_warnAt := 80;
     quota_enforceLimit := enforce |}.

(** Options over such a configuration, with a cache of the given strategy
    and capacity (or none) and with or without compression. *)
Definition options_with (cfg : StorageConfig)
  (cached : option (StorageCache.strategy * Z)) (compressing : bool) : Options :=
  {| base := cfg;
     cache_enabled := match cached with Some _ => true | None => false end;
     cache_strategy := match cached with
                       | Some (strategy, _) => strategy
                       | None => StorageCache.lru
                       end;
     cache_maxSize := match cached with Some (_, n) => n | None => 1000 end;
     cache_maxMemory := 10 * 1024 * 1024;
     cache_ttl := 3600000;
     encryption_service := Demo.encryption;
     compression_enabled := compressing;
     compression_service := Demo.compression;
     sync_enabled := false;
     sync_conflictResolution := SyncCore.local;
     sync_providers := [] |}.

(** A schema that admits numbers only, registered for the prefix [users]. *)
Definition numbers_only : StorageSchema :=
  fun v => match v with VNum _ => parse_ok | _ => zod_error end.

Definition with_users_schema : t := registerSchema "users" numbers_only plain.

(** A quota of zero megabytes, enforced or not. *)
Definition no_room (enforce : bool) : t :=
  create (options_with (configured false false 0 enforce) None false).

(** Versioning enabled, a frequency cache in front; the key [k] written
    twice, so that its first envelope is archived. *)
Definition versioned : t :=
  create (options_with (configured false true 100 true)
            (Some (StorageCache.lfu, 1000)) false).

Definition written_twice : t :=
  snd (set 2000 0 "k" (VNum 2) no_options
         (snd (set 1000 0 "k" (VNum 1) no_options versioned))).


(** A backend in which earlier code stored a bare value under the internal
    key of [counter]. *)
Definition holding_legacy (v : value) : t :=
  snd (on_adapter (MemoryAdapter.set 500 "default:counter" v None VUndefined) plain).


(** Compression on, no cache. *)
Definition packing : t :=
  create (options_with (configured false false 100 true) None true).


Definition looks_packed : value :=
  VObj [("algorithm", VStr "none"); ("data", VNum 5)].

(** A frequency cache of capacity two holding [a], a small value read
    never, and [b], a large value read once. *)
Definition small_cache : StorageCache.t := StorageCache.create StorageCache.lfu 2 0 0.

Definition two_entries : StorageCache.t :=
  snd (StorageCache.get 1002 "b"
         (StorageCache.set 1001 "b" (VStr "a value of some length") None
            (StorageCache.set 1000 "a" (VNum 1) None small_cache))).

(** A provider that accepts what is pushed and fails on the pull. *)
Definition offline_on_pull : SyncCore.SyncProvider :=
  {| SyncCore.name := "custom";
     SyncCore.push := fun changes =>
       Ok {| SyncCore.success := true;
             SyncCore.synced := Z.of_nat (length changes);
             SyncCore.conflicts := []; SyncCore.errors := [] |};
     SyncCore.pull := Err (Foreign "offline") |}.

(** A synchronising storage after one local write: the change to [a] is
    pending. *)
Definition one_change_pending : t :=
  snd (set 1000 0 "a" (VNum 1) no_options just_started).

End Scenario.

(* ===================================================================== *)
(** * The vocabulary of the statements *)
(* ===================================================================== *)

Section Vocabulary.
Context `{Platform}.
Import AdvancedStorage.

(** [s'] is [s] with another backend. *)
Definition only_adapter_changed (s s' : t) : Prop :=
  s' = with_adapter (fun _ => adapter s') s.

(** The configuration, the codecs, the schemas, and whether there is a
    cache and a synchronisation manager: fixed at construction. *)
Definition same_setup (s s' : t) : Prop :=
  config s' = config s
  /\ encryption s' = encryption s
  /\ compression s' = compression s
  /\ schemas s' = schemas s
  /\ (is_Some (cache s') <-> is_Some (cache s))
  /\ (is_Some (sync s') <-> is_Some (sync s)).

(** A method preserves the setup when the state it leaves, whether it
    returns or throws, has the setup of the state it found. *)
Definition preserves {A : Type} (m : M t A) : Prop :=
  forall s, same_setup s (snd (m s)).

(** The pending map of the manager of a storage. *)
Definition pending (s : AdvancedStorage.t) : option (gmap string SyncCore.SyncChange) :=
  SyncCore.pendingChanges <$> AdvancedStorage.sync s.











(** One call [set(key, v, options)]: when it is made, the random bytes it
    draws, and what it is given. *)
Record call : Type := {
  at_time : Z;
  with_nonce : Z;
  value_given : value;
  options_given : SetOptions
}.

(** The calls made one after the other, each on the state the one before
    left; [None] if one of them fails. *)
Fixpoint set_all (key : string) (calls : list call) (s : t) : option t :=
  match calls with
  | [] => Some s
  | c :: rest =>
      match set (at_time c) (with_nonce c) key (value_given c) (options_given c) s with
      | (Ok _, s') => set_all key rest s'
      | (Err _, _) => None
      end
  end.


End Vocabulary.

(** The calls of the examples about versions, and the version that the
    backend holds for a key afterwards. *)
Module Calls.

Definition plain_call (now : Z) (v : value) : call :=
  {| at_time := now; with_nonce := 0; value_given := v;
     options_given := AdvancedStorage.no_options |}.


Definition stored_version (key : string) (s : option AdvancedStorage.t)
  : option (result value) :=
  match s with
  | Some s' =>
      match MemoryAdapter.store (AdvancedStorage.adapter s')
            !! AdvancedStorage.getInternalKey s' key with
      | Some r => Some (AdvancedStorage.metadata_field "version"
                          (MemoryAdapter.value_of r))
      | None => None
      end
  | None => None
  end.

End Calls.

(* ===================================================================== *)
(** * Further concrete cases *)
(* ===================================================================== *)

(** Backends, caches and managers on which the later theorems are run;
    all on the platform of [Demo]. *)
Module Cases.

#[local] Existing Instance Demo.platform.

(** The backend after [set('k', 1, { ttl: 50 })] at time 100. *)
Definition stocked : MemoryAdapter.t :=
  snd (MemoryAdapter.set 100 "k" (VNum 1) (Some 50) VUndefined MemoryAdapter.create).

(** A transaction whose second operation has a key that [validateKey]
    rejects. *)
Definition first_step : list MemoryAdapter.TransactionOperation :=
  [MemoryAdapter.op_set 1 "a" (VNum 1) None VUndefined].

Definition failing_step : MemoryAdapter.TransactionOperation :=
  MemoryAdapter.op_get 2 "not a key".

Definition last_step : list MemoryAdapter.TransactionOperation :=
  [MemoryAdapter.op_delete "a"].

(** A first-in-first-out cache of capacity two, empty and full; the entry
    of [a] lives for 10 milliseconds, that of [b] for an hour. *)
Definition fifo_empty : StorageCache.t :=
  StorageCache.create StorageCache.fifo 2 0 0.

Definition fifo_full : StorageCache.t :=
  StorageCache.set 1001 "b" (VStr "bee") None
    (StorageCache.set 1000 "a" (VNum 1) (Some 10) fifo_empty).

(** A cache under the strategy ['ttl']. *)
Definition ttl_cache : StorageCache.t :=
  StorageCache.create StorageCache.ttl_only 2 0 0.

(** The synchronising storage of [Scenario.just_started] once its initial
    cycle has run to its end. *)
Definition idle : AdvancedStorage.t :=
  SyncManager.resume 5 0 Scenario.just_started.



End Cases.

(* ===================================================================== *)
(** * The two codec services ([CompressionService], [EncryptionService]) *)
(* ===================================================================== *)

(** What the two services take from the language, the platform and their
    libraries ([pako], the Web Crypto API, [tweetnacl]).  A [Uint8Array] is
    the list of its elements.  [JSON.stringify] returns [undefined] for a
    value that has no JSON text; the decoders and the ciphers may throw. *)
Class Libraries : Type := {
  json_stringify : value -> option string;
  json_parse : string -> result value;
  utf8_encode : string -> list Z;
  utf8_decode : list Z -> string;
  base64_encode : list Z -> string;
  base64_decode : string -> result (list Z);
  pako_gzip : Z -> string -> list Z;
  pako_ungzip : list Z -> result string;
  compression_stream : bool;
  decompression_stream : bool;
  brotli_stream : string -> result (list Z);
  unbrotli_stream : list Z -> result string;
  aes_gcm_encrypt : list Z -> list Z -> list Z -> result (list Z);
  aes_gcm_decrypt : list Z -> list Z -> list Z -> result (list Z);
  aes_cbc_encrypt : list Z -> list Z -> list Z -> result (list Z);
  aes_cbc_decrypt : list Z -> list Z -> list Z -> result (list Z);
  secretbox : list Z -> list Z -> list Z -> list Z;
  secretbox_open : list Z -> list Z -> list Z -> option (list Z)
}.

(** [JSON.parse(x)] of a property that should hold a string: [undefined]
    is rejected as a syntax error. *)
Definition parse_property `{Libraries} (x : value) : result value :=
  match x with
  | VStr s => json_parse s
  | VUndefined => Err (Foreign "SyntaxError")
  | _ => Err (Unmodelled "JSON.parse of a value that is not a string")
  end.

(** [atob(x)] as the services use it, on a property that should hold a
    string. *)
Definition decode_property `{Libraries} (x : value) : result (list Z) :=
  match x with
  | VStr s => base64_decode s
  | _ => Err (Unmodelled "atob of a value that is not a string")
  end.

Module CompressionService.

(** [config.algorithm]; the types admit the first three only. *)
Inductive algorithm : Type := gzip | lz4 | brotli | other (name : string).

Definition algorithm_name (a : algorithm) : string :=
  match a with
  | gzip => "gzip"
  | lz4 => "lz4"
  | brotli => "brotli"
  | other name => name
  end.

(** The fields of a [CompressionService]. *)
Record t : Type := {
  cfg_algorithm : algorithm;
  cfg_level : Z;
  cfg_threshold : Z;
  totalOriginalSize : Z;
  totalCompressedSize : Z
}.

(** The constructor; an absent number is written [0]. *)
Definition create (a : algorithm) (level threshold : Z) : t :=
  {| cfg_algorithm := a;
     cfg_level := Z.min 9 (Z.max 1 (if level =? 0 then 6 else level));
     cfg_threshold := if threshold =? 0 then 1024 else threshold;
     totalOriginalSize := 0;
     totalCompressedSize := 0 |}.

(** [interface CompressedData]. *)
Definition CompressedData (algorithm_used : string) (data : value)
  (originalSize compressedSize : Z) : value :=
  VObj [("algorithm", VStr algorithm_used); ("data", data);
        ("originalSize", VNum originalSize); ("compressedSize", VNum compressedSize)].

(** [compressGzip], [compressLZ4] and [compressBrotli], by algorithm. *)
Definition compress_with `{Libraries} (c : t) (serialized : string)
  : result (list Z) :=
  match cfg_algorithm c with
  | gzip | lz4 => Ok (pako_gzip (cfg_level c) serialized)
  | brotli =>
      if compression_stream then brotli_stream serialized
      else Ok (pako_gzip (cfg_level c) serialized)
  | other _ => Err (StorageError "COMPRESSION_ERROR")
  end.

(** [decompressGzip], [decompressLZ4] and [decompressBrotli], by the
    algorithm named in the compressed data. *)
Definition decompress_with `{Libraries} (algorithm_used : value) (compressed : list Z)
  : result string :=
  match algorithm_used with
  | VStr "gzip" | VStr "lz4" => pako_ungzip compressed
  | VStr "brotli" =>
      if decompression_stream then unbrotli_stream compressed
      else pako_ungzip compressed
  | _ => Err (StorageError "DECOMPRESSION_ERROR")
  end.

Definition count (originalSize compressedSize : Z) (c : t) : t :=
  {| cfg_algorithm := cfg_algorithm c; cfg_level := cfg_level c;
     cfg_threshold := cfg_threshold c;
     totalOriginalSize := totalOriginalSize c + originalSize;
     totalCompressedSize := totalCompressedSize c + compressedSize |}.

(** [CompressionService.compress]. *)
Definition compress `{Platform} `{Libraries} (data : value) : M t value :=
  (let* c := self in
   let originalSize := blob_size data in
   if originalSize <? cfg_threshold c then
     ret (CompressedData "none"
            (match json_stringify data with Some s => VStr s | None => VUndefined end)
            originalSize originalSize)
   else
     match json_stringify data with
     | None => throw (Unmodelled "compression of a value without a JSON text")
     | Some serialized =>
         let* compressed := lift_result (compress_with c serialized) in
         let compressedSize := Z.of_nat (length compressed) in
         modify (count originalSize compressedSize) ;;
         ret (CompressedData (algorithm_name (cfg_algorithm c))
                (VStr (base64_encode compressed)) originalSize compressedSize)
     end)%monad.

(** [CompressionService.decompress]. *)
Definition decompress `{Libraries} (compressed : value) : result value :=
  if nullish compressed then Err TypeError
  else
    match prop "algorithm" compressed with
    | VStr "none" => parse_property (prop "data" compressed)
    | algorithm_used =>
        match decode_property (prop "data" compressed) with
        | Err e => Err e
        | Ok compressedData =>
            match decompress_with algorithm_used compressedData with
            | Err e => Err e
            | Ok decompressed => json_parse decompressed
            end
        end
    end.

(** [getCompressionRatio], as the pair of its numerator and denominator;
    [1/1] while nothing was compressed. *)
Definition getCompressionRatio (c : t) : Z * Z :=
  if totalOriginalSize c =? 0 then (1, 1)
  else (totalCompressedSize c, totalOriginalSize c).

End CompressionService.

Module EncryptionService.

Definition bytes : Type := list Z.

(** [new Uint8Array(n)]. *)
Definition zeros (n : Z) : bytes := repeat 0 (Z.to_nat n).

(** [target.set(source)], for a source that fits. *)
Definition typed_set (source target : bytes) : bytes :=
  source ++ skipn (length source) target.

(** [target.fill(v, start)]. *)
Definition fill (v start : Z) (target : bytes) : bytes :=
  firstn (Z.to_nat start) target
  ++ repeat (v mod 256) (length target - Z.to_nat start).

(** [pkcs7Pad]. *)
Definition pkcs7Pad (data : bytes) : bytes :=
  let blockSize := 16 in
  let padding := blockSize - Z.of_nat (length data) mod blockSize in
  let padded := zeros (Z.of_nat (length data) + padding) in
  let padded := typed_set data padded in
  fill padding (Z.of_nat (length data)) padded.

(** [data.slice(0, e)]: a negative end counts from the end of the array. *)
Definition slice_to (e : Z) (data : bytes) : bytes :=
  let len := Z.of_nat (length data) in
  firstn (Z.to_nat (if e <? 0 then Z.max (len + e) 0 else Z.min e len)) data.

(** [pkcs7Unpad].  On an empty array [data[data.length - 1]] is
    [undefined] and the end of the slice is [NaN], which [slice] reads as
    0. *)
Definition pkcs7Unpad (data : bytes) : bytes :=
  match last data with
  | Some padding => slice_to (Z.of_nat (length data) - padding) data
  | None => []
  end.

(** [config.algorithm]; the types admit the first three only. *)
Inductive algorithm : Type := AES_GCM | AES_CBC | ChaCha20_Poly1305 | other (name : string).

(** The fields of an [EncryptionService] whose key has been initialised. *)
Record t : Type := {
  cfg_algorithm : algorithm;
  key : bytes
}.

(** [interface EncryptedData]. *)
Definition EncryptedData `{Libraries} (algorithm_used : string)
  (encrypted nonce : bytes) : value :=
  VObj [("algorithm", VStr algorithm_used);
        ("data", VStr (base64_encode encrypted));
        ("nonce", VStr (base64_encode nonce))].

(** [encryptAESGCM], [encryptAESCBC] and [encryptChaCha20]; [nonce] is the
    random nonce or initialisation vector that the call draws. *)
Definition encryptAESGCM `{Libraries} (s : t) (nonce data : bytes) : result value :=
  match aes_gcm_encrypt (key s) nonce data with
  | Ok encrypted => Ok (EncryptedData "AES-GCM" encrypted nonce)
  | Err e => Err e
  end.

Definition encryptAESCBC `{Libraries} (s : t) (iv data : bytes) : result value :=
  match aes_cbc_encrypt (key s) iv (pkcs7Pad data) with
  | Ok encrypted => Ok (EncryptedData "AES-CBC" encrypted iv)
  | Err e => Err e
  end.

Definition encryptChaCha20 `{Libraries} (s : t) (nonce data : bytes) : result value :=
  Ok (EncryptedData "ChaCha20-Poly1305" (secretbox (key s) nonce data) nonce).

(** [EncryptionService.encrypt]. *)
Definition encrypt `{Libraries} (s : t) (nonce : bytes) (data : value) : result value :=
  match json_stringify data with
  | None => Err (Unmodelled "encryption of a value without a JSON text")
  | Some serialized =>
      let dataBuffer := utf8_encode serialized in
      match cfg_algorithm s with
      | AES_GCM => encryptAESGCM s nonce dataBuffer
      | AES_CBC => encryptAESCBC s nonce dataBuffer
      | ChaCha20_Poly1305 => encryptChaCha20 s nonce dataBuffer
      | other _ => Err EncryptionError
      end
  end.

(** The start of the three decrypting helpers: the nonce must be there,
    then data and nonce are decoded. *)
Definition decoded_parts `{Libraries} (encrypted : value) : result (bytes * bytes) :=
  if negb (truthy (prop "nonce" encrypted)) then Err EncryptionError
  else
    match decode_property (prop "data" encrypted) with
    | Err e => Err e
    | Ok data =>
        match decode_property (prop "nonce" encrypted) with
        | Err e => Err e
        | Ok nonce => Ok (data, nonce)
        end
    end.

(** [decryptAESGCM], [decryptAESCBC] and [decryptChaCha20]. *)
Definition decryptAESGCM `{Libraries} (s : t) (encrypted : value) : result bytes :=
  match decoded_parts encrypted with
  | Err e => Err e
  | Ok (data, nonce) => aes_gcm_decrypt (key s) nonce data
  end.

Definition decryptAESCBC `{Libraries} (s : t) (encrypted : value) : result bytes :=
  match decoded_parts encrypted with
  | Err e => Err e
  | Ok (data, iv) =>
      match aes_cbc_decrypt (key s) iv data with
      | Ok decrypted => Ok (pkcs7Unpad decrypted)
      | Err e => Err e
      end
  end.

Definition decryptChaCha20 `{Libraries} (s : t) (encrypted : value) : result bytes :=
  match decoded_parts encrypted with
  | Err e => Err e
  | Ok (data, nonce) =>
      match secretbox_open (key s) nonce data with
      | Some decrypted => Ok decrypted
      | None => Err EncryptionError
      end
  end.

(** [EncryptionService.decrypt]. *)
Definition decrypt `{Libraries} (s : t) (encrypted : value) : result value :=
  if nullish encrypted then Err TypeError
  else
    match
      match prop "algorithm" encrypted with
      | VStr "AES-GCM" => decryptAESGCM s encrypted
      | VStr "AES-CBC" => decryptAESCBC s encrypted
      | VStr "ChaCha20-Poly1305" => decryptChaCha20 s encrypted
      | _ => Err EncryptionError
      end
    with
    | Ok decrypted => json_parse (utf8_decode decrypted)
    | Err e => Err e
    end.

(** [EncryptionService.verify]. *)
Definition verify `{Libraries} (s : t) (encrypted : value) : bool :=
  is_ok (decrypt s encrypted).

End EncryptionService.

(** Stand-ins for the libraries, on which the examples of the two codec
    services are run.  They keep the contracts that the theorems assume
    (each decoder inverts its encoder) and nothing more: a string is its
    own JSON text, bytes are character codes, and every compressor and
    cipher reverses its input. *)
Module Toy.

Definition codes (s : string) : list Z :=
  map (fun a => Z.of_nat (nat_of_ascii a)) (list_ascii_of_string s).

Definition text (b : list Z) : string :=
  string_of_list_ascii (map (fun z => ascii_of_nat (Z.to_nat z)) b).

#[export] Instance libraries : Libraries :=
  {| json_stringify := fun v => match v with
                                | VStr s => Some s
                                | VObj [] => Some "{}"
                                | _ => None
                                end;
     json_parse := fun s => Ok (VStr s);
     utf8_encode := codes;
     utf8_decode := text;
     base64_encode := text;
     base64_decode := fun s => Ok (codes s);
     pako_gzip := fun _ s => rev (codes s);
     pako_ungzip := fun b => Ok (text (rev b));
     compression_stream := false;
     decompression_stream := false;
     brotli_stream := fun _ => Err (Foreign "NotSupportedError");
     unbrotli_stream := fun _ => Err (Foreign "NotSupportedError");
     aes_gcm_encrypt := fun _ _ plain => Ok (rev plain);
     aes_gcm_decrypt := fun _ _ cipher => Ok (rev cipher);
     aes_cbc_encrypt := fun _ _ plain => Ok (rev plain);
     aes_cbc_decrypt := fun _ _ cipher => Ok (rev cipher);
     secretbox := fun _ _ plain => rev plain;
     secretbox_open := fun _ _ cipher => Some (rev cipher) |}.

(** A compression service as [AdvancedStorage] builds it, with the
    threshold lowered to 4 bytes, and an encryption service per cipher. *)
Definition compressor : CompressionService.t :=
  CompressionService.create CompressionService.gzip 6 4.


End Toy.

(** The vocabulary of the statements about the two codec services. *)
Module CodecLaws.

(** [data] has the JSON text [serialized], and parsing the text gives
    [data] back. *)
Definition json_round_trips `{Libraries} (data : value) (serialized : string) : Prop :=
  json_stringify data = Some serialized /\ json_parse serialized = Ok data.



(** Each decompressor inverts its compressor on the text [serialized], and
    the two stream interfaces are there together or not at all. *)
Definition compressors_invert `{Libraries} (level : Z) (serialized : string) : Prop :=
  pako_ungzip (pako_gzip level serialized) = Ok serialized
  /\ (forall compressed, brotli_stream serialized = Ok compressed ->
                         unbrotli_stream compressed = Ok serialized)
  /\ compression_stream = decompression_stream.

End CodecLaws.

(* ===================================================================== *)
(** * The registry of named storages ([StorageManager]) *)
(* ===================================================================== *)

(** [src/core/storage-manager.ts].  The registry compares storages by
    identity, so an [AdvancedStorage] object is represented by the number
    of its construction.  What the registry needs of the constructor is
    whether it throws: [constructing config] is the outcome of
    [new AdvancedStorage(config)], and [closing storage] that of
    [storage.close()].  [remove] and [clear] await the closing of a
    storage; the model takes each of them as one step. *)
Module StorageManager.

(** [interface StorageInstance]. *)
Record StorageInstance : Type := {
  name : string;
  storage : nat;
  config : value;
  created : Z
}.

(** The fields of the manager, and [allocated], the number of storages
    constructed so far. *)
Record t : Type := {
  storages : JsMap.t StorageInstance;
  defaultStorage : option nat;
  allocated : nat
}.

(** [new StorageManager()]. *)
Definition create_manager : t :=
  {| storages := []; defaultStorage := None; allocated := 0 |}.

(** [JSON.stringify(config)] of an argument that may be absent. *)
Definition stringify_argument `{Libraries} (config : option value) : option string :=
  match config with
  | Some c => json_stringify c
  | None => None
  end.

Definition same_text (a b : option string) : bool :=
  match a, b with
  | Some x, Some y => String.eqb x y
  | None, None => true
  | _, _ => false
  end.

(** [config || {}]. *)
Definition config_or_empty (config : option value) : value :=
  match config with
  | Some c => if truthy c then c else VObj []
  | None => VObj []
  end.

(** [StorageManager.create]; it returns the storage. *)
Definition create `{Libraries} (constructing : option value -> result unit)
  (now : Z) (name_ : string) (config_ : option value) : M t nat :=
  (let* m := self in
   match JsMap.get name_ (storages m) with
   | Some existing =>
       if same_text (json_stringify (config existing)) (stringify_argument config_)
       then ret (storage existing)
       else throw (StorageError "STORAGE_EXISTS")
   | None =>
       lift_result (constructing config_) ;;
       let fresh := allocated m in
       let instance := {| name := name_; storage := fresh;
                          config := config_or_empty config_; created := now |} in
       modify (fun m =>
         {| storages := JsMap.set name_ instance (storages m);
            defaultStorage := match defaultStorage m with
                              | Some d => Some d
                              | None => Some fresh
                              end;
            allocated := S (allocated m) |}) ;;
       ret fresh
   end)%monad.

(** [StorageManager.getDefault]. *)
Definition getDefault `{Libraries} (constructing : option value -> result unit)
  (now : Z) : M t nat :=
  (let* m := self in
   match defaultStorage m with
   | Some d => ret d
   | None =>
       let* d := create constructing now "default" None in
       modify (fun m => {| storages := storages m; defaultStorage := Some d;
                           allocated := allocated m |}) ;;
       ret d
   end)%monad.

(** [StorageManager.get]; an absent or empty name asks for the default. *)
Definition get `{Libraries} (constructing : option value -> result unit)
  (now : Z) (name_ : option string) : M t nat :=
  match name_ with
  | None | Some "" => getDefault constructing now
  | Some n =>
      (let* m := self in
       match JsMap.get n (storages m) with
       | Some instance => ret (storage instance)
       | None => throw (StorageError "STORAGE_NOT_FOUND")
       end)%monad
  end.

(** [StorageManager.has] and [StorageManager.list]. *)
Definition has (name_ : string) (m : t) : bool :=
  match JsMap.get name_ (storages m) with Some _ => true | None => false end.

Definition list (m : t) : Datatypes.list StorageInstance := map snd (storages m).

(** [StorageManager.remove]. *)
Definition remove (closing : nat -> result unit) (name_ : string) : M t unit :=
  (let* m := self in
   match JsMap.get name_ (storages m) with
   | None => throw (StorageError "STORAGE_NOT_FOUND")
   | Some instance =>
       lift_result (closing (storage instance)) ;;
       modify (fun m =>
         let remaining := JsMap.delete name_ (storages m) in
         {| storages := remaining;
            defaultStorage :=
              match defaultStorage m with
              | Some d =>
                  if Nat.eqb d (storage instance)
                  then match remaining with
                       | (_, first) :: _ => Some (storage first)
                       | [] => None
                       end
                  else Some d
              | None => None
              end;
            allocated := allocated m |})
   end)%monad.

(** The loop of [clear] that closes every storage. *)
Fixpoint close_all (closing : nat -> result unit)
  (instances : Datatypes.list StorageInstance)
  : result unit :=
  match instances with
  | [] => Ok tt
  | instance :: rest =>
      match closing (storage instance) with
      | Ok _ => close_all closing rest
      | Err e => Err e
      end
  end.

(** [StorageManager.clear]. *)
Definition clear (closing : nat -> result unit) : M t unit :=
  (let* m := self in
   lift_result (close_all closing (list m)) ;;
   modify (fun m => {| storages := []; defaultStorage := None;
                       allocated := allocated m |}))%monad.

(** [StorageManager.setDefault]. *)
Definition setDefault (name_ : string) : M t unit :=
  (let* m := self in
   match JsMap.get name_ (storages m) with
   | None => throw (StorageError "STORAGE_NOT_FOUND")
   | Some instance =>
       modify (fun m => {| storages := storages m;
                           defaultStorage := Some (storage instance);
                           allocated := allocated m |})
   end)%monad.

(** The registry is coherent: the names are distinct, there is a default
    storage exactly when there is an instance, and the default storage is
    the storage of an instance. *)
Definition coherent (m : t) : Prop :=
  List.NoDup (JsMap.keys (storages m))
  /\ (defaultStorage m = None <-> storages m = [])
  /\ (forall d, defaultStorage m = Some d ->
                exists instance, List.In instance (list m) /\ storage instance = d).

End StorageManager.

(** A registry for the examples: every construction and every closing
    succeeds, and one storage was created without a configuration. *)
Module RegistryCases.

Definition constructs : option value -> result unit := fun _ => Ok tt.
Definition closes : nat -> result unit := fun _ => Ok tt.

Definition one_storage : StorageManager.t :=
  snd (StorageManager.create (H := Toy.libraries) constructs 100 "main" None
         StorageManager.create_manager).

End RegistryCases.

(* ===================================================================== *)
(** * The vocabulary of the statements about the cache *)
(* ===================================================================== *)

Module CacheState.

Import StorageCache.

(** The keys of a JavaScript [Map] are distinct. *)
Definition distinct_keys (c : t) : Prop := List.NoDup (JsMap.keys (entries c)).

(** Every read was counted as a hit or as a miss. *)
Definition counted (c : t) : Prop := reads c = hits c + misses c.

(** The read counters of two states agree. *)
Definition same_counters (c c' : t) : Prop :=
  hits c' = hits c /\ misses c' = misses c /\ reads c' = reads c.

(** The configuration of two states agrees. *)
Definition same_config (c c' : t) : Prop :=
  cfg_strategy c' = cfg_strategy c /\ cfg_maxSize c' = cfg_maxSize c
  /\ cfg_maxMemory c' = cfg_maxMemory c /\ cfg_ttl c' = cfg_ttl c.

(** The cache holds no more entries than [maxSize], under distinct keys
    none of which is the empty string. *)
Definition within_capacity (c : t) : Prop :=
  distinct_keys c
  /\ ~ List.In "" (JsMap.keys (entries c))
  /\ JsMap.size (entries c) <= cfg_maxSize c.

(** No entry has a negative size, and [memoryUsage] is at least the bytes
    of the entries held. *)
Definition never_undercounts (c : t) : Prop :=
  Forall (fun ke => 0 <= size (snd ke)) (entries c)
  /\ held_bytes c <= memoryUsage c.

(** The entry that [set] stores. *)
Definition entry_of `{Platform} (now : Z) (v : value) (ttl : option Z) (c : t)
  : CacheEntry :=
  {| value_of := v; size := blob_size v; frequency := 1;
     createdAt := now; accessedAt := now; expiresAt := entry_expiry now ttl c |}.

End CacheState.

(* ===================================================================== *)
(** * Facts about property lists, strings and the monad *)
(* ===================================================================== *)

Section AssocFacts.
Context {A : Type}.
Implicit Types (l : list (string * A)) (k : string).

Lemma assoc_set_same k (v : A) l : assoc k (assoc_set k v l) = Some v.
Proof.
  induction l as [| [k' v'] l IH]; simpl.
  - rewrite String.eqb_refl. reflexivity.
  - destruct (String.eqb k k') eqn:E; simpl.
    + rewrite String.eqb_refl. reflexivity.
    + rewrite E. exact IH.
Qed.

Lemma assoc_set_other k k' (v : A) l :
  k <> k' -> assoc k (assoc_set k' v l) = assoc k l.
Proof.
  intros Hne. induction l as [| [k2 v2] l IH]; simpl.
  - apply String.eqb_neq in Hne. rewrite Hne. reflexivity.
  - destruct (String.eqb k' k2) eqn:E; simpl.
    + apply String.eqb_eq in E. subst k2.
      apply String.eqb_neq in Hne. rewrite Hne. reflexivity.
    + destruct (String.eqb k k2); [reflexivity | exact IH].
Qed.

Lemma assoc_remove_same k l : assoc k (assoc_remove k l) = None.
Proof.
  induction l as [| [k' v'] l IH]; simpl; [reflexivity |].
  destruct (String.eqb k k') eqn:E; simpl; [exact IH |].
  rewrite E. exact IH.
Qed.

Lemma assoc_remove_other k k' l :
  k <> k' -> assoc k (assoc_remove k' l) = assoc k l.
Proof.
  intros Hne. induction l as [| [k2 v2] l IH]; simpl; [reflexivity |].
  destruct (String.eqb k' k2) eqn:E; simpl.
  - apply String.eqb_eq in E. subst k2.
    apply String.eqb_neq in Hne. rewrite Hne. exact IH.
  - destruct (String.eqb k k2); [reflexivity | exact IH].
Qed.

Lemma assoc_firstn_some k n l (x : A) :
  assoc k (firstn n l) = Some x -> assoc k l = Some x.
Proof.
  revert n. induction l as [| [k' v'] l IH]; intros [| n]; simpl; try discriminate.
  destruct (String.eqb k k'); [trivial | apply IH].
Qed.

Lemma assoc_app k l1 l2 :
  assoc k (l1 ++ l2) = match assoc k l1 with Some x => Some x | None => assoc k l2 end.
Proof.
  induction l1 as [| [k' v'] l1 IH]; simpl; [reflexivity |].
  destruct (String.eqb k k'); [reflexivity | exact IH].
Qed.

Lemma assoc_none_not_in k l : assoc k l = None <-> ~ List.In k (map fst l).
Proof.
  induction l as [| [k' v'] l IH]; simpl.
  - tauto.
  - destruct (String.eqb k k') eqn:E.
    + apply String.eqb_eq in E. subst. split; [discriminate | tauto].
    + apply String.eqb_neq in E. split.
      * intros Hn [Heq | Hin]; [congruence | tauto].
      * intros Hn. apply IH. tauto.
Qed.

Lemma assoc_some_in k l (x : A) : assoc k l = Some x -> List.In (k, x) l.
Proof.
  induction l as [| [k' v'] l IH]; simpl; [discriminate |].
  destruct (String.eqb k k') eqn:E.
  - apply String.eqb_eq in E. subst. intros [= ->]. now left.
  - intros Hx. right. exact (IH Hx).
Qed.

Lemma assoc_in_nodup k l (x : A) :
  List.NoDup (map fst l) -> List.In (k, x) l -> assoc k l = Some x.
Proof.
  induction l as [| [k' v'] l IH]; simpl; [tauto |].
  intros Hnd [Heq | Hin].
  - injection Heq as -> ->. rewrite String.eqb_refl. reflexivity.
  - inversion Hnd as [| ? ? Hnot Hnd']; subst.
    destruct (String.eqb k k') eqn:E.
    + apply String.eqb_eq in E. subst. exfalso. apply Hnot.
      change k' with (fst (k', x)). apply in_map. exact Hin.
    + apply IH; assumption.
Qed.

Lemma assoc_rev_nodup k l : List.NoDup (map fst l) -> assoc k (rev l) = assoc k l.
Proof.
  intros Hnd. destruct (assoc k l) as [x |] eqn:E.
  - apply assoc_in_nodup.
    + rewrite map_rev. apply List.NoDup_rev. exact Hnd.
    + apply in_rev. rewrite rev_involutive. now apply assoc_some_in.
  - apply assoc_none_not_in. rewrite map_rev. intros Hin.
    apply in_rev in Hin. now apply assoc_none_not_in in E.
Qed.

End AssocFacts.

Lemma assoc_set_fresh {A : Type} (k : string) (v : A) (l : list (string * A)) :
  assoc k l = None -> assoc_set k v l = l ++ [(k, v)].
Proof.
  induction l as [| [k' v'] l IH]; simpl; [reflexivity |].
  destruct (String.eqb k k'); [discriminate |].
  intros Hn. now rewrite IH.
Qed.

Lemma assoc_remove_absent {A : Type} (k : string) (l : list (string * A)) :
  ~ List.In k (map fst l) -> assoc_remove k l = l.
Proof.
  induction l as [| [k' v'] l IH]; simpl; [reflexivity |].
  intros Hnot. destruct (String.eqb k k') eqn:E.
  - apply String.eqb_eq in E. subst. tauto.
  - rewrite IH by tauto. reflexivity.
Qed.

Lemma assoc_remove_length {A : Type} (k : string) (l : list (string * A)) :
  List.NoDup (map fst l) -> List.In k (map fst l) ->
  S (length (assoc_remove k l)) = length l.
Proof.
  induction l as [| [k' v'] l IH]; simpl; [tauto |].
  intros Hnd Hin. inversion Hnd as [| ? ? Hnot Hnd']; subst.
  destruct (String.eqb k k') eqn:E.
  - apply String.eqb_eq in E. subst. rewrite assoc_remove_absent by exact Hnot.
    reflexivity.
  - apply String.eqb_neq in E. simpl. f_equal. apply IH; [exact Hnd' |].
    destruct Hin as [Heq | Hin]; [congruence | exact Hin].
Qed.

Lemma obj_assign_lookup k (target src : list (string * value)) :
  assoc k (obj_assign target src)
  = match assoc k (rev src) with Some x => Some x | None => assoc k target end.
Proof.
  unfold obj_assign. revert target.
  induction src as [| [k' v'] src IH]; intros target; simpl; [reflexivity |].
  rewrite IH, assoc_app. destruct (assoc k (rev src)); [reflexivity |].
  simpl. destruct (String.eqb k k') eqn:E.
  - apply String.eqb_eq in E. subst. apply assoc_set_same.
  - apply String.eqb_neq in E. now apply assoc_set_other.
Qed.


Section StringFacts.








End StringFacts.

Section MonadFacts.
Context {S A B : Type}.

Lemma bind_ok (m : M S A) (k : A -> M S B) (s : S) (b : B) (s' : S) :
  bind m k s = (Ok b, s') ->
  exists a s1, m s = (Ok a, s1) /\ k a s1 = (Ok b, s').
Proof.
  unfold bind. destruct (m s) as [[a | e] s1]; [eauto | discriminate].
Qed.

Lemma on_error_ok (m : M S A) (h : error -> S -> S) (s : S) (a : A) (s' : S) :
  on_error m h s = (Ok a, s') -> m s = (Ok a, s').
Proof.
  unfold on_error. destruct (m s) as [[a' | e] s1]; [trivial | discriminate].
Qed.

Lemma on_error_of_ok (m : M S A) (h : error -> S -> S) (s : S) (a : A) (s' : S) :
  m s = (Ok a, s') -> on_error m h s = (Ok a, s').
Proof. unfold on_error. intros ->. reflexivity. Qed.

End MonadFacts.

Lemma self_ok {S : Type} (s a s1 : S) : self s = (Ok a, s1) -> a = s /\ s1 = s.
Proof. unfold self. intros [= -> ->]. tauto. Qed.

Lemma modify_ok {S : Type} (f : S -> S) (s s1 : S) (u : unit) :
  modify f s = (Ok u, s1) -> s1 = f s.
Proof. unfold modify. intros [= _ ->]. reflexivity. Qed.

(** Split a successful [bind] in a hypothesis into its two halves. *)
Ltac split_bind H a s1 Ha :=
  apply bind_ok in H; destruct H as (a & s1 & Ha & H).

(* ===================================================================== *)
(** * The backend and the cache, method by method *)
(* ===================================================================== *)

Section AdapterFacts.
Import MemoryAdapter.

Lemma adapter_get_unfold now key a :
  MemoryAdapter.get now key a
  = match validateKey key with
    | Err e => (Err e, a)
    | Ok _ =>
        match store a !! key with
        | None => (Ok VNull, a)
        | Some r =>
            if expired now r then (Ok VNull, with_store (base.delete key) a)
            else (Ok (value_of r), a)
        end
    end.
Proof.
  unfold MemoryAdapter.get, bind, lift_result, self.
  destruct (validateKey key); [| reflexivity].
  destruct (store a !! key) as [r |]; [| reflexivity].
  destruct (expired now r); reflexivity.
Qed.

Lemma adapter_delete_unfold key a :
  MemoryAdapter.delete key a
  = match validateKey key with
    | Err e => (Err e, a)
    | Ok _ => (Ok tt, with_store (base.delete key) a)
    end.
Proof.
  unfold MemoryAdapter.delete, bind, lift_result, modify.
  destruct (validateKey key); reflexivity.
Qed.

(** A read never adds a record, and changes none. *)
Lemma adapter_get_shrinks now key a k :
  store (snd (MemoryAdapter.get now key a)) !! k = None
  \/ store (snd (MemoryAdapter.get now key a)) !! k = store a !! k.
Proof.
  rewrite adapter_get_unfold.
  destruct (validateKey key); [| now right].
  destruct (store a !! key) as [r |] eqn:E; [| now right].
  destruct (expired now r); [| now right]. simpl.
  destruct (decide (key = k)) as [-> | Hne].
  - left. apply lookup_delete_eq.
  - right. now apply lookup_delete_ne.
Qed.

Lemma keys_spec (a : MemoryAdapter.t) (k : string) :
  List.In k (keys a) <-> is_Some (store a !! k).
Proof.
  unfold keys. rewrite in_map_iff. split.
  - intros [[k' r] [Hk Hin]]. simpl in Hk. subst k'.
    apply list_elem_of_In, elem_of_map_to_list in Hin. eauto.
  - intros [r Hr]. exists (k, r). split; [reflexivity |].
    apply list_elem_of_In, elem_of_map_to_list. exact Hr.
Qed.

End AdapterFacts.

Section CacheFacts.
Import StorageCache.



End CacheFacts.

(* ===================================================================== *)
(** * What no method of the storage changes *)
(* ===================================================================== *)

Section StorageFacts.
Context `{Platform}.
Import AdvancedStorage.

Lemma only_adapter_changed_refl s : only_adapter_changed s s.
Proof. destruct s. reflexivity. Qed.

Lemma only_adapter_changed_trans s1 s2 s3 :
  only_adapter_changed s1 s2 -> only_adapter_changed s2 s3 ->
  only_adapter_changed s1 s3.
Proof.
  unfold only_adapter_changed. intros H12 H23. rewrite H23 at 1. rewrite H12.
  destruct s1. reflexivity.
Qed.

Lemma on_adapter_only_adapter {X : Type} (m : M MemoryAdapter.t X) s :
  only_adapter_changed s (snd (on_adapter m s)).
Proof.
  unfold on_adapter. destruct (m (adapter s)) as [r a']. destruct s. reflexivity.
Qed.

Lemma on_adapter_unfold {X : Type} (m : M MemoryAdapter.t X) s :
  on_adapter m s
  = (fst (m (adapter s)), with_adapter (fun _ => snd (m (adapter s))) s).
Proof. unfold on_adapter. destruct (m (adapter s)). reflexivity. Qed.

(** [delete_each] touches the backend only; it removes the keys it is
    given, as far as they are valid, and no other. *)
Lemma delete_each_spec ks s :
  only_adapter_changed s (snd (delete_each ks s))
  /\ (forall k, MemoryAdapter.store (adapter (snd (delete_each ks s))) !! k = None
             \/ MemoryAdapter.store (adapter (snd (delete_each ks s))) !! k
                = MemoryAdapter.store (adapter s) !! k)
  /\ (forall k, ~ List.In k ks ->
        MemoryAdapter.store (adapter (snd (delete_each ks s))) !! k
        = MemoryAdapter.store (adapter s) !! k)
  /\ (is_ok (fst (delete_each ks s)) = true ->
      forall k, List.In k ks ->
        MemoryAdapter.store (adapter (snd (delete_each ks s))) !! k = None).
Proof.
  revert s. induction ks as [| k0 ks IH]; intros s.
  - simpl. split; [apply only_adapter_changed_refl |].
    split; [now right |]. split; [reflexivity | intros _ k []].
  - simpl. rewrite on_adapter_unfold, adapter_delete_unfold.
    destruct (MemoryAdapter.validateKey k0) as [[] | e]; simpl.
    + set (s1 := with_adapter _ s).
      destruct (IH s1) as (Hframe & Hshrink & Hkeep & Hgone).
      destruct (delete_each ks s1) as [[[] | e] s2] eqn:E; simpl in *.
      * split.
        { eapply only_adapter_changed_trans; [| exact Hframe].
          subst s1. destruct s. reflexivity. }
        split.
        { intros k. destruct (Hshrink k) as [Hn | He]; [now left |].
          rewrite He. subst s1. simpl.
          destruct (decide (k0 = k)) as [-> | Hne].
          - left. apply lookup_delete_eq.
          - right. now apply lookup_delete_ne. }
        split.
        { intros k Hnot. rewrite Hkeep by tauto. subst s1. simpl.
          apply lookup_delete_ne. intros ->. tauto. }
        { intros _ k [-> | Hin].
          - destruct (Hshrink k) as [Hn | He]; [exact Hn |].
            rewrite He. subst s1. simpl. apply lookup_delete_eq.
          - now apply Hgone. }
      * split.
        { eapply only_adapter_changed_trans; [| exact Hframe].
          subst s1. destruct s. reflexivity. }
        split.
        { intros k. destruct (Hshrink k) as [Hn | He]; [now left |].
          rewrite He. subst s1. simpl.
          destruct (decide (k0 = k)) as [-> | Hne].
          - left. apply lookup_delete_eq.
          - right. now apply lookup_delete_ne. }
        split.
        { intros k Hnot. rewrite Hkeep by tauto. subst s1. simpl.
          apply lookup_delete_ne. intros ->. tauto. }
        { discriminate. }
    + assert (Hs : with_adapter (fun _ => adapter s) s = s) by (destruct s; reflexivity).
      rewrite Hs.
      destruct (IH s) as (Hframe & Hshrink & Hkeep & Hgone).
      split; [exact Hframe |]. split; [exact Hshrink |].
      split; [intros k Hnot; apply Hkeep; tauto | discriminate].
Qed.

End StorageFacts.

Section Preservation.
Context `{Platform}.
Import AdvancedStorage.

Lemma same_setup_refl s : same_setup s s.
Proof. unfold same_setup. tauto. Qed.

Lemma same_setup_trans s1 s2 s3 :
  same_setup s1 s2 -> same_setup s2 s3 -> same_setup s1 s3.
Proof.
  unfold same_setup.
  intros (A1 & A2 & A3 & A4 & A5 & A6) (B1 & B2 & B3 & B4 & B5 & B6).
  repeat split; try congruence; tauto.
Qed.

Lemma preserves_ret {A : Type} (a : A) : preserves (ret a).
Proof. intros s. apply same_setup_refl. Qed.

Lemma preserves_throw {A : Type} (e : error) : preserves (@throw t A e).
Proof. intros s. apply same_setup_refl. Qed.

Lemma preserves_self : preserves (@self t).
Proof. intros s. apply same_setup_refl. Qed.

Lemma preserves_lift_result {A : Type} (r : result A) : preserves (lift_result r).
Proof. intros s. apply same_setup_refl. Qed.

Lemma preserves_bind {A B : Type} (m : M t A) (k : A -> M t B) :
  preserves m -> (forall a, preserves (k a)) -> preserves (bind m k).
Proof.
  intros Hm Hk s. unfold bind. specialize (Hm s).
  destruct (m s) as [[a | e] s1]; simpl in *; [| exact Hm].
  eapply same_setup_trans; [exact Hm | apply Hk].
Qed.

Lemma preserves_modify (f : t -> t) :
  (forall s, same_setup s (f s)) -> preserves (modify f).
Proof. intros Hf s. apply Hf. Qed.

Lemma preserves_on_error {A : Type} (m : M t A) (h : error -> t -> t) :
  preserves m -> (forall e s, same_setup s (h e s)) -> preserves (on_error m h).
Proof.
  intros Hm Hh s. unfold on_error. specialize (Hm s).
  destruct (m s) as [[a | e] s1]; simpl in *; [exact Hm |].
  eapply same_setup_trans; [exact Hm | apply Hh].
Qed.

Lemma preserves_when (c : bool) (m : M t unit) : preserves m -> preserves (when_ c m).
Proof. intros Hm. destruct c; [exact Hm | apply preserves_ret]. Qed.

Lemma preserves_on_adapter {A : Type} (m : M MemoryAdapter.t A) :
  preserves (on_adapter m).
Proof.
  intros s. unfold on_adapter. destruct (m (adapter s)). simpl.
  unfold same_setup. simpl. tauto.
Qed.

Lemma same_setup_with_adapter f s : same_setup s (with_adapter f s).
Proof. unfold same_setup. simpl. tauto. Qed.

Lemma same_setup_with_cache f s : same_setup s (with_cache f s).
Proof.
  unfold same_setup. simpl. repeat split; try tauto.
  - intros [c Hc]. destruct (cache s); [eauto | discriminate].
  - intros [c Hc]. rewrite Hc. simpl. eauto.
Qed.

Lemma same_setup_with_sync f s : same_setup s (with_sync f s).
Proof.
  unfold same_setup. simpl. repeat split; try tauto.
  - intros [c Hc]. destruct (sync s); [eauto | discriminate].
  - intros [c Hc]. rewrite Hc. simpl. eauto.
Qed.

Lemma same_setup_with_versionCounter f s : same_setup s (with_versionCounter f s).
Proof. unfold same_setup. simpl. tauto. Qed.

Lemma same_setup_log e s : same_setup s (log e s).
Proof. unfold same_setup. simpl. tauto. Qed.

Lemma preserves_delete_each ks : preserves (delete_each ks).
Proof.
  intros s. destruct (delete_each_spec ks s) as (Hframe & _).
  rewrite Hframe. apply same_setup_with_adapter.
Qed.

Lemma preserves_cache_get now key : preserves (cache_get now key).
Proof.
  intros s. unfold cache_get. destruct (cache s) as [c |] eqn:Hc.
  - destruct (StorageCache.get now key c). simpl. apply same_setup_with_cache.
  - apply same_setup_refl.
Qed.

End Preservation.

(** Discharge a [preserves] goal by following the structure of the method. *)
Ltac preserve_modify :=
  apply preserves_modify; intros ?;
  repeat first
    [ apply same_setup_refl
    | apply same_setup_with_adapter
    | apply same_setup_with_versionCounter
    | apply same_setup_log
    | (eapply same_setup_trans; [| apply same_setup_with_sync])
    | (eapply same_setup_trans; [| apply same_setup_with_cache]) ].

Ltac preserve :=
  repeat
    match goal with
    | |- preserves (match ?x with _ => _ end) => destruct x
    | |- preserves (ret _) => apply preserves_ret
    | |- preserves (throw _) => apply preserves_throw
    | |- preserves self => apply preserves_self
    | |- preserves (lift_result _) => apply preserves_lift_result
    | |- preserves (AdvancedStorage.on_adapter _) => apply preserves_on_adapter
    | |- preserves (AdvancedStorage.delete_each _) => apply preserves_delete_each
    | |- preserves (AdvancedStorage.cache_get _ _) => apply preserves_cache_get
    | |- preserves (when_ _ _) => apply preserves_when
    | |- preserves (modify _) => preserve_modify
    | |- preserves (on_error _ _) =>
        apply preserves_on_error; [| intros ? ?; apply same_setup_log]
    | |- preserves (bind _ _) => apply preserves_bind; [| intros ?]
    end.

Section PreservationOfMethods.
Context `{Platform}.
Import AdvancedStorage.

Lemma preserves_set now nonce key v o : preserves (set now nonce key v o).
Proof.
  unfold set, set_body, validate_registered, checkQuota, prepare, storeVersion,
    cleanupVersions, cache_set, emit_change, queue_sync.
  preserve.
Qed.

Lemma preserves_get now key : preserves (get now key).
Proof.
  unfold get, get_from_adapter, decode, assign_value, cache_set.
  preserve.
Qed.

Lemma preserves_delete now key : preserves (delete now key).
Proof.
  unfold delete, deleteVersions, emit_change, queue_sync.
  preserve.
Qed.

Lemma preserves_clear now : preserves (clear now).
Proof.
  unfold clear, emit_change, queue_sync.
  preserve.
Qed.

End PreservationOfMethods.

(* ===================================================================== *)
(** * Rejected writes *)
(* ===================================================================== *)

Section RejectedWrites.
Context `{Platform}.
Import AdvancedStorage.

Lemma validate_registered_fails key v s schema :
  schemas s !! getSchemaKey key = Some schema ->
  schema v = zod_error ->
  validate_registered key v s = (Err ValidationError, s).
Proof.
  intros Hs Hz. unfold validate_registered, bind, self. cbv beta iota.
  rewrite Hs. unfold lift_result, validate. rewrite Hz. reflexivity.
Qed.

Lemma validate_registered_passes key v s :
  match schemas s !! getSchemaKey key with
  | Some schema => schema v = parse_ok
  | None => True
  end ->
  validate_registered key v s = (Ok tt, s).
Proof.
  intros Hs. unfold validate_registered, bind, self. cbv beta iota.
  destruct (schemas s !! getSchemaKey key) as [schema |]; [| reflexivity].
  unfold lift_result, validate. rewrite Hs. reflexivity.
Qed.

(** C8. A [set] whose value fails the schema registered for the prefix of
    its key rejects with a [ValidationError] and leaves the storage as it
    was, but for the error event: the backend, the cache, the version
    counters and the pending synchronisation changes are untouched, and the
    only event emitted is the error. *)
Theorem set_rejects_invalid_value_before_any_effect
  (now nonce : Z) (key : string) (v : value) (o : SetOptions) (s : t)
  (schema : StorageSchema) :
  schemas s !! getSchemaKey key = Some schema ->
  schema v = zod_error ->
  let (outcome, s') := set now nonce key v o s in
  outcome = Err ValidationError
  /\ adapter s' = adapter s
  /\ cache s' = cache s
  /\ versionCounter s' = versionCounter s
  /\ sync s' = sync s
  /\ emitted s' = emitted s ++ [error_event "SET_ERROR" ValidationError].
Proof.
  intros Hs Hz. unfold set, on_error, set_body, bind at 1.
  rewrite (validate_registered_fails _ _ _ _ Hs Hz). simpl. tauto.
Qed.

(** C3, as the code has it. With the limit enforced and the value passing
    the schema registered for its key (if any), a [set] that would take the
    backend past the quota rejects with a [QuotaExceededError] that carries
    the attempted usage and the quota, and leaves the storage as it was but
    for the error event. *)
Theorem set_rejects_over_quota_before_any_effect
  (now nonce : Z) (key : string) (v : value) (o : SetOptions) (s : t) :
  quota_enforceLimit (config s) = true ->
  match schemas s !! getSchemaKey key with
  | Some schema => schema v = parse_ok
  | None => True
  end ->
  quota_maxSize (config s) * 1024 * 1024 < size s + estimateSize v ->
  let usage := size s + estimateSize v in
  let quota := quota_maxSize (config s) * 1024 * 1024 in
  let (outcome, s') := set now nonce key v o s in
  outcome = Err (QuotaExceededError usage quota)
  /\ adapter s' = adapter s
  /\ cache s' = cache s
  /\ versionCounter s' = versionCounter s
  /\ sync s' = sync s
  /\ emitted s' = emitted s ++ [error_event "SET_ERROR" (QuotaExceededError usage quota)].
Proof.
  intros He Hs Hq. unfold set, on_error, set_body, bind at 1.
  rewrite (validate_registered_passes _ _ _ Hs).
  unfold bind at 1. unfold checkQuota at 1, bind at 1, self. cbv beta iota.
  rewrite He. simpl negb. cbv iota.
  destruct (Z.ltb_spec (quota_maxSize (config s) * 1024 * 1024)
              (size s + estimateSize v)) as [_ | Hge]; [| lia].
  unfold throw. simpl. tauto.
Qed.

End RejectedWrites.

(* ===================================================================== *)
(** * A successful write, step by step *)
(* ===================================================================== *)

Section WriteFacts.
Context `{Platform}.
Import AdvancedStorage.






End WriteFacts.

Section SuccessfulWrite.
Context `{Platform}.
Import AdvancedStorage.


End SuccessfulWrite.

(* ===================================================================== *)
(** * Reading back what was written *)
(* ===================================================================== *)

Section CacheReadBack.
Context `{Platform}.
Import StorageCache.






End CacheReadBack.

Section ReadBack.
Context `{Platform}.
Import AdvancedStorage.







End ReadBack.

Section RoundTrip.
Context `{Platform}.
Import AdvancedStorage.




End RoundTrip.

(* ===================================================================== *)
(** * Version numbers *)
(* ===================================================================== *)

Section VersionFacts.
Context `{Platform}.
Import AdvancedStorage.




End VersionFacts.

Section CountingWrites.
Context `{Platform}.
Import AdvancedStorage.




End CountingWrites.

(* ===================================================================== *)
(** * Deleting a key *)
(* ===================================================================== *)

Section DeleteFacts.
Context `{Platform}.
Import AdvancedStorage.

Lemma deleteVersions_spec key s :
  only_adapter_changed s (snd (deleteVersions key s))
  /\ (forall k, MemoryAdapter.store (adapter (snd (deleteVersions key s))) !! k = None
             \/ MemoryAdapter.store (adapter (snd (deleteVersions key s))) !! k
                = MemoryAdapter.store (adapter s) !! k)
  /\ (is_ok (fst (deleteVersions key s)) = true ->
      forall k, String.prefix (version_prefix key) k = true ->
        MemoryAdapter.store (adapter (snd (deleteVersions key s))) !! k = None).
Proof.
  unfold deleteVersions, bind, self. cbv beta iota.
  set (ks := filter _ _).
  destruct (delete_each_spec ks s) as (Hframe & Hshrink & Hkeep & Hgone).
  split; [exact Hframe |]. split; [exact Hshrink |].
  intros Hok k Hpre.
  destruct (MemoryAdapter.store (adapter s) !! k) as [r |] eqn:E.
  - apply Hgone; [exact Hok |]. subst ks.
    apply list_elem_of_In, list_elem_of_filter. split.
    + rewrite Hpre. exact I.
    + apply list_elem_of_In, keys_spec. rewrite E. eauto.
  - destruct (Hshrink k) as [Hn | He]; [exact Hn | now rewrite He].
Qed.

(** A [get] of a key that neither the cache nor the backend holds. *)
Lemma get_of_absent_key now key s :
  MemoryAdapter.validateKey (getInternalKey s key) = Ok tt ->
  MemoryAdapter.store (adapter s) !! getInternalKey s key = None ->
  (forall c, cache s = Some c -> fst (StorageCache.get now key c) = VUndefined) ->
  fst (get now key s) = Ok VNull.
Proof.
  intros Hvalid Hnone Hmiss.
  unfold get, on_error, bind at 1, cache_get.
  destruct (cache s) as [c |] eqn:Hc.
  - specialize (Hmiss c eq_refl).
    destruct (StorageCache.get now key c) as [v c'] eqn:Hget. simpl in Hmiss. subst v.
    unfold get_from_adapter, bind at 1, self. cbv beta iota.
    unfold bind at 1. rewrite on_adapter_unfold, adapter_get_unfold.
    unfold getInternalKey in *. simpl. rewrite Hvalid, Hnone. reflexivity.
  - unfold get_from_adapter, bind at 1, self. cbv beta iota.
    unfold bind at 1. rewrite on_adapter_unfold, adapter_get_unfold.
    rewrite Hvalid, Hnone. reflexivity.
Qed.

End DeleteFacts.

(* ===================================================================== *)
(** * Values stored without an envelope *)
(* ===================================================================== *)

Section LegacyFacts.
Context `{Platform}.
Import AdvancedStorage.

(** A stored value that is truthy and lacks the shape of an envelope comes
    back from [get] as it is; on the way the cache is looked up, and
    nothing else happens: no decoding, no write to the backend, no entry
    added to the cache. *)
Lemma get_returns_truthy_legacy_value (now : Z) (key : string) (s : t)
  (r : MemoryAdapter.MemoryRecord) :
  fst (cache_get now key s) = Ok VUndefined ->
  MemoryAdapter.validateKey (getInternalKey s key) = Ok tt ->
  MemoryAdapter.store (adapter s) !! getInternalKey s key = Some r ->
  MemoryAdapter.expired now r = false ->
  truthy (MemoryAdapter.value_of r) = true ->
  isStorageItem (MemoryAdapter.value_of r) = false ->
  get now key s = (Ok (MemoryAdapter.value_of r), snd (cache_get now key s)).
Proof.
  intros Hmiss Hvalid Hr Hfresh Htruthy Hshape.
  unfold get, on_error, bind at 1.
  destruct (cache_get now key s) as [found s'] eqn:Hc. simpl in Hmiss. subst found.
  assert (Hs' : adapter s' = adapter s /\ config s' = config s).
  { unfold cache_get in Hc. destruct (cache s) as [c |].
    - destruct (StorageCache.get now key c). injection Hc as _ <-.
      split; reflexivity.
    - injection Hc as <-. split; reflexivity. }
  destruct Hs' as [Ha Hcfg].
  unfold get_from_adapter, bind at 1, self. cbv beta iota.
  unfold bind at 1. rewrite on_adapter_unfold, adapter_get_unfold.
  unfold getInternalKey in *. rewrite Ha, Hcfg, Hvalid, Hr, Hfresh. simpl.
  rewrite Htruthy, Hshape. simpl. unfold ret.
  rewrite <- Ha. destruct s'. reflexivity.
Qed.

End LegacyFacts.

(* ===================================================================== *)
(** * Eviction under the frequency strategy *)
(* ===================================================================== *)

Section EvictionFacts.
Context `{Platform}.
Import StorageCache.

(** What [least_frequent] finds when it starts from a candidate: either
    the candidate stays, and then nothing in the list is less frequent; or
    the first entry of the list's least frequency, which is then less than
    the candidate's. *)
Lemma least_frequent_from (kb : string) (fb : Z) (l : JsMap.t CacheEntry) :
  exists k f,
    least_frequent (Some (kb, fb)) l = Some (k, f)
    /\ ((k = kb /\ f = fb /\ Forall (fun ke => fb <= frequency (snd ke)) l)
        \/ (exists before e after,
               l = before ++ (k, e) :: after
               /\ frequency e = f /\ f < fb
               /\ Forall (fun ke => f < frequency (snd ke)) before
               /\ Forall (fun ke => f <= frequency (snd ke)) after)).
Proof.
  revert kb fb. induction l as [| [k0 e0] rest IH]; intros kb fb; simpl.
  - exists kb, fb. split; [reflexivity |]. left. repeat split. constructor.
  - destruct (Z.ltb_spec (frequency e0) fb) as [Hlt | Hge].
    + destruct (IH k0 (frequency e0)) as (k & f & Hres & Hcase).
      exists k, f. split; [exact Hres |]. right.
      destruct Hcase as [(-> & -> & Hall) | (before & e & after & -> & He & Hlt' & Hb & Ha)].
      * exists [], e0, rest. repeat split; auto.
      * exists ((k0, e0) :: before), e, after.
        repeat split; auto; try lia;
          try (constructor; [simpl; lia | assumption]).
    + destruct (IH kb fb) as (k & f & Hres & Hcase).
      exists k, f. split; [exact Hres |].
      destruct Hcase as [(-> & -> & Hall) | (before & e & after & -> & He & Hlt' & Hb & Ha)].
      * left. repeat split; try (constructor; [simpl; lia | assumption]).
      * right. exists ((k0, e0) :: before), e, after.
        repeat split; auto; try lia;
          try (constructor; [simpl; lia | assumption]).
Qed.

(** [evictLFU]'s choice: the first entry, in iteration order, among those
    of least frequency. *)
Lemma least_frequent_spec (l : JsMap.t CacheEntry) (k : string) (f : Z) :
  least_frequent None l = Some (k, f) ->
  exists before e after,
    l = before ++ (k, e) :: after
    /\ frequency e = f
    /\ Forall (fun ke => f < frequency (snd ke)) before
    /\ Forall (fun ke => f <= frequency (snd ke)) after.
Proof.
  destruct l as [| [k0 e0] rest]; simpl; [discriminate |].
  intros Hres. destruct (least_frequent_from k0 (frequency e0) rest)
    as (k' & f' & Hres' & Hcase).
  rewrite Hres in Hres'. injection Hres' as <- <-.
  destruct Hcase as [(-> & -> & Hall) | (before & e & after & -> & He & Hlt' & Hb & Ha)].
  - exists [], e0, rest. repeat split; auto.
  - exists ((k0, e0) :: before), e, after.
    repeat split; auto; try lia;
      try (constructor; [simpl; lia | assumption]).
Qed.

(** C5, as the code has it. A frequency cache that holds exactly its
    capacity of entries is given one more, distinct, key, the memory budget
    allowing. Exactly one resident entry leaves, and it is the first one, in
    iteration order, among those of least frequency, whatever the sizes;
    the other entries stay, in order, and the new one follows them. *)
Theorem full_frequency_cache_evicts_first_least_frequent_entry
  (now : Z) (key : string) (v : value) (ttl : option Z) (c : StorageCache.t)
  (victim : string) (f : Z) :
  cfg_strategy c = lfu ->
  JsMap.size (entries c) = cfg_maxSize c ->
  List.NoDup (JsMap.keys (entries c)) ->
  JsMap.get key (entries c) = None ->
  least_frequent None (entries c) = Some (victim, f) ->
  victim <> "" ->
  (forall e, JsMap.get victim (entries c) = Some e ->
             memoryUsage c - size e + blob_size v <= cfg_maxMemory c) ->
  let c' := StorageCache.set now key v ttl c in
  (exists before e after,
      entries c = before ++ (victim, e) :: after
      /\ frequency e = f
      /\ Forall (fun ke => f < frequency (snd ke)) before
      /\ Forall (fun ke => f <= frequency (snd ke)) after
      /\ entries c'
         = before ++ after
           ++ [(key, {| value_of := v; size := blob_size v; frequency := 1;
                        createdAt := now; accessedAt := now;
                        expiresAt := entry_expiry now ttl c |})])
  /\ length (entries c') = length (entries c).
Proof.
  intros Hlfu Hfull Hnd Hfresh Hleast Hne Hmem c'.
  destruct (least_frequent_spec _ _ _ Hleast) as (before & e & after & Hl & Hf & Hb & Ha).
  assert (Hin : List.In (victim, e) (entries c)).
  { rewrite Hl. apply in_or_app. right. now left. }
  assert (Hget : JsMap.get victim (entries c) = Some e).
  { apply assoc_in_nodup; assumption. }
  assert (Hkeys : List.In victim (map fst (entries c))).
  { change victim with (fst (victim, e)). now apply in_map. }
  assert (Hremoved : assoc_remove victim (entries c) = before ++ after).
  { rewrite Hl. rewrite Hl in Hnd. unfold JsMap.keys in Hnd.
    rewrite map_app in Hnd. simpl in Hnd.
    apply List.NoDup_remove_2 in Hnd.
    clear - Hnd. induction before as [| [k0 e0] before IH]; simpl in *.
    - rewrite String.eqb_refl. apply assoc_remove_absent. intros Hin. apply Hnd. exact Hin.
    - destruct (String.eqb victim k0) eqn:E.
      + apply String.eqb_eq in E. subst. exfalso. apply Hnd. now left.
      + f_equal. apply IH. intros Hin. apply Hnd. now right. }
  assert (Hentries :
    entries c' = before ++ after
       ++ [(key, {| value_of := v; size := blob_size v; frequency := 1;
                    createdAt := now; accessedAt := now;
                    expiresAt := entry_expiry now ttl c |})]).
  { subst c'. unfold StorageCache.set. simpl. rewrite Hlfu.
    unfold enforceLimit. simpl. rewrite Hlfu.
    destruct (Z.leb_spec (cfg_maxSize c) (JsMap.size (entries c))) as [_ | Hlt]; [| lia].
    unfold evictLFU. simpl. rewrite Hleast.
    apply String.eqb_neq in Hne. rewrite Hne.
    unfold StorageCache.delete. simpl. rewrite Hlfu, Hget. simpl.
    destruct (Z.ltb_spec (cfg_maxMemory c)
                (memoryUsage c + 0 + - size e + blob_size v)) as [Hover | _].
    { specialize (Hmem e Hget). lia. }
    simpl. unfold JsMap.set, JsMap.delete. rewrite Hremoved.
    rewrite assoc_set_fresh.
    - rewrite <- app_assoc. unfold entry_expiry. reflexivity.
    - rewrite <- Hremoved. rewrite assoc_remove_other; [exact Hfresh |].
      intros ->. unfold JsMap.get in *. congruence. }
  split.
  - exists before, e, after. repeat split; assumption.
  - rewrite Hentries, Hl. repeat (rewrite ?length_app; simpl). lia.
Qed.

End EvictionFacts.

(* ===================================================================== *)
(** * The synchronisation manager *)
(* ===================================================================== *)

Section GuardFacts.
Import SyncCore Scheduler.

Lemma sync_begin_guarded (sm : SyncCore.t) :
  syncing sm = true -> sync_begin sm = (false, sm).
Proof. intros Hs. unfold sync_begin. rewrite Hs. reflexivity. Qed.

Lemma flag_counts_cycles (st : state) :
  reachable st ->
  in_flight st = if syncing (manager st) then 1%nat else 0%nat.
Proof.
  induction 1 as [sm Hsm | st st' Hreach IH Hstep].
  - simpl. rewrite Hsm. reflexivity.
  - destruct Hstep as [sm n | sm n | sm sm' n Hsame]; simpl in *.
    + unfold sync_begin.
      destruct (syncing sm) eqn:Hs; simpl.
      * rewrite Hs. exact IH.
      * destruct (enabled sm); simpl; [congruence | rewrite Hs; exact IH].
    + destruct (syncing sm); congruence.
    + rewrite Hsame. exact IH.
Qed.

(** [queueChange] is a step that leaves the flag alone, followed, when ten
    changes are pending, by a call of [sync]. *)
Lemma queueChange_steps now k ty v (st : state) :
  reachable st ->
  exists n, reachable {| manager := queueChange now k ty v (manager st);
                         in_flight := n |}.
Proof.
  intros Hreach. destruct st as [sm n]. simpl.
  unfold queueChange.
  set (change := {| SyncCore.key := k; type := ty; value_of := v; timestamp := now;
                    source := getSourceId now sm |}).
  set (sm1 := with_pending (insert k change) sm).
  assert (H1 : reachable {| manager := sm1; in_flight := n |}).
  { eapply reach_step; [exact Hreach |]. apply step_other. reflexivity. }
  destruct (10 <=? Z.of_nat (map_size (pendingChanges sm1))).
  - eexists. eapply reach_step; [exact H1 |]. apply step_call.
  - exists n. exact H1.
Qed.

End GuardFacts.

Section SyncFacts.
Context `{Platform}.
Import SyncCore.

(** C6. A call of [sync] made while a cycle is in progress returns the
    storage, and with it the manager and its trace of provider calls,
    exactly as it found them; and on every run of the scheduler at most
    one cycle is in flight. *)
Theorem sync_in_progress_makes_sync_a_no_op :
  (forall (now nonce : Z) (s : AdvancedStorage.t) (sm : SyncCore.t),
      AdvancedStorage.sync s = Some sm ->
      syncing sm = true ->
      SyncManager.sync now nonce s = s)
  /\ (forall st : Scheduler.state,
         Scheduler.reachable st -> (Scheduler.in_flight st <= 1)%nat).
Proof.
  split.
  - intros now nonce s sm Hsm Hflag. unfold SyncManager.sync.
    rewrite Hsm, (sync_begin_guarded sm Hflag). reflexivity.
  - intros st Hreach. rewrite (flag_counts_cycles st Hreach).
    destruct (syncing (Scheduler.manager st)); lia.
Qed.

End SyncFacts.

Section PendingChanges.
Context `{Platform}.
Import SyncCore.

Lemma applyRemoteChange_setup now nonce change s :
  same_setup s (snd (SyncManager.applyRemoteChange now nonce change s)).
Proof.
  unfold SyncManager.applyRemoteChange.
  pose proof (preserves_get now (key change) s) as Hget.
  destruct (AdvancedStorage.get now (key change) s) as [[localV | e] s1];
    simpl in *; [| exact Hget].
  destruct (negb (SyncManager.is_null localV) && SyncManager.is_set (type change));
    simpl; [exact Hget |].
  eapply same_setup_trans; [exact Hget |].
  destruct (type change).
  - apply preserves_set.
  - apply preserves_delete.
  - apply preserves_clear.
Qed.

Lemma applyRemoteChanges_setup now nonce changes s :
  same_setup s (snd (SyncManager.applyRemoteChanges now nonce changes s)).
Proof.
  revert s. induction changes as [| change rest IH]; intros s; simpl.
  - apply same_setup_refl.
  - pose proof (applyRemoteChange_setup now nonce change s) as H1.
    destruct (SyncManager.applyRemoteChange now nonce change s) as [found s1].
    specialize (IH s1).
    destruct (SyncManager.applyRemoteChanges now nonce rest s1) as [more s2].
    simpl in *. eapply same_setup_trans; eassumption.
Qed.

(** C7, as the code has it. In [syncWithProvider] the pending map is
    emptied when the push has reported success and the pull that follows
    has returned; it is as before when the push throws, when the pull
    throws, and when the push reports failure and nothing was pulled. *)
Theorem pending_changes_cleared_after_successful_round_trip
  (now nonce : Z) (provider : SyncProvider) (s : AdvancedStorage.t) (sm : SyncCore.t) :
  AdvancedStorage.sync s = Some sm ->
  let (outcome, s') := SyncManager.syncWithProvider now nonce provider s in
  match push provider (SyncManager.pending_values s) with
  | Err e => outcome = Err e /\ pending s' = Some (pendingChanges sm)
  | Ok pushResult =>
      match pull provider with
      | Err e => outcome = Err e /\ pending s' = Some (pendingChanges sm)
      | Ok remoteChanges =>
          is_ok outcome = true
          /\ (success pushResult = true -> pending s' = Some ∅)
          /\ (success pushResult = false -> remoteChanges = [] ->
              pending s' = Some (pendingChanges sm))
      end
  end.
Proof.
  intros Hsm. unfold SyncManager.syncWithProvider.
  unfold bind at 1, gets. cbv beta iota.
  unfold bind at 1, modify. cbv beta iota.
  unfold bind at 1, lift_result. cbv beta iota.
  destruct (push provider (SyncManager.pending_values s)) as [pushResult | e].
  2:{ split; [reflexivity |]. unfold pending. simpl. rewrite Hsm. reflexivity. }
  unfold bind at 1, modify. cbv beta iota.
  unfold bind at 1. cbv beta iota.
  destruct (pull provider) as [remoteChanges | e].
  2:{ split; [reflexivity |]. unfold pending. simpl. rewrite Hsm. reflexivity. }
  unfold bind at 1.
  set (s1 := AdvancedStorage.with_sync _ (AdvancedStorage.with_sync _ s)).
  pose proof (applyRemoteChanges_setup now nonce remoteChanges s1) as Hsetup.
  destruct (SyncManager.applyRemoteChanges now nonce remoteChanges s1)
    as [found s2] eqn:Happly.
  simpl in Hsetup. unfold bind, when_, modify, ret.
  destruct (success pushResult) eqn:Hsuccess; simpl.
  - split; [reflexivity |]. split; [| discriminate]. intros _.
    unfold pending. simpl.
    destruct Hsetup as (_ & _ & _ & _ & _ & Hsync).
    assert (Hsome : is_Some (AdvancedStorage.sync s2)).
    { apply Hsync. subst s1. simpl. rewrite Hsm. simpl. eauto. }
    destruct Hsome as [sm2 ->]. reflexivity.
  - split; [reflexivity |]. split; [discriminate |]. intros _ ->.
    simpl in Happly. injection Happly as _ <-.
    subst s1. unfold pending. simpl. rewrite Hsm. reflexivity.
Qed.

End PendingChanges.

Section MergeFacts.
Import SyncCore.

(** Two arrays never reach the branch that unites them: an array is an
    object to [typeof], so the first branch spreads both into an object. *)
Lemma mergeValues_of_arrays (l r : list value) :
  mergeValues (VArr l) (VArr r)
  = VObj (obj_assign (obj_assign [] (indexed_from 0 r)) (indexed_from 0 l)).
Proof. reflexivity. Qed.

(** For two objects the merge holds every property of either, with the
    local value where both have one. *)
Lemma mergeValues_of_objects (l r : list (string * value)) (k : string) :
  List.NoDup (map fst l) -> List.NoDup (map fst r) ->
  prop k (mergeValues (VObj l) (VObj r))
  = match assoc k l with
    | Some x => x
    | None => prop k (VObj r)
    end.
Proof.
  intros Hl Hr. unfold mergeValues. simpl.
  rewrite !obj_assign_lookup. simpl.
  rewrite (assoc_rev_nodup k l Hl), (assoc_rev_nodup k r Hr).
  destruct (assoc k l); [reflexivity |]. destruct (assoc k r); reflexivity.
Qed.

(** C4, the object half on the example of the specification. *)
Example merge_of_the_two_example_objects :
  deep_equal (mergeValues (VObj [("a", VNum 1)]) (VObj [("b", VNum 2)]))
             (VObj [("a", VNum 1); ("b", VNum 2)]) = true.
Proof. reflexivity. Qed.

End MergeFacts.

(* ===================================================================== *)
(** * The backend beyond the orchestrator's use of it *)
(* ===================================================================== *)

Section BackendFacts.
Context `{Platform}.
Import MemoryAdapter.

Lemma expired_later now now' (r : MemoryRecord) :
  now <= now' -> expired now r = true -> expired now' r = true.
Proof.
  unfold expired. destruct (expiresAt r) as [e |]; [| discriminate].
  intros Hle Hexp. apply andb_true_iff in Hexp as [Hnz Hlt].
  rewrite Hnz. simpl. apply Z.ltb_lt in Hlt. apply Z.ltb_lt. lia.
Qed.


(** X2.  [delete] of a valid key always succeeds, whether or not the key
    is stored; afterwards [get] returns [null] for it, [has] answers
    [false], a second [delete] changes nothing, and the other records are
    as before. *)
Theorem adapter_delete_forgets_the_key (now : Z) (key : string) (a : t) :
  validateKey key = Ok tt ->
  let a' := snd (delete key a) in
  fst (delete key a) = Ok tt
  /\ get now key a' = (Ok VNull, a')
  /\ has now key a' = (Ok false, a')
  /\ delete key a' = (Ok tt, a')
  /\ (forall k, k <> key -> store a' !! k = store a !! k).
Proof.
  intros Hvalid. cbv zeta. rewrite adapter_delete_unfold, Hvalid. simpl.
  assert (Hget : get now key (with_store (base.delete key) a)
                 = (Ok VNull, with_store (base.delete key) a)).
  { rewrite adapter_get_unfold, Hvalid. simpl. rewrite lookup_delete.
    destruct (decide (key = key)); [reflexivity | congruence]. }
  repeat split.
  - exact Hget.
  - unfold has, bind. rewrite Hget. reflexivity.
  - rewrite adapter_delete_unfold, Hvalid. unfold with_store. simpl.
    rewrite delete_delete_eq. reflexivity.
  - intros k Hk. apply lookup_delete_ne. congruence.
Qed.

Lemma lookup_unfold now key a :
  lookup now key a
  = match store a !! key with
    | None => (Ok VNull, a)
    | Some r =>
        if expired now r then (Ok VNull, with_store (base.delete key) a)
        else (Ok (value_of r), a)
    end.
Proof.
  unfold lookup, bind, self. destruct (store a !! key) as [r |]; [| reflexivity].
  destruct (expired now r); reflexivity.
Qed.

Lemma get_is_lookup now key a :
  validateKey key = Ok tt -> get now key a = lookup now key a.
Proof.
  intros Hvalid. rewrite adapter_get_unfold, lookup_unfold, Hvalid. reflexivity.
Qed.

Lemma getMany_returns now keys a :
  exists vs, fst (getMany now keys a) = Ok vs /\ length vs = length keys.
Proof.
  revert a. induction keys as [| key rest IH]; intros a; simpl.
  - exists []. split; reflexivity.
  - unfold bind. rewrite lookup_unfold.
    assert (Hstep : exists v a1,
               match store a !! key with
               | None => (Ok VNull, a)
               | Some r =>
                   if expired now r then (Ok VNull, with_store (base.delete key) a)
                   else (Ok (value_of r), a)
               end = (Ok v, a1)).
    { destruct (store a !! key) as [r |]; [destruct (expired now r) |]; eauto. }
    destruct Hstep as (v & a1 & ->).
    destruct (IH a1) as (vs & Hvs & Hlen).
    destruct (getMany now rest a1) as [[vs' | e] a2]; simpl in Hvs; [| discriminate].
    injection Hvs as ->. exists (v :: vs). simpl. split; [reflexivity | now rewrite Hlen].
Qed.

(** X3.  The in-memory [getMany] never rejects, whatever the keys, and
    returns one value per key; on keys that pass [validateKey] it returns
    what the inherited [getMany] ([get] on every key) returns, and leaves
    the same store. *)
Theorem getMany_never_rejects_and_agrees_with_get
  (now : Z) (keys : list string) (a : t) :
  (exists vs, fst (getMany now keys a) = Ok vs /\ length vs = length keys)
  /\ (Forall (fun key => validateKey key = Ok tt) keys ->
      getMany now keys a = getMany_base now keys a).
Proof.
  split; [apply getMany_returns |].
  revert a. induction keys as [| key rest IH]; intros a Hall; [reflexivity |].
  inversion Hall as [| ? ? Hvalid Hrest]; subst. simpl.
  rewrite (get_is_lookup _ _ _ Hvalid). unfold bind.
  destruct (lookup now key a) as [[v | e] a1] eqn:Hl.
  - rewrite (IH a1 Hrest). destruct (getMany_base now rest a1) as [[vs | e] a2]; reflexivity.
  - rewrite lookup_unfold in Hl.
    destruct (store a !! key) as [r |]; [destruct (expired now r) |]; discriminate.
Qed.

Lemma delete_state key a :
  store (snd (delete key a))
  = if is_ok (validateKey key) then base.delete key (store a) else store a.
Proof.
  rewrite adapter_delete_unfold. destruct (validateKey key); reflexivity.
Qed.

Lemma delete_all_lookup (ks : list string) (a : t) (k : string) :
  store (fold_left (fun a key => snd (delete key a)) ks a) !! k
  = if bool_decide (k ∈ ks) && is_ok (validateKey k) then None else store a !! k.
Proof.
  revert a. induction ks as [| key rest IH]; intros a; simpl.
  - reflexivity.
  - rewrite IH, delete_state.
    destruct (decide (k = key)) as [-> | Hne].
    + rewrite (bool_decide_eq_true_2 (key ∈ key :: rest)) by apply list_elem_of_here.
      destruct (is_ok (validateKey key)) eqn:Hv; simpl.
      * rewrite lookup_delete. destruct (decide (key = key)); [| congruence].
        destruct (bool_decide (key ∈ rest)); reflexivity.
      * rewrite andb_false_r. reflexivity.
    + assert (Hiff : bool_decide (k ∈ key :: rest) = bool_decide (k ∈ rest)).
      { apply bool_decide_ext. rewrite elem_of_cons. tauto. }
      rewrite Hiff.
      destruct (bool_decide (k ∈ rest) && is_ok (validateKey k)); [reflexivity |].
      destruct (is_ok (validateKey key)); [| reflexivity].
      rewrite lookup_delete_ne by congruence. reflexivity.
Qed.

Lemma cleanup_lookup now a k :
  store (cleanup now a) !! k
  = match store a !! k with
    | Some r => if expired now r && is_ok (validateKey k) then None else Some r
    | None => None
    end.
Proof.
  unfold cleanup. rewrite delete_all_lookup.
  set (expiredOnes := filter (fun kr : string * MemoryRecord => expired now (snd kr))
                        (map_to_list (store a))).
  destruct (store a !! k) as [r |] eqn:Hk.
  - destruct (expired now r) eqn:Hexp; simpl.
    + assert (Hin : k ∈ map fst expiredOnes).
      { apply (list_elem_of_fmap_2 fst expiredOnes (k, r)).
        apply list_elem_of_filter. simpl. split; [now rewrite Hexp |].
        apply elem_of_map_to_list. exact Hk. }
      rewrite (bool_decide_eq_true_2 _ Hin). reflexivity.
    + assert (Hnot : ~ k ∈ map fst expiredOnes).
      { intros Hin. apply list_elem_of_fmap in Hin as ([k' r'] & Heq & Hin).
        simpl in Heq. subst k'. apply list_elem_of_filter in Hin as [Hexp' Hin].
        apply elem_of_map_to_list in Hin. simpl in Hexp'.
        rewrite Hk in Hin. injection Hin as <-. rewrite Hexp in Hexp'. exact Hexp'. }
      rewrite (bool_decide_eq_false_2 _ Hnot). reflexivity.
  - destruct (bool_decide (k ∈ map fst expiredOnes) && is_ok (validateKey k));
      reflexivity.
Qed.

(** X4.  The cleanup timer is invisible to readers: after a run of
    [cleanup], [get] returns for every key, at every later time, what it
    would have returned without the run.  The run removes expired records
    only, and every record that has not expired is kept. *)
Theorem cleanup_is_invisible_to_get (now now' : Z) (key : string) (a : t) :
  now <= now' ->
  fst (get now' key (cleanup now a)) = fst (get now' key a)
  /\ (forall k r, store (cleanup now a) !! k = Some r -> store a !! k = Some r)
  /\ (forall k r, store a !! k = Some r -> expired now r = false ->
                  store (cleanup now a) !! k = Some r)
  /\ (forall k r, store a !! k = Some r -> expired now r = true ->
                  validateKey k = Ok tt -> store (cleanup now a) !! k = None).
Proof.
  intros Hle. repeat split.
  - rewrite !adapter_get_unfold. destruct (validateKey key) as [[] | e] eqn:Hv;
      [| reflexivity].
    rewrite cleanup_lookup, Hv. simpl.
    destruct (store a !! key) as [r |]; [| reflexivity].
    destruct (expired now r) eqn:Hexp; simpl.
    + rewrite (expired_later _ _ _ Hle Hexp). reflexivity.
    + destruct (expired now' r); reflexivity.
  - intros k r. rewrite cleanup_lookup. destruct (store a !! k) as [r' |]; [| discriminate].
    destruct (expired now r' && is_ok (validateKey k)); [discriminate | tauto].
  - intros k r Hk Hexp. rewrite cleanup_lookup, Hk, Hexp. reflexivity.
  - intros k r Hk Hexp Hv. rewrite cleanup_lookup, Hk, Hexp, Hv. reflexivity.
Qed.

Lemma oldest_from (kb : string) (tb : Z) (l : list (string * MemoryRecord)) :
  exists k tm,
    oldest (Some (kb, tb)) l = Some (k, tm)
    /\ ((k = kb /\ tm = tb /\ Forall (fun kr => tb <= updated (snd kr)) l)
        \/ (exists before r after,
               l = before ++ (k, r) :: after
               /\ updated r = tm /\ tm < tb
               /\ Forall (fun kr => tm < updated (snd kr)) before
               /\ Forall (fun kr => tm <= updated (snd kr)) after)).
Proof.
  revert kb tb. induction l as [| [k0 r0] l IH]; intros kb tb; simpl.
  - exists kb, tb. split; [reflexivity |]. left. repeat split. constructor.
  - destruct (updated r0 <? tb) eqn:Hlt.
    + apply Z.ltb_lt in Hlt.
      destruct (IH k0 (updated r0)) as (k & tm & Heq & Hcase).
      exists k, tm. split; [exact Heq |]. right.
      destruct Hcase as [(-> & -> & Hall) | (before & r & after & -> & Hr & Hlt' & Hb & Ha)].
      * exists [], r0, l. repeat split; try constructor; auto.
      * exists ((k0, r0) :: before), r, after. repeat split; auto; try lia;
          try (constructor; [simpl; lia | assumption]).
    + apply Z.ltb_ge in Hlt.
      destruct (IH kb tb) as (k & tm & Heq & Hcase).
      exists k, tm. split; [exact Heq |].
      destruct Hcase as [(-> & -> & Hall) | (before & r & after & -> & Hr & Hlt' & Hb & Ha)].
      * left. repeat split. constructor; [simpl; lia | exact Hall].
      * right. exists ((k0, r0) :: before), r, after. repeat split; auto;
          try (constructor; [simpl; lia | assumption]).
Qed.

(** X5.  [findOldestKey] finds nothing in an empty store only; otherwise
    it names a record whose [updated] stamp is the least of all, and the
    first such record in iteration order: every record before it was
    written strictly later, every record after it not earlier. *)
Theorem findOldestKey_names_the_first_least_recently_written
  (records : list (string * MemoryRecord)) :
  match findOldestKey records with
  | None => records = []
  | Some key =>
      exists before r after,
        records = before ++ (key, r) :: after
        /\ Forall (fun kr => updated r < updated (snd kr)) before
        /\ Forall (fun kr => updated r <= updated (snd kr)) after
  end.
Proof.
  unfold findOldestKey. destruct records as [| [k0 r0] l]; [reflexivity |]. simpl.
  destruct (oldest_from k0 (updated r0) l) as (k & tm & -> & Hcase). simpl.
  destruct Hcase as [(-> & -> & Hall) | (before & r & after & -> & Hr & Hlt & Hb & Ha)].
  - exists [], r0, l. repeat split; [constructor | exact Hall].
  - exists ((k0, r0) :: before), r, after. subst tm. repeat split; auto;
      try (constructor; [simpl; lia | assumption]).
Qed.

Lemma insert_by_updated_perm x l : insert_by_updated x l ≡ₚ x :: l.
Proof.
  induction l as [| y l IH]; simpl; [reflexivity |].
  destruct (cand_updated x <=? cand_updated y); [reflexivity |].
  rewrite IH. apply Permutation_swap.
Qed.

Lemma sort_by_updated_perm l : sort_by_updated l ≡ₚ l.
Proof.
  induction l as [| x l IH]; simpl; [reflexivity |].
  rewrite insert_by_updated_perm, IH. reflexivity.
Qed.

Lemma ascending_cons x l :
  ascending (x :: l)
  <-> Forall (fun y => cand_updated x <= cand_updated y) l /\ ascending l.
Proof.
  split.
  - intros Hasc. split.
    + apply Forall_forall. intros y Hy. apply (Hasc [] x l y eq_refl).
      apply list_elem_of_In. exact Hy.
    + intros before z after y Heq Hy.
      apply (Hasc (x :: before) z after y); [now rewrite Heq | exact Hy].
  - intros [Hall Hasc] before z after y Heq Hy.
    destruct before as [| b before]; simpl in Heq; injection Heq as <- Heq.
    + subst after. rewrite Forall_forall in Hall. apply Hall.
      apply list_elem_of_In. exact Hy.
    + apply (Hasc before z after y Heq Hy).
Qed.

Lemma insert_by_updated_ascending x l :
  ascending l -> ascending (insert_by_updated x l).
Proof.
  induction l as [| y l IH]; intros Hasc; simpl.
  - apply ascending_cons. split; [constructor | exact Hasc].
  - destruct (cand_updated x <=? cand_updated y) eqn:Hle.
    + apply Z.leb_le in Hle. apply ascending_cons in Hasc as Hyl.
      destruct Hyl as [Hall _]. apply ascending_cons. split; [| exact Hasc].
      constructor; [exact Hle |].
      eapply Forall_impl; [exact Hall |]. simpl. intros; lia.
    + apply Z.leb_gt in Hle. apply ascending_cons in Hasc as [Hall Hasc].
      apply ascending_cons. split; [| apply IH; exact Hasc].
      rewrite (insert_by_updated_perm x l). constructor; [lia | exact Hall].
Qed.

Lemma sort_by_updated_ascending l : ascending (sort_by_updated l).
Proof.
  induction l as [| x l IH]; simpl.
  - intros [| ? ?] ? ? ? Heq; discriminate.
  - apply insert_by_updated_ascending. exact IH.
Qed.

Lemma take_until_spec required freedSoFar l :
  exists evicted kept,
    l = evicted ++ kept
    /\ take_until required freedSoFar l = map cand_key evicted
    /\ (required <= freedSoFar + freed evicted \/ kept = [])
    /\ (forall init last, evicted = init ++ [last] ->
                          freedSoFar + freed init < required).
Proof.
  revert freedSoFar. induction l as [| c l IH]; intros freedSoFar; simpl.
  - exists [], []. repeat split; auto. intros [| ? ?] ? Heq; discriminate.
  - destruct (required <=? freedSoFar) eqn:Hle.
    + apply Z.leb_le in Hle. exists [], (c :: l). simpl. repeat split; auto.
      * left. lia.
      * intros [| ? ?] ? Heq; discriminate.
    + apply Z.leb_gt in Hle.
      destruct (IH (freedSoFar + cand_size c)) as (evicted & kept & -> & Htake & Hfree & Hmin).
      exists (c :: evicted), kept. simpl. repeat split.
      * now rewrite Htake.
      * destruct Hfree as [Hfree | ->]; [left; lia | now right].
      * intros init last Heq. destruct init as [| c' init]; simpl in *.
        -- lia.
        -- injection Heq as <- Heq. specialize (Hmin init last Heq). lia.
Qed.

(** X6.  [selectEvictionCandidates] evicts from the least recently written
    end: the candidates sorted by their [updated] stamp split into an
    evicted front and a kept rest, no evicted record being written later
    than a kept one.  The evicted front frees at least the required space
    unless it is the whole store, and it is no longer than needed: without
    its last record it would free too little. *)
Theorem selectEvictionCandidates_evicts_the_oldest_until_enough
  (requiredSpace : Z) (records : list (string * MemoryRecord)) :
  exists evicted kept : list candidate,
    evicted ++ kept ≡ₚ map candidate_of records
    /\ selectEvictionCandidates requiredSpace records = map cand_key evicted
    /\ Forall (fun e => Forall (fun k => cand_updated e <= cand_updated k) kept) evicted
    /\ (requiredSpace <= freed evicted \/ kept = [])
    /\ (forall init last, evicted = init ++ [last] -> freed init < requiredSpace).
Proof.
  unfold selectEvictionCandidates.
  pose proof (sort_by_updated_perm (map candidate_of records)) as Hperm.
  pose proof (sort_by_updated_ascending (map candidate_of records)) as Hasc.
  destruct (take_until_spec requiredSpace 0 (sort_by_updated (map candidate_of records)))
    as (evicted & kept & Hsplit & Htake & Hfree & Hmin).
  exists evicted, kept. rewrite <- Hsplit.
  split; [exact Hperm |]. split; [exact Htake |]. split; [| split].
  - rewrite Hsplit in Hasc. clear - Hasc.
    apply Forall_forall. intros e He. apply Forall_forall. intros k Hk.
    apply list_elem_of_In in He. apply in_split in He as (l1 & l2 & ->).
    apply (Hasc l1 e (l2 ++ kept) k).
    + now rewrite <- app_assoc.
    + apply in_or_app. right. apply list_elem_of_In. exact Hk.
  - destruct Hfree as [Hfree | Hfree]; [left; lia | now right].
  - intros init last Heq. specialize (Hmin init last Heq). lia.
Qed.

Lemma transaction_app (ops1 ops2 : list TransactionOperation) (a : t) :
  transaction (ops1 ++ ops2) a
  = match transaction ops1 a with
    | (Ok _, a1) => transaction ops2 a1
    | (Err e, a1) => (Err e, a1)
    end.
Proof.
  revert a. induction ops1 as [| op ops1 IH]; intros a; simpl; [reflexivity |].
  unfold bind. destruct (run_operation op a) as [[[] | e] a1]; [apply IH | reflexivity].
Qed.

(** X7.  [transaction] is not atomic: it runs the operations in order and
    stops at the first one that throws, reporting that error; what the
    earlier operations (and the failing one) did to the store stays, and
    the later operations are not run. *)
Theorem transaction_stops_at_the_first_failure_and_keeps_earlier_effects
  (before after : list TransactionOperation) (op : TransactionOperation)
  (a a1 a2 : t) (e : error) :
  transaction before a = (Ok tt, a1) ->
  run_operation op a1 = (Err e, a2) ->
  transaction (before ++ op :: after) a = (Err e, a2).
Proof.
  intros Hbefore Hop. rewrite transaction_app, Hbefore. simpl.
  unfold bind. rewrite Hop. reflexivity.
Qed.

End BackendFacts.

(* ===================================================================== *)
(** * The cache: counters, capacity and expiry *)
(* ===================================================================== *)

Section CacheCounters.
Context `{Platform}.
Import StorageCache CacheState.

Lemma same_counters_refl c : same_counters c c.
Proof. unfold same_counters. tauto. Qed.

Lemma same_counters_trans c1 c2 c3 :
  same_counters c1 c2 -> same_counters c2 c3 -> same_counters c1 c3.
Proof. unfold same_counters. intros (? & ? & ?) (? & ? & ?). repeat split; congruence. Qed.

Lemma same_config_refl c : same_config c c.
Proof. unfold same_config. tauto. Qed.

Lemma same_config_trans c1 c2 c3 :
  same_config c1 c2 -> same_config c2 c3 -> same_config c1 c3.
Proof.
  unfold same_config. intros (? & ? & ? & ?) (? & ? & ? & ?). repeat split; congruence.
Qed.

Lemma delete_keeps key c :
  same_counters c (snd (delete key c)) /\ same_config c (snd (delete key c)).
Proof.
  unfold same_counters, same_config, delete.
  destruct (cfg_strategy c) eqn:Hs; simpl.
  - destruct (LruCache.delete key (lruCache c)). simpl. tauto.
  - destruct (JsMap.get key (entries c)); simpl; repeat split; auto; lia.
  - destruct (JsMap.get key (entries c)); simpl; repeat split; auto; lia.
  - tauto.
Qed.

Lemma delete_all_keeps (ks : list string) c :
  same_counters c (fold_left (fun c key => snd (delete key c)) ks c)
  /\ same_config c (fold_left (fun c key => snd (delete key c)) ks c).
Proof.
  revert c. induction ks as [| k ks IH]; intros c; simpl.
  - split; [apply same_counters_refl | apply same_config_refl].
  - destruct (delete_keeps k c) as [H1 H2].
    destruct (IH (snd (delete k c))) as [H3 H4].
    split; [eapply same_counters_trans | eapply same_config_trans]; eassumption.
Qed.

Lemma evict_until_keeps required freedSpace l c :
  same_counters c (evict_until required freedSpace l c)
  /\ same_config c (evict_until required freedSpace l c).
Proof.
  revert freedSpace c. induction l as [| e l IH]; intros freedSpace c; simpl.
  - split; [apply same_counters_refl | apply same_config_refl].
  - destruct (required <=? freedSpace).
    + split; [apply same_counters_refl | apply same_config_refl].
    + destruct (delete_keeps (cand_key e) c) as [H1 H2].
      destruct (IH (freedSpace + cand_size e) (snd (delete (cand_key e) c))) as [H3 H4].
      split; [eapply same_counters_trans | eapply same_config_trans]; eassumption.
Qed.

Lemma enforceLimit_keeps required c :
  same_counters c (enforceLimit required c) /\ same_config c (enforceLimit required c).
Proof.
  unfold enforceLimit.
  set (c1 := match cfg_strategy c with
             | lfu => if cfg_maxSize c <=? JsMap.size (entries c) then evictLFU c else c
             | fifo => if cfg_maxSize c <=? JsMap.size (entries c) then evictFIFO c else c
             | _ => c
             end).
  assert (H1 : same_counters c c1 /\ same_config c c1).
  { subst c1. destruct (cfg_strategy c);
      try (split; [apply same_counters_refl | apply same_config_refl]).
    - destruct (cfg_maxSize c <=? JsMap.size (entries c));
        [| split; [apply same_counters_refl | apply same_config_refl]].
      unfold evictLFU. destruct (least_frequent None (entries c)) as [[k f] |];
        [| split; [apply same_counters_refl | apply same_config_refl]].
      destruct (String.eqb k "");
        [split; [apply same_counters_refl | apply same_config_refl] | apply delete_keeps].
    - destruct (cfg_maxSize c <=? JsMap.size (entries c));
        [| split; [apply same_counters_refl | apply same_config_refl]].
      unfold evictFIFO. destruct (JsMap.keys (entries c)) as [| k ks];
        [split; [apply same_counters_refl | apply same_config_refl] |].
      destruct (String.eqb k "");
        [split; [apply same_counters_refl | apply same_config_refl] | apply delete_keeps]. }
  destruct H1 as [H1 H2].
  destruct (cfg_maxMemory c1 <? memoryUsage c1 + required).
  - destruct (evict_until_keeps required 0 (sort_by_score (candidates c1)) c1) as [H3 H4].
    unfold evictByMemory.
    split; [eapply same_counters_trans | eapply same_config_trans]; eassumption.
  - split; assumption.
Qed.

Lemma set_keeps now key v ttl c :
  same_counters c (set now key v ttl c) /\ same_config c (set now key v ttl c).
Proof.
  unfold set.
  destruct (cfg_strategy c) eqn:Hs; simpl; rewrite ?Hs.
  - destruct (evict_until_keeps (blob_size v) 0
                (sort_by_score (candidates (bump 0 0 0 1 0 c))) (bump 0 0 0 1 0 c))
      as [A1 A2].
    unfold evictByMemory, same_counters, same_config in *.
    destruct (cfg_maxMemory c <? memoryUsage c + 0 + blob_size v); simpl in *;
      repeat split; try lia; intuition congruence.
  - destruct (enforceLimit_keeps (blob_size v) (bump 0 0 0 1 0 c)) as [A1 A2].
    unfold same_counters, same_config in *. simpl in *.
    repeat split; try lia; intuition congruence.
  - destruct (enforceLimit_keeps (blob_size v) (bump 0 0 0 1 0 c)) as [A1 A2].
    unfold same_counters, same_config in *. simpl in *.
    repeat split; try lia; intuition congruence.
  - destruct (enforceLimit_keeps (blob_size v) (bump 0 0 0 1 0 c)) as [A1 A2].
    unfold same_counters, same_config in *. simpl in *.
    repeat split; try lia; intuition congruence.
Qed.

Lemma warm_keeps es c : same_counters c (warm es c) /\ same_config c (warm es c).
Proof.
  unfold warm. revert c. induction es as [| e es IH]; intros c; simpl.
  - split; [apply same_counters_refl | apply same_config_refl].
  - destruct (set_keeps (warm_at e) (warm_key e) (warm_value e) (warm_ttl e) c) as [A1 A2].
    destruct (IH (set (warm_at e) (warm_key e) (warm_value e) (warm_ttl e) c)) as [B1 B2].
    split; [eapply same_counters_trans | eapply same_config_trans]; eassumption.
Qed.

Lemma prune_keeps now c :
  same_counters c (snd (prune now c)) /\ same_config c (snd (prune now c)).
Proof.
  unfold prune. destruct (cfg_strategy c); simpl; try apply delete_all_keeps;
    unfold same_counters, same_config; simpl; tauto.
Qed.

Lemma has_keeps now key c :
  same_counters c (snd (has now key c)) /\ same_config c (snd (has now key c)).
Proof.
  unfold has. destruct (cfg_strategy c); simpl;
    try (split; [apply same_counters_refl | apply same_config_refl]).
  destruct (LruCache.has_renewing now key (lruCache c)). simpl.
  unfold same_counters, same_config. simpl. tauto.
Qed.

Lemma get_counts now key c :
  reads (snd (get now key c)) = reads c + 1
  /\ hits (snd (get now key c)) + misses (snd (get now key c))
     = hits c + misses c + 1
  /\ same_config c (snd (get now key c)).
Proof.
  unfold get, same_config. destruct (cfg_strategy c) eqn:Hs; simpl; rewrite ?Hs.
  - destruct (LruCache.get now key (lruCache c)) as [[[] |] l']; simpl;
      repeat split; auto; lia.
  - destruct (JsMap.get key (entries c)) as [e |]; [destruct (isExpired now e) |];
      simpl; repeat split; auto; lia.
  - destruct (JsMap.get key (entries c)) as [e |]; [destruct (isExpired now e) |];
      simpl; repeat split; auto; lia.
  - simpl. repeat split; auto; lia.
Qed.

(** X8.  The cache counts every read exactly once, as a hit or as a miss:
    [get] adds one to [reads] and one to either [hits] or [misses], and no
    other operation touches the three counters.  So [reads = hits +
    misses], true of a new cache, stays true, and the hit rate is taken
    over all the reads. *)
Theorem cache_counts_every_read_as_a_hit_or_a_miss
  (now : Z) (key : string) (v : value) (ttl : option Z) (es : list warm_entry)
  (c : t) :
  counted c ->
  counted (snd (get now key c))
  /\ reads (snd (get now key c)) = reads c + 1
  /\ same_counters c (set now key v ttl c)
  /\ same_counters c (snd (delete key c))
  /\ same_counters c (snd (has now key c))
  /\ same_counters c (snd (prune now c))
  /\ same_counters c (warm es c)
  /\ same_counters c (clear c).
Proof.
  intros Hc. destruct (get_counts now key c) as (Hr & Hhm & _).
  split; [unfold counted in *; lia |]. split; [exact Hr |].
  split; [apply set_keeps |]. split; [apply delete_keeps |].
  split; [apply has_keeps |]. split; [apply prune_keeps |].
  split; [apply warm_keeps |].
  unfold same_counters, clear. destruct (cfg_strategy c); simpl; repeat split; lia.
Qed.

End CacheCounters.

Section MapFacts.
Context {A : Type}.
Implicit Types (l : list (string * A)) (k : string).

Lemma filter_cons_bool {B : Type} (p : B -> bool) (x : B) (l : list B) :
  filter (fun y => p y) (x :: l)
  = if p x then x :: filter (fun y => p y) l else filter (fun y => p y) l.
Proof.
  rewrite filter_cons. destruct (p x); simpl; reflexivity.
Qed.

Lemma keys_assoc_remove k l :
  map fst (assoc_remove k l)
  = List.filter (fun k' => negb (String.eqb k k')) (map fst l).
Proof.
  induction l as [| [k' v] l IH]; simpl; [reflexivity |].
  destruct (String.eqb k k'); simpl; [exact IH | now rewrite IH].
Qed.

Lemma assoc_remove_nodup k l :
  List.NoDup (map fst l) -> List.NoDup (map fst (assoc_remove k l)).
Proof. intros Hnd. rewrite keys_assoc_remove. now apply List.NoDup_filter. Qed.

Lemma assoc_remove_keeps_out k k' l :
  ~ List.In k' (map fst l) -> ~ List.In k' (map fst (assoc_remove k l)).
Proof.
  intros Hnot Hin. rewrite keys_assoc_remove in Hin.
  apply List.filter_In in Hin. tauto.
Qed.

Lemma assoc_remove_shorter k l : (length (assoc_remove k l) <= length l)%nat.
Proof.
  induction l as [| [k' v] l IH]; simpl; [lia |].
  destruct (String.eqb k k'); simpl; lia.
Qed.

Lemma keys_assoc_set k (v : A) l :
  map fst (assoc_set k v l)
  = match assoc k l with
    | Some _ => map fst l
    | None => map fst l ++ [k]
    end.
Proof.
  induction l as [| [k' v'] l IH]; simpl; [reflexivity |].
  destruct (String.eqb k k') eqn:E; simpl.
  - apply String.eqb_eq in E. now subst.
  - rewrite IH. destruct (assoc k l); reflexivity.
Qed.

Lemma assoc_set_nodup k (v : A) l :
  List.NoDup (map fst l) -> List.NoDup (map fst (assoc_set k v l)).
Proof.
  intros Hnd. rewrite keys_assoc_set. destruct (assoc k l) eqn:E; [exact Hnd |].
  apply assoc_none_not_in in E.
  apply List.NoDup_rev in Hnd. rewrite <- (rev_involutive (map fst l ++ [k])).
  apply List.NoDup_rev. rewrite rev_app_distr. simpl. constructor; [| exact Hnd].
  intros Hin. apply in_rev in Hin. tauto.
Qed.

Lemma assoc_set_keeps_out k k' (v : A) l :
  k' <> k -> ~ List.In k' (map fst l) -> ~ List.In k' (map fst (assoc_set k v l)).
Proof.
  intros Hne Hnot. rewrite keys_assoc_set. destruct (assoc k l); [exact Hnot |].
  intros Hin. apply in_app_or in Hin as [Hin | [Heq | []]]; [tauto | congruence].
Qed.

Lemma assoc_set_length k (v : A) l :
  (length (assoc_set k v l) <= S (length l))%nat.
Proof.
  rewrite <- (length_map fst (assoc_set k v l)), keys_assoc_set.
  destruct (assoc k l); rewrite ?length_app, !length_map; simpl; lia.
Qed.

End MapFacts.

Section FifoCache.
Context `{Platform}.
Import StorageCache CacheState.

Lemma fifo_delete key c :
  cfg_strategy c = fifo ->
  entries (snd (delete key c)) = assoc_remove key (entries c)
  /\ memoryUsage (snd (delete key c))
     = memoryUsage c
       - match assoc key (entries c) with Some e => size e | None => 0 end
  /\ fst (delete key c)
     = match assoc key (entries c) with Some _ => true | None => false end
  /\ cfg_strategy (snd (delete key c)) = fifo.
Proof.
  intros Hs. unfold delete. rewrite Hs. unfold JsMap.get, JsMap.delete.
  destruct (assoc key (entries c)) eqn:E; simpl.
  - repeat split; auto.
  - repeat split; auto; [| lia].
    symmetry. apply assoc_remove_absent. now apply assoc_none_not_in.
Qed.

Lemma fifo_delete_all (ks : list string) c :
  cfg_strategy c = fifo ->
  cfg_strategy (fold_left (fun c key => snd (delete key c)) ks c) = fifo
  /\ entries (fold_left (fun c key => snd (delete key c)) ks c)
     = fold_left (fun l key => assoc_remove key l) ks (entries c).
Proof.
  revert c. induction ks as [| k ks IH]; intros c Hs; simpl; [tauto |].
  destruct (fifo_delete k c Hs) as (He & _ & _ & Hs').
  destruct (IH _ Hs') as (Hs'' & He'). rewrite He', He. tauto.
Qed.

Lemma evict_until_deletes required freedSpace l c :
  exists ks, evict_until required freedSpace l c
             = fold_left (fun c key => snd (delete key c)) ks c.
Proof.
  revert freedSpace c. induction l as [| e l IH]; intros freedSpace c; simpl.
  - now exists [].
  - destruct (required <=? freedSpace); [now exists [] |].
    destruct (IH (freedSpace + cand_size e) (snd (delete (cand_key e) c))) as (ks & ->).
    now exists (cand_key e :: ks).
Qed.

Lemma remove_all_keeps_shape {A : Type} (ks : list string) (l : list (string * A)) :
  (List.NoDup (map fst l) ->
   List.NoDup (map fst (fold_left (fun l key => assoc_remove key l) ks l)))
  /\ (forall k, ~ List.In k (map fst l) ->
        ~ List.In k (map fst (fold_left (fun l key => assoc_remove key l) ks l)))
  /\ (length (fold_left (fun l key => assoc_remove key l) ks l) <= length l)%nat.
Proof.
  revert l. induction ks as [| k ks IH]; intros l; simpl; [auto |].
  destruct (IH (assoc_remove k l)) as (H1 & H2 & H3). repeat split.
  - intros Hnd. apply H1. now apply assoc_remove_nodup.
  - intros k' Hnot. apply H2. now apply assoc_remove_keeps_out.
  - pose proof (assoc_remove_shorter k l). lia.
Qed.

(** What [enforceLimit] leaves of a cache that is within its capacity:
    room for one more entry. *)
Lemma fifo_enforceLimit_makes_room required c :
  cfg_strategy c = fifo ->
  1 <= cfg_maxSize c ->
  within_capacity c ->
  distinct_keys (enforceLimit required c)
  /\ ~ List.In "" (JsMap.keys (entries (enforceLimit required c)))
  /\ JsMap.size (entries (enforceLimit required c)) <= cfg_maxSize c - 1.
Proof.
  intros Hs Hmax (Hnd & Hne & Hsize). unfold enforceLimit. rewrite Hs.
  set (c1 := if cfg_maxSize c <=? JsMap.size (entries c) then evictFIFO c else c).
  assert (H1 : cfg_strategy c1 = fifo
               /\ distinct_keys c1
               /\ ~ List.In "" (JsMap.keys (entries c1))
               /\ JsMap.size (entries c1) <= cfg_maxSize c - 1).
  { subst c1. destruct (cfg_maxSize c <=? JsMap.size (entries c)) eqn:Hfull.
    - apply Z.leb_le in Hfull. unfold evictFIFO, JsMap.keys, JsMap.size in *.
      unfold distinct_keys, JsMap.keys in *.
      destruct (entries c) as [| [k0 e0] rest] eqn:He; simpl in *; [lia |].
      destruct (String.eqb k0 "") eqn:Hk0.
      + apply String.eqb_eq in Hk0. subst. tauto.
      + destruct (fifo_delete k0 c Hs) as (Hent & _ & _ & Hs').
        rewrite Hent, He. simpl. rewrite String.eqb_refl.
        inversion Hnd as [| ? ? Hnot Hnd']; subst.
        rewrite (assoc_remove_absent k0 rest Hnot).
        repeat split; auto. lia.
    - apply Z.leb_gt in Hfull. repeat split; auto. lia. }
  destruct H1 as (Hs1 & Hnd1 & Hne1 & Hsize1).
  assert (Hkeep : same_config c c1).
  { subst c1. destruct (cfg_maxSize c <=? JsMap.size (entries c));
      [| apply same_config_refl].
    unfold evictFIFO. destruct (JsMap.keys (entries c)) as [| k ks];
      [apply same_config_refl |].
    destruct (String.eqb k ""); [apply same_config_refl | apply delete_keeps]. }
  destruct (cfg_maxMemory c1 <? memoryUsage c1 + required); [| tauto].
  unfold evictByMemory.
  destruct (evict_until_deletes required 0 (sort_by_score (candidates c1)) c1) as (ks & ->).
  destruct (fifo_delete_all ks c1 Hs1) as (_ & He).
  destruct (remove_all_keeps_shape ks (entries c1)) as (K1 & K2 & K3).
  unfold distinct_keys, JsMap.keys, JsMap.size in *. rewrite He.
  split; [auto | split; [auto | lia]].
Qed.

Lemma fifo_set_entries now key v ttl c :
  cfg_strategy c = fifo ->
  entries (set now key v ttl c)
  = JsMap.set key (entry_of now v ttl c)
      (entries (enforceLimit (blob_size v) (bump 0 0 0 1 0 c)))
  /\ cfg_strategy (set now key v ttl c) = fifo
  /\ cfg_maxSize (set now key v ttl c) = cfg_maxSize c.
Proof.
  intros Hs. unfold set. simpl. rewrite Hs.
  destruct (enforceLimit_keeps (blob_size v) (bump 0 0 0 1 0 c)) as (_ & K1 & K2 & _).
  simpl in *. repeat split; auto. congruence.
Qed.

(** X9.  A first-in-first-out cache never holds more than [maxSize]
    entries, as long as no entry is stored under the empty key (which
    [evictFIFO] would refuse to evict): every operation keeps a cache
    within its capacity. *)
Theorem fifo_cache_stays_within_its_capacity
  (now : Z) (key : string) (v : value) (ttl : option Z) (c : t) :
  cfg_strategy c = fifo ->
  1 <= cfg_maxSize c ->
  key <> "" ->
  within_capacity c ->
  within_capacity (set now key v ttl c)
  /\ within_capacity (snd (get now key c))
  /\ within_capacity (snd (delete key c))
  /\ within_capacity (snd (prune now c))
  /\ within_capacity (clear c).
Proof.
  intros Hs Hmax Hkey Hcap. pose proof Hcap as (Hnd & Hne & Hsize).
  split; [| split; [| split; [| split]]].
  - destruct (fifo_set_entries now key v ttl c Hs) as (He & Hs' & Hm).
    assert (Hcap0 : within_capacity (bump 0 0 0 1 0 c)) by exact Hcap.
    destruct (fifo_enforceLimit_makes_room (blob_size v) (bump 0 0 0 1 0 c) Hs Hmax Hcap0)
      as (R1 & R2 & R3).
    unfold within_capacity, distinct_keys, JsMap.keys, JsMap.size, JsMap.set in *.
    rewrite He, Hm. simpl in R3. repeat split.
    + now apply assoc_set_nodup.
    + apply assoc_set_keeps_out; [congruence | exact R2].
    + pose proof (assoc_set_length key (entry_of now v ttl c)
                    (entries (enforceLimit (blob_size v) (bump 0 0 0 1 0 c)))).
      lia.
  - unfold get. simpl. rewrite Hs. unfold JsMap.get.
    destruct (assoc key (entries c)) as [e |] eqn:E; [| exact Hcap].
    destruct (isExpired now e); [exact Hcap |].
    unfold within_capacity, distinct_keys, JsMap.keys, JsMap.size, JsMap.set in *.
    simpl. rewrite keys_assoc_set, E.
    rewrite <- (length_map fst (assoc_set key _ _)), keys_assoc_set, E, length_map.
    tauto.
  - destruct (fifo_delete key c Hs) as (He & _ & _ & _).
    destruct (delete_keeps key c) as (_ & _ & Hm & _).
    unfold within_capacity, distinct_keys, JsMap.keys, JsMap.size in *.
    rewrite He, Hm. repeat split.
    + now apply assoc_remove_nodup.
    + now apply assoc_remove_keeps_out.
    + pose proof (assoc_remove_shorter key (entries c)). lia.
  - unfold prune. rewrite Hs. simpl.
    set (ks := map fst (filter (fun ke => isExpired now (snd ke)) (entries c))).
    destruct (fifo_delete_all ks c Hs) as (_ & He).
    destruct (delete_all_keeps ks c) as (_ & _ & Hm & _).
    destruct (remove_all_keeps_shape ks (entries c)) as (K1 & K2 & K3).
    unfold within_capacity, distinct_keys, JsMap.keys, JsMap.size in *.
    rewrite He, Hm. repeat split; auto. lia.
  - unfold clear. rewrite Hs.
    unfold within_capacity, distinct_keys, JsMap.keys, JsMap.size. simpl.
    repeat split; [constructor | tauto | lia].
Qed.

(** X10.  When a first-in-first-out cache is full, [set] evicts the entry
    inserted first, whatever key is being set: the new entry replaces the
    entry of its key in what is left, or is appended.  (Setting a key that
    the full cache already holds evicts the oldest entry all the same.) *)
Theorem full_fifo_cache_evicts_the_first_inserted_entry
  (now : Z) (key : string) (v : value) (ttl : option Z) (c : t)
  (first : string) (e : CacheEntry) (rest : JsMap.t CacheEntry) :
  cfg_strategy c = fifo ->
  entries c = (first, e) :: rest ->
  ~ List.In first (JsMap.keys rest) ->
  first <> "" ->
  cfg_maxSize c <= JsMap.size (entries c) ->
  memoryUsage c - size e + blob_size v <= cfg_maxMemory c ->
  entries (set now key v ttl c) = JsMap.set key (entry_of now v ttl c) rest.
Proof.
  intros Hs He Hfresh Hfirst Hfull Hmem.
  destruct (fifo_set_entries now key v ttl c Hs) as (-> & _ & _).
  f_equal. unfold enforceLimit. simpl. rewrite Hs.
  apply Z.leb_le in Hfull. rewrite Hfull.
  unfold evictFIFO, JsMap.keys. simpl. rewrite He. simpl.
  apply String.eqb_neq in Hfirst. rewrite Hfirst.
  assert (Hs0 : cfg_strategy (bump 0 0 0 1 0 c) = fifo) by exact Hs.
  destruct (fifo_delete first (bump 0 0 0 1 0 c) Hs0) as (Hent & Hm & _ & _).
  destruct (delete_keeps first (bump 0 0 0 1 0 c)) as (_ & _ & _ & Hmax & _).
  simpl in Hent, Hm, Hmax. rewrite He in Hent, Hm. simpl in Hent, Hm.
  rewrite String.eqb_refl in Hent, Hm.
  rewrite (assoc_remove_absent first rest Hfresh) in Hent.
  rewrite Hmax, Hm.
  assert (Hfits : (cfg_maxMemory c <? memoryUsage c + 0 - size e + blob_size v) = false)
    by (apply Z.ltb_ge; lia).
  rewrite Hfits. exact Hent.
Qed.

(** X11.  In a first-in-first-out cache a value that was set is what [get]
    returns for its key until the entry's deadline has passed, whatever
    the [set] had to evict; after the deadline the read is a miss. *)
Theorem fifo_cache_get_after_set
  (now now' : Z) (key : string) (v : value) (ttl : option Z) (c : t) :
  cfg_strategy c = fifo ->
  fst (get now' key (set now key v ttl c))
  = match entry_expiry now ttl c with
    | Some deadline =>
        if negb (deadline =? 0) && (deadline <? now') then VUndefined else v
    | None => v
    end.
Proof.
  intros Hs. destruct (fifo_set_entries now key v ttl c Hs) as (He & Hs' & _).
  revert He Hs'. generalize (set now key v ttl c). intros c' He Hs'.
  unfold get. simpl. rewrite Hs'. unfold JsMap.get. rewrite He.
  unfold JsMap.set. rewrite assoc_set_same.
  unfold isExpired, entry_of. simpl.
  destruct (entry_expiry now ttl c) as [deadline |]; [| reflexivity].
  destruct (negb (deadline =? 0) && (deadline <? now')); reflexivity.
Qed.

Lemma remove_all_is_filter {A : Type} (ks : list string) (l : list (string * A)) :
  fold_left (fun l key => assoc_remove key l) ks l
  = List.filter (fun ke => negb (existsb (String.eqb (fst ke)) ks)) l.
Proof.
  revert l. induction ks as [| k ks IH]; intros l; simpl.
  - induction l as [| x l IHl]; simpl; [reflexivity | now rewrite <- IHl].
  - rewrite IH. induction l as [| [k' x] l IHl]; simpl; [reflexivity |].
    rewrite (String.eqb_sym k' k).
    destruct (String.eqb k k'); simpl; [exact IHl |].
    destruct (existsb (String.eqb k') ks); simpl; [exact IHl | now rewrite IHl].
Qed.

Lemma expired_keys_of_distinct now (l : list (string * CacheEntry)) :
  List.NoDup (map fst l) ->
  List.filter (fun ke => negb (existsb (String.eqb (fst ke))
                                 (map fst (filter (fun ke => isExpired now (snd ke)) l)))) l
  = filter (fun ke => negb (isExpired now (snd ke))) l.
Proof.
  intros Hnd.
  assert (Hgen : forall l0,
             (forall k x, List.In (k, x) l0 -> List.In (k, x) l) ->
             List.filter (fun ke => negb (existsb (String.eqb (fst ke))
                                            (map fst (filter (fun ke => isExpired now (snd ke)) l)))) l0
             = filter (fun ke => negb (isExpired now (snd ke))) l0).
  { induction l0 as [| [k x] l0 IH]; intros Hsub; [reflexivity |].
    rewrite filter_cons_bool. simpl.
    rewrite IH by (intros k' x' Hin; apply Hsub; now right).
    assert (Hiff : existsb (String.eqb k)
                     (map fst (filter (fun ke => isExpired now (snd ke)) l))
                   = isExpired now x).
    { destruct (isExpired now x) eqn:Hexp.
      - apply existsb_exists. exists k. split; [| apply String.eqb_refl].
        apply in_map_iff. exists (k, x). split; [reflexivity |].
        apply list_elem_of_In, list_elem_of_filter. simpl. rewrite Hexp.
        split; [exact I |]. apply list_elem_of_In, Hsub. now left.
      - apply not_true_is_false. intros Hex.
        apply existsb_exists in Hex as (k' & Hin & Heq).
        apply String.eqb_eq in Heq. subst k'.
        apply in_map_iff in Hin as ([k' x'] & Heq & Hin). simpl in Heq. subst k'.
        apply list_elem_of_In, list_elem_of_filter in Hin as [Hexp' Hin].
        simpl in Hexp'. apply list_elem_of_In in Hin.
        assert (Hx : x' = x).
        { apply (assoc_in_nodup k l x' Hnd) in Hin.
          assert (Hin2 : List.In (k, x) l) by (apply Hsub; now left).
          apply (assoc_in_nodup k l x Hnd) in Hin2. congruence. }
        subst x'. rewrite Hexp in Hexp'. exact Hexp'. }
    rewrite Hiff. destruct (isExpired now x); reflexivity. }
  apply Hgen. auto.
Qed.

Lemma isExpired_later now now' (e : CacheEntry) :
  now <= now' -> isExpired now e = true -> isExpired now' e = true.
Proof.
  unfold isExpired. destruct (expiresAt e) as [x |]; [| discriminate].
  intros Hle Hexp. apply andb_true_iff in Hexp as [Hnz Hlt].
  rewrite Hnz. simpl. apply Z.ltb_lt in Hlt. apply Z.ltb_lt. lia.
Qed.

Lemma assoc_cons {A : Type} (k k' : string) (x : A) (l : list (string * A)) :
  assoc k ((k', x) :: l) = if String.eqb k k' then Some x else assoc k l.
Proof. reflexivity. Qed.

Lemma assoc_filter_distinct (p : CacheEntry -> bool)
  (l : list (string * CacheEntry)) (k : string) :
  List.NoDup (map fst l) ->
  assoc k (filter (fun ke => p (snd ke)) l)
  = match assoc k l with
    | Some e => if p e then Some e else None
    | None => None
    end.
Proof.
  induction l as [| [k' x] l IH]; intros Hnd; [reflexivity |].
  inversion Hnd as [| ? ? Hnot Hnd']; subst.
  rewrite (filter_cons_bool (fun ke : string * CacheEntry => p (snd ke))).
  cbv beta. cbn [snd]. rewrite (assoc_cons k k' x l).
  destruct (String.eqb k k') eqn:E.
  - apply String.eqb_eq in E. subst k'.
    apply assoc_none_not_in in Hnot.
    destruct (p x).
    + rewrite assoc_cons, String.eqb_refl. reflexivity.
    + rewrite (IH Hnd'), Hnot. reflexivity.
  - destruct (p x); rewrite ?assoc_cons, ?E; apply (IH Hnd').
Qed.

(** X12.  [prune] removes from a first-in-first-out cache exactly the
    entries whose deadline has passed, keeps the others in their order,
    and returns how many it removed.  Readers cannot tell: at every later
    time [get] returns for every key what it would have returned without
    the pruning. *)
Theorem fifo_prune_removes_exactly_the_expired_entries
  (now now' : Z) (key : string) (c : t) :
  cfg_strategy c = fifo ->
  distinct_keys c ->
  now <= now' ->
  entries (snd (prune now c))
  = filter (fun ke => negb (isExpired now (snd ke))) (entries c)
  /\ fst (prune now c)
     = Z.of_nat (length (filter (fun ke => isExpired now (snd ke)) (entries c)))
  /\ fst (get now' key (snd (prune now c))) = fst (get now' key c).
Proof.
  intros Hs Hnd Hle.
  assert (Hent : entries (snd (prune now c))
                 = filter (fun ke => negb (isExpired now (snd ke))) (entries c)).
  { unfold prune. rewrite Hs. simpl.
    destruct (fifo_delete_all
                (map fst (filter (fun ke => isExpired now (snd ke)) (entries c))) c Hs)
      as (_ & ->).
    rewrite remove_all_is_filter. apply expired_keys_of_distinct. exact Hnd. }
  split; [exact Hent |]. split.
  - unfold prune. rewrite Hs. simpl. now rewrite length_map.
  - destruct (prune_keeps now c) as (_ & Hs' & _). rewrite Hs in Hs'.
    revert Hent Hs'. generalize (snd (prune now c)). intros c' Hent Hs'.
    unfold get. simpl. rewrite Hs', Hs. unfold JsMap.get. rewrite Hent.
    unfold JsMap.t.
    rewrite (assoc_filter_distinct (fun e => negb (isExpired now e)) (entries c) key Hnd).
    destruct (assoc key (entries c)) as [e |]; [| reflexivity].
    destruct (isExpired now e) eqn:Hexp; simpl.
    + rewrite (isExpired_later _ _ _ Hle Hexp). reflexivity.
    + destruct (isExpired now' e); reflexivity.
Qed.

Lemma held_after_remove (k : string) (l : JsMap.t CacheEntry) :
  Forall (fun ke => 0 <= size (snd ke)) l ->
  Forall (fun ke => 0 <= size (snd ke)) (assoc_remove k l)
  /\ fold_right (fun ke sum => size (snd ke) + sum) 0 (assoc_remove k l)
     <= fold_right (fun ke sum => size (snd ke) + sum) 0 l
        - match assoc k l with Some e => size e | None => 0 end.
Proof.
  induction l as [| [k' x] l IH]; intros Hall; simpl.
  - split; [constructor | lia].
  - inversion Hall as [| ? ? Hx Hl]; subst. simpl in Hx.
    destruct (IH Hl) as [IH1 IH2].
    destruct (String.eqb k k') eqn:E; simpl.
    + split; [exact IH1 |]. destruct (assoc k l) as [e |] eqn:Hk.
      * assert (0 <= size e).
        { apply assoc_some_in in Hk. rewrite Forall_forall in Hl.
          apply (Hl (k, e)). apply list_elem_of_In. exact Hk. }
        lia.
      * lia.
    + split; [constructor; assumption | lia].
Qed.

Lemma held_after_set (k : string) (e : CacheEntry) (l : JsMap.t CacheEntry) :
  0 <= size e ->
  Forall (fun ke => 0 <= size (snd ke)) l ->
  Forall (fun ke => 0 <= size (snd ke)) (assoc_set k e l)
  /\ fold_right (fun ke sum => size (snd ke) + sum) 0 (assoc_set k e l)
     <= fold_right (fun ke sum => size (snd ke) + sum) 0 l + size e.
Proof.
  intros He. induction l as [| [k' x] l IH]; intros Hall; simpl.
  - split; [repeat constructor; exact He | lia].
  - inversion Hall as [| ? ? Hx Hl]; subst. simpl in Hx.
    destruct (IH Hl) as [IH1 IH2].
    destruct (String.eqb k k'); simpl.
    + split; [constructor; assumption | lia].
    + split; [constructor; assumption | lia].
Qed.

Lemma fifo_delete_never_undercounts key c :
  cfg_strategy c = fifo -> never_undercounts c -> never_undercounts (snd (delete key c)).
Proof.
  intros Hs [Hall Hle]. destruct (fifo_delete key c Hs) as (He & Hm & _ & _).
  unfold never_undercounts, held_bytes in *. rewrite He, Hm.
  destruct (held_after_remove key (entries c) Hall) as [K1 K2]. split; [exact K1 | lia].
Qed.

Lemma fifo_delete_all_never_undercounts (ks : list string) c :
  cfg_strategy c = fifo -> never_undercounts c ->
  never_undercounts (fold_left (fun c key => snd (delete key c)) ks c).
Proof.
  revert c. induction ks as [| k ks IH]; intros c Hs Hinv; simpl; [exact Hinv |].
  apply IH.
  - now destruct (fifo_delete k c Hs) as (_ & _ & _ & Hs').
  - now apply fifo_delete_never_undercounts.
Qed.

Lemma fifo_enforceLimit_never_undercounts required c :
  cfg_strategy c = fifo -> never_undercounts c ->
  never_undercounts (enforceLimit required c)
  /\ cfg_strategy (enforceLimit required c) = fifo.
Proof.
  intros Hs Hinv. unfold enforceLimit. rewrite Hs.
  set (c1 := if cfg_maxSize c <=? JsMap.size (entries c) then evictFIFO c else c).
  assert (H1 : cfg_strategy c1 = fifo /\ never_undercounts c1).
  { subst c1. destruct (cfg_maxSize c <=? JsMap.size (entries c)); [| tauto].
    unfold evictFIFO. destruct (JsMap.keys (entries c)) as [| k ks]; [tauto |].
    destruct (String.eqb k ""); [tauto |]. split.
    - now destruct (fifo_delete k c Hs) as (_ & _ & _ & Hs').
    - now apply fifo_delete_never_undercounts. }
  destruct H1 as [Hs1 Hinv1].
  destruct (cfg_maxMemory c1 <? memoryUsage c1 + required); [| tauto].
  unfold evictByMemory.
  destruct (evict_until_deletes required 0 (sort_by_score (candidates c1)) c1) as (ks & ->).
  split.
  - now apply fifo_delete_all_never_undercounts.
  - now destruct (fifo_delete_all ks c1 Hs1).
Qed.

(** X13.  [memoryUsage] never undercounts a first-in-first-out cache: it
    is at least the bytes of the entries held, after every operation,
    provided no value has a negative size.  (It can overcount: a [set]
    over an existing key adds the new size without taking off the old.) *)
Theorem fifo_memoryUsage_never_undercounts
  (now : Z) (key : string) (v : value) (ttl : option Z) (c : t) :
  (forall x, 0 <= blob_size x) ->
  cfg_strategy c = fifo ->
  never_undercounts c ->
  never_undercounts (set now key v ttl c)
  /\ never_undercounts (snd (get now key c))
  /\ never_undercounts (snd (delete key c))
  /\ never_undercounts (snd (prune now c))
  /\ never_undercounts (clear c).
Proof.
  intros Hsize Hs Hinv. split; [| split; [| split; [| split]]].
  - assert (Hinv0 : never_undercounts (bump 0 0 0 1 0 c)).
    { destruct Hinv as [A B]. unfold never_undercounts, held_bytes in *. simpl.
      split; [exact A | lia]. }
    destruct (fifo_enforceLimit_never_undercounts (blob_size v) (bump 0 0 0 1 0 c) Hs Hinv0)
      as [[A B] Hs'].
    unfold set. simpl. rewrite Hs.
    unfold never_undercounts, held_bytes in *. simpl. unfold JsMap.set.
    match goal with
    | |- context [assoc_set key ?e ?l] =>
        destruct (held_after_set key e l (Hsize v) A) as [K1 K2]
    end.
    split; [exact K1 |]. simpl in K2. lia.
  - unfold get. simpl. rewrite Hs. unfold JsMap.get.
    destruct (assoc key (entries c)) as [e |] eqn:E.
    + destruct (isExpired now e).
      * destruct Hinv as [A B]. unfold never_undercounts, held_bytes in *. simpl.
        split; [exact A | lia].
      * destruct Hinv as [A B]. unfold never_undercounts, held_bytes in *. simpl.
        unfold JsMap.set.
        assert (He : 0 <= size e).
        { apply assoc_some_in in E. rewrite Forall_forall in A.
          apply (A (key, e)). apply list_elem_of_In. exact E. }
        assert (Hsame : forall l : JsMap.t CacheEntry,
                   assoc key l = Some e ->
                   Forall (fun ke => 0 <= size (snd ke)) l ->
                   Forall (fun ke => 0 <= size (snd ke)) (assoc_set key (touched now 0 e) l)
                   /\ fold_right (fun ke sum => size (snd ke) + sum) 0
                        (assoc_set key (touched now 0 e) l)
                      = fold_right (fun ke sum => size (snd ke) + sum) 0 l).
        { induction l as [| [k' x] l IHl]; [discriminate |]. simpl.
          intros Hk Hl. inversion Hl as [| ? ? Hx Hl']; subst.
          destruct (String.eqb key k') eqn:Ek.
          - injection Hk as ->. simpl. split; [constructor; assumption | reflexivity].
          - destruct (IHl Hk Hl') as [I1 I2]. simpl.
            split; [constructor; assumption | now rewrite I2]. }
        destruct (Hsame (entries c) E A) as [K1 K2].
        split; [exact K1 | lia].
    + destruct Hinv as [A B]. unfold never_undercounts, held_bytes in *. simpl.
      split; [exact A | lia].
  - now apply fifo_delete_never_undercounts.
  - unfold prune. rewrite Hs. simpl. now apply fifo_delete_all_never_undercounts.
  - unfold clear. rewrite Hs. unfold never_undercounts, held_bytes. simpl.
    split; [constructor | lia].
Qed.

(** X14.  Under the strategy ['ttl'] the cache stores nothing: [set] keeps
    no entry, so a [get] that follows is a miss, [has] answers [false] and
    [keys] is empty; yet every [set] adds the size of its value to
    [memoryUsage]. *)
Theorem ttl_strategy_cache_stores_nothing
  (now now' : Z) (key : string) (v : value) (ttl : option Z) (c : t) :
  cfg_strategy c = ttl_only ->
  let c' := set now key v ttl c in
  fst (get now' key c') = VUndefined
  /\ fst (has now' key c') = false
  /\ keys c' = []
  /\ entries c' = entries c
  /\ memoryUsage c' = memoryUsage c + blob_size v.
Proof.
  intros Hs. cbv zeta.
  assert (Hset : set now key v ttl c
                 = with_frequencyMap (insert key 1)
                     (bump 0 0 0 0 (blob_size v) (bump 0 0 0 1 0 c))).
  { unfold set. simpl. rewrite Hs. unfold enforceLimit. simpl. rewrite Hs.
    unfold evictByMemory, candidates. simpl. rewrite Hs. simpl.
    destruct (cfg_maxMemory c <? memoryUsage c + 0 + blob_size v); reflexivity. }
  rewrite Hset. unfold get, has, keys. simpl. rewrite Hs. simpl.
  repeat split. lia.
Qed.

End FifoCache.

(* ===================================================================== *)
(** * The orchestrator: listing, membership, clearing *)
(* ===================================================================== *)

Section Listing.
Context `{Platform}.
Import AdvancedStorage.





Lemma cache_get_after_clear now key (c : StorageCache.t) :
  fst (StorageCache.get now key (StorageCache.clear c)) = VUndefined.
Proof.
  unfold StorageCache.get, StorageCache.clear.
  destruct (StorageCache.cfg_strategy c) eqn:Hs; simpl; rewrite Hs; reflexivity.
Qed.

Lemma adapter_size_of_empty (a : MemoryAdapter.t) :
  MemoryAdapter.store a = ∅ -> MemoryAdapter.size a = 0.
Proof. unfold MemoryAdapter.size. intros ->. apply map_fold_empty. Qed.

(** X16.  [clear] always succeeds and leaves nothing behind: the backend
    and the version counters are empty, [keys] lists nothing, the size is
    zero, and [get] returns [null] for every key at every later time; one
    change event for the key ["*"] is emitted. *)
Theorem clear_empties_the_storage (now : Z) (s : t) :
  let (outcome, s1) := clear now s in
  outcome = Ok tt
  /\ MemoryAdapter.store (adapter s1) = ∅
  /\ versionCounter s1 = ∅
  /\ keys s1 = []
  /\ size s1 = 0
  /\ emitted s1
     = emitted s ++ [change "*" SyncCore.clear_change VUndefined VUndefined now]
  /\ (forall now' key,
         MemoryAdapter.validateKey (getInternalKey s key) = Ok tt ->
         fst (get now' key s1) = Ok VNull).
Proof.
  destruct (clear now s) as [outcome s1] eqn:Hclear.
  unfold clear, on_error, bind, on_adapter, MemoryAdapter.clear, modify,
    emit_change, queue_sync in Hclear.
  simpl in Hclear. injection Hclear as <- <-. simpl.
  split; [reflexivity |]. split; [reflexivity |]. split; [reflexivity |].
  split.
  { unfold keys, MemoryAdapter.keys. simpl. rewrite map_to_list_empty. reflexivity. }
  split.
  { unfold size. apply adapter_size_of_empty. reflexivity. }
  split; [reflexivity |].
  intros now' key Hvalid. apply get_of_absent_key.
  - exact Hvalid.
  - reflexivity.
  - simpl. intros c Hc. destruct (cache s) as [c0 |]; [| discriminate].
    injection Hc as <-. apply cache_get_after_clear.
Qed.

Lemma cache_has_after_delete now key (c : StorageCache.t) :
  fst (StorageCache.has now key (snd (StorageCache.delete key c))) = false.
Proof.
  unfold StorageCache.has, StorageCache.delete.
  destruct (StorageCache.cfg_strategy c) eqn:Hs; simpl.
  - rewrite Hs. unfold LruCache.has_renewing. simpl.
    rewrite assoc_remove_same. reflexivity.
  - unfold JsMap.get. destruct (assoc key (StorageCache.entries c)) eqn:E; simpl;
      rewrite Hs; unfold JsMap.get, JsMap.delete; simpl.
    + rewrite assoc_remove_same. reflexivity.
    + rewrite E. reflexivity.
  - unfold JsMap.get. destruct (assoc key (StorageCache.entries c)) eqn:E; simpl;
      rewrite Hs; unfold JsMap.get, JsMap.delete; simpl.
    + rewrite assoc_remove_same. reflexivity.
    + rewrite E. reflexivity.
  - rewrite Hs. reflexivity.
Qed.

Lemma delete_ok now key s s1 :
  delete now key s = (Ok tt, s1) ->
  MemoryAdapter.validateKey (getInternalKey s key) = Ok tt
  /\ MemoryAdapter.store (adapter s1) !! getInternalKey s key = None
  /\ cache s1 = (fun c => snd (StorageCache.delete key c)) <$> cache s
  /\ config s1 = config s.
Proof.
  intros Hdel. apply on_error_ok in Hdel.
  split_bind Hdel s0 sA H1. apply self_ok in H1 as [-> ->].
  split_bind Hdel cur s2 H2.
  split_bind Hdel u3 s3 H3.
  split_bind Hdel u4 s4 H4. apply modify_ok in H4.
  split_bind Hdel u5 s5 H5.
  split_bind Hdel u6 s6 H6. apply modify_ok in H6.
  apply modify_ok in Hdel.
  rewrite on_adapter_unfold in H2. injection H2 as H2r H2s.
  rewrite on_adapter_unfold, adapter_delete_unfold in H3.
  destruct (MemoryAdapter.validateKey (getInternalKey s key)) as [[] | e] eqn:Hvalid;
    [| discriminate].
  injection H3 as _ H3s.
  assert (H5' : only_adapter_changed s4 s5
                /\ (forall k, MemoryAdapter.store (adapter s5) !! k = None
                           \/ MemoryAdapter.store (adapter s5) !! k
                              = MemoryAdapter.store (adapter s4) !! k)).
  { unfold when_ in H5. destruct (versioning_enabled (config s)).
    - destruct (deleteVersions_spec key s4) as (Hf & Hsh & _).
      rewrite H5 in Hf, Hsh. simpl in Hf, Hsh. tauto.
    - injection H5 as _ <-. split; [apply only_adapter_changed_refl | now right]. }
  destruct H5' as (Hframe & Hshrink).
  split; [reflexivity |]. split; [| split].
  - assert (Hadapter : adapter s1 = adapter s5) by (subst s1 s6; reflexivity).
    rewrite Hadapter. destruct (Hshrink (getInternalKey s key)) as [Hn | He];
      [exact Hn |].
    rewrite He. subst s4 s3. simpl. apply lookup_delete_eq.
  - subst s1 s6. simpl. rewrite Hframe. simpl. subst s4 s3 s2. reflexivity.
  - subst s1 s6. simpl. rewrite Hframe. simpl. subst s4 s3 s2. reflexivity.
Qed.

Lemma adapter_has_unfold now key a :
  MemoryAdapter.has now key a
  = match MemoryAdapter.get now key a with
    | (Ok v, a') => (Ok (MemoryAdapter.not_null v), a')
    | (Err e, a') => (Err e, a')
    end.
Proof.
  unfold MemoryAdapter.has, bind. destruct (MemoryAdapter.get now key a) as [[v | e] a'];
    reflexivity.
Qed.

(** X17.  Once [delete] has succeeded for a key, [has] answers [false] for
    it, at every later time. *)
Theorem has_is_false_after_delete (now now' : Z) (key : string) (s s1 : t) :
  delete now key s = (Ok tt, s1) ->
  fst (has now' key s1) = Ok false.
Proof.
  intros Hdel. destruct (delete_ok _ _ _ _ Hdel) as (Hvalid & Hgone & Hcache & Hcfg).
  assert (Hkey : getInternalKey s1 key = getInternalKey s key).
  { unfold getInternalKey. now rewrite Hcfg. }
  assert (Hadapter : forall s',
             adapter s' = adapter s1 ->
             fst (on_adapter (MemoryAdapter.has now' (getInternalKey s1 key)) s')
             = Ok false).
  { intros s' Hs'. rewrite on_adapter_unfold. simpl.
    rewrite adapter_has_unfold, adapter_get_unfold, Hs', Hkey, Hvalid, Hgone.
    reflexivity. }
  unfold has. rewrite Hcache. destruct (cache s) as [c |]; simpl.
  - pose proof (cache_has_after_delete now' key c) as Hmiss.
    destruct (StorageCache.has now' key (snd (StorageCache.delete key c)))
      as [cached c'].
    simpl in Hmiss. subst cached. apply Hadapter. reflexivity.
  - apply Hadapter. reflexivity.
Qed.




End Listing.

(* ===================================================================== *)
(** * The synchronisation manager: queueing, combining and finishing *)
(* ===================================================================== *)

Section SyncCycle.
Context `{Platform}.
Import SyncCore.


Lemma sum_synced_from (rs : list SyncResult) (start : Z) :
  fold_left (fun sum r => sum + synced r) rs start
  = start + fold_left (fun sum r => sum + synced r) rs 0.
Proof.
  revert start. induction rs as [| r rs IH]; intros start; simpl; [lia |].
  rewrite (IH (start + synced r)), (IH (0 + synced r)). lia.
Qed.

(** X20.  [combineResults] is additive over the providers: the combined
    result of two runs of results succeeds when both do, counts the sum of
    what they synced, and lists their conflicts and errors in order.  With
    no result at all it reports success with nothing synced. *)
Theorem combineResults_adds_up (rs1 rs2 : list SyncResult) :
  success (combineResults (rs1 ++ rs2))
  = success (combineResults rs1) && success (combineResults rs2)
  /\ synced (combineResults (rs1 ++ rs2))
     = synced (combineResults rs1) + synced (combineResults rs2)
  /\ conflicts (combineResults (rs1 ++ rs2))
     = conflicts (combineResults rs1) ++ conflicts (combineResults rs2)
  /\ errors (combineResults (rs1 ++ rs2))
     = errors (combineResults rs1) ++ errors (combineResults rs2)
  /\ combineResults []
     = {| success := true; synced := 0; conflicts := []; errors := [] |}.
Proof.
  unfold combineResults. simpl. repeat split.
  - apply forallb_app.
  - rewrite fold_left_app.
    rewrite (sum_synced_from rs2 (fold_left (fun sum r => sum + synced r) rs1 0)).
    reflexivity.
  - apply flat_map_app.
  - apply flat_map_app.
Qed.

Lemma with_sync_emits (events : list event) (s : AdvancedStorage.t) :
  AdvancedStorage.sync
    (fold_left (fun s e => AdvancedStorage.with_sync (emit e) s) events s)
  = (fun sm => fold_left (fun sm e => emit e sm) events sm) <$> AdvancedStorage.sync s.
Proof.
  revert s. induction events as [| e events IH]; intros s; simpl.
  - destruct (AdvancedStorage.sync s); reflexivity.
  - rewrite IH. simpl. destruct (AdvancedStorage.sync s); reflexivity.
Qed.

(** X21.  Under the policies ['local'] and ['manual'], resolving conflicts
    writes nothing.  ['local'] marks every conflict as kept locally and
    leaves the whole storage as it is; ['manual'] returns the conflicts
    unmarked, leaves backend, cache and version counters as they are, and
    emits one [conflict] event per conflict, in order. *)
Theorem local_and_manual_policies_write_nothing
  (now nonce : Z) (cs : list SyncConflict) (s : AdvancedStorage.t) :
  SyncManager.resolveConflicts now nonce local cs s
  = (map (fun c => SyncManager.resolved c kept_local (mergedValue c)) cs, s)
  /\ fst (SyncManager.resolveConflicts now nonce manual cs s) = cs
  /\ AdvancedStorage.adapter (snd (SyncManager.resolveConflicts now nonce manual cs s))
     = AdvancedStorage.adapter s
  /\ AdvancedStorage.cache (snd (SyncManager.resolveConflicts now nonce manual cs s))
     = AdvancedStorage.cache s
  /\ AdvancedStorage.versionCounter
       (snd (SyncManager.resolveConflicts now nonce manual cs s))
     = AdvancedStorage.versionCounter s
  /\ emitted <$> AdvancedStorage.sync
                   (snd (SyncManager.resolveConflicts now nonce manual cs s))
     = (fun sm => emitted sm ++ map conflict cs) <$> AdvancedStorage.sync s.
Proof.
  split.
  { revert s. induction cs as [| c cs IH]; intros s; simpl; [reflexivity |].
    rewrite IH. reflexivity. }
  assert (Hmanual : forall s0,
             SyncManager.resolveConflicts now nonce manual cs s0
             = (cs, fold_left (fun s e => AdvancedStorage.with_sync (emit e) s)
                      (map conflict cs) s0)).
  { induction cs as [| c cs IH]; intros s0; simpl; [reflexivity |].
    rewrite IH. reflexivity. }
  rewrite Hmanual. simpl. split; [reflexivity |].
  assert (Hframe : forall events s0,
             AdvancedStorage.adapter
               (fold_left (fun s e => AdvancedStorage.with_sync (emit e) s) events s0)
             = AdvancedStorage.adapter s0
             /\ AdvancedStorage.cache
                  (fold_left (fun s e => AdvancedStorage.with_sync (emit e) s) events s0)
                = AdvancedStorage.cache s0
             /\ AdvancedStorage.versionCounter
                  (fold_left (fun s e => AdvancedStorage.with_sync (emit e) s) events s0)
                = AdvancedStorage.versionCounter s0).
  { induction events as [| e events IH]; intros s0; simpl; [tauto |].
    destruct (IH (AdvancedStorage.with_sync (emit e) s0)) as (A & B & C).
    rewrite A, B, C. simpl. tauto. }
  destruct (Hframe (map conflict cs) s) as (A & B & C).
  split; [exact A |]. split; [exact B |]. split; [exact C |].
  rewrite with_sync_emits. destruct (AdvancedStorage.sync s) as [sm |]; [| reflexivity].
  simpl. f_equal. generalize (map conflict cs). intros events. revert sm.
  induction events as [| e events IH]; intros sm; simpl.
  - now rewrite app_nil_r.
  - rewrite IH. simpl. now rewrite <- app_assoc.
Qed.

(** X22.  Every conflict that [applyRemoteChanges] reports stems from a
    remote ['set']: it carries the key and the value of that change, a
    local value that is not [null], and no resolution yet.  Remote deletes
    and clears never conflict. *)
Theorem conflicts_stem_from_remote_sets_over_local_values
  (now nonce : Z) (changes : list SyncChange) (s : AdvancedStorage.t) :
  Forall (fun c =>
            exists change,
              List.In change changes
              /\ type change = set_change
              /\ conflict_key c = key change
              /\ remoteValue c = value_of change
              /\ remoteTimestamp c = timestamp change
              /\ localValue c <> VNull
              /\ resolution c = None)
         (fst (SyncManager.applyRemoteChanges now nonce changes s)).
Proof.
  revert s. induction changes as [| change rest IH]; intros s; simpl; [constructor |].
  destruct (SyncManager.applyRemoteChange now nonce change s) as [found s1] eqn:Hone.
  specialize (IH s1).
  destruct (SyncManager.applyRemoteChanges now nonce rest s1) as [more s2]. simpl in *.
  apply Forall_app. split.
  - unfold SyncManager.applyRemoteChange in Hone.
    destruct (AdvancedStorage.get now (key change) s) as [[localV | e] s0].
    + destruct (negb (SyncManager.is_null localV) && SyncManager.is_set (type change))
        eqn:Hc.
      * injection Hone as <- _. apply andb_true_iff in Hc as [Hnn Hset].
        constructor; [| constructor]. exists change. simpl.
        repeat split; auto.
        -- now destruct (type change).
        -- intros ->. discriminate.
      * injection Hone as <- _. constructor.
    + injection Hone as <- _. constructor.
  - eapply Forall_impl; [exact IH |]. simpl.
    intros c (ch & Hin & Hrest). exists ch. split; [now right | exact Hrest].
Qed.

Lemma resolveConflict_setup now nonce p c s :
  same_setup s (snd (SyncManager.resolveConflict now nonce p c s)).
Proof.
  unfold SyncManager.resolveConflict. destruct p.
  - apply same_setup_refl.
  - pose proof (preserves_set now nonce (conflict_key c) (remoteValue c)
                  AdvancedStorage.no_options s) as Hset.
    destruct (AdvancedStorage.set now nonce (conflict_key c) (remoteValue c)
                AdvancedStorage.no_options s) as [[[] | e] s']; exact Hset.
  - pose proof (preserves_set now nonce (conflict_key c)
                  (mergeValues (localValue c) (remoteValue c))
                  AdvancedStorage.no_options s) as Hset.
    destruct (AdvancedStorage.set now nonce (conflict_key c)
                (mergeValues (localValue c) (remoteValue c))
                AdvancedStorage.no_options s) as [[[] | e] s']; exact Hset.
  - apply same_setup_with_sync.
Qed.

Lemma resolveConflicts_setup now nonce p cs s :
  same_setup s (snd (SyncManager.resolveConflicts now nonce p cs s)).
Proof.
  revert s. induction cs as [| c cs IH]; intros s; simpl.
  - apply same_setup_refl.
  - pose proof (resolveConflict_setup now nonce p c s) as H1.
    destruct (SyncManager.resolveConflict now nonce p c s) as [c' s1].
    specialize (IH s1).
    destruct (SyncManager.resolveConflicts now nonce p cs s1) as [rest s2].
    simpl in *. eapply same_setup_trans; eassumption.
Qed.

Lemma syncWithProvider_setup now nonce provider s :
  same_setup s (snd (SyncManager.syncWithProvider now nonce provider s)).
Proof.
  unfold SyncManager.syncWithProvider, bind, gets, modify, lift_result, when_, ret.
  set (s1 := AdvancedStorage.with_sync
               (record_call (pushed (name provider) (SyncManager.pending_values s))) s).
  assert (H1 : same_setup s s1) by apply same_setup_with_sync.
  destruct (push provider (SyncManager.pending_values s)) as [pushResult | e];
    [| exact H1].
  set (s2 := AdvancedStorage.with_sync (record_call (pulled (name provider))) s1).
  assert (H2 : same_setup s s2)
    by (eapply same_setup_trans; [exact H1 | apply same_setup_with_sync]).
  destruct (pull provider) as [remoteChanges | e]; [| exact H2].
  pose proof (applyRemoteChanges_setup now nonce remoteChanges s2) as H3.
  destruct (SyncManager.applyRemoteChanges now nonce remoteChanges s2) as [found s3].
  simpl in H3.
  assert (H4 : same_setup s s3) by (eapply same_setup_trans; eassumption).
  destruct (success pushResult); simpl; [| exact H4].
  eapply same_setup_trans; [exact H4 | apply same_setup_with_sync].
Qed.

Lemma syncWithProviders_setup now nonce ps s :
  same_setup s (snd (SyncManager.syncWithProviders now nonce ps s)).
Proof.
  revert s. induction ps as [| provider ps IH]; intros s; simpl.
  - apply same_setup_refl.
  - pose proof (syncWithProvider_setup now nonce provider s) as H1.
    destruct (SyncManager.syncWithProvider now nonce provider s) as [[r | e] s1];
      simpl in H1; specialize (IH s1);
      destruct (SyncManager.syncWithProviders now nonce ps s1) as [rs s2];
      simpl in *; eapply same_setup_trans; eassumption.
Qed.

Lemma cycle_end now (report : SyncResult) (s : AdvancedStorage.t) :
  is_Some (AdvancedStorage.sync s) ->
  exists sm',
    AdvancedStorage.sync
      (AdvancedStorage.with_sync
         (fun sm => sync_end (emit (sync_complete report) (with_lastSyncTime now sm))) s)
    = Some sm'
    /\ syncing sm' = false
    /\ lastSyncTime sm' = Some now
    /\ last (emitted sm') = Some (sync_complete report).
Proof.
  intros [sm Hsm]. simpl. rewrite Hsm. simpl. eexists. split; [reflexivity |].
  simpl. split; [reflexivity |]. split; [reflexivity |]. apply last_snoc.
Qed.

(** X23.  A cycle always releases its guard: when [sync] is called on an
    enabled, idle manager, then whatever the providers answer (results,
    failures, exceptions) and whatever the conflicts are, the manager ends
    with [syncing = false], with the time of the cycle as its last sync
    time, and with a [sync-complete] event as the last event emitted. *)
Theorem sync_cycle_always_releases_the_guard
  (now nonce : Z) (s : AdvancedStorage.t) (sm : t) :
  AdvancedStorage.sync s = Some sm ->
  syncing sm = false ->
  enabled sm = true ->
  exists sm' report,
    AdvancedStorage.sync (SyncManager.sync now nonce s) = Some sm'
    /\ syncing sm' = false
    /\ lastSyncTime sm' = Some now
    /\ last (emitted sm') = Some (sync_complete report).
Proof.
  intros Hsync Hidle Hon. unfold SyncManager.sync. rewrite Hsync.
  unfold sync_begin. rewrite Hidle, Hon. simpl.
  set (sm0 := emit sync_start (with_syncing true sm)).
  set (s0 := AdvancedStorage.with_sync (fun _ => sm0) s).
  assert (Hs0 : AdvancedStorage.sync s0 = Some sm0).
  { subst s0. simpl. rewrite Hsync. reflexivity. }
  unfold SyncManager.resume. rewrite Hs0.
  pose proof (syncWithProviders_setup now nonce (providers sm0) s0) as H1.
  destruct (SyncManager.syncWithProviders now nonce (providers sm0) s0) as [results s1].
  simpl in H1.
  assert (Hs1 : is_Some (AdvancedStorage.sync s1)).
  { destruct H1 as (_ & _ & _ & _ & _ & Ha). apply Ha. rewrite Hs0. eauto. }
  destruct (conflicts (combineResults results)) as [| c cs'].
  - match goal with
    | |- exists sm' report, AdvancedStorage.sync (AdvancedStorage.with_sync
                              (fun sm => sync_end (emit (sync_complete ?r) _)) _) = _ /\ _ =>
        destruct (cycle_end now r s1 Hs1) as (sm' & Hfinal); exists sm', r; exact Hfinal
    end.
  - pose proof (resolveConflicts_setup now nonce (conflictResolution sm0) (c :: cs') s1)
      as H2.
    destruct (SyncManager.resolveConflicts now nonce (conflictResolution sm0) (c :: cs') s1)
      as [settled s2].
    simpl in H2.
    assert (Hs2 : is_Some (AdvancedStorage.sync s2)).
    { destruct H2 as (_ & _ & _ & _ & _ & Hb). apply Hb. exact Hs1. }
    match goal with
    | |- exists sm' report, AdvancedStorage.sync (AdvancedStorage.with_sync
                              (fun sm => sync_end (emit (sync_complete ?r) _)) _) = _ /\ _ =>
        destruct (cycle_end now r s2 Hs2) as (sm' & Hfinal); exists sm', r; exact Hfinal
    end.
Qed.

End SyncCycle.

(* ===================================================================== *)
(** * The two codec services *)
(* ===================================================================== *)

Section Padding.
Import EncryptionService.

Lemma pkcs7Pad_shape (data : bytes) :
  let padding := 16 - Z.of_nat (length data) mod 16 in
  1 <= padding <= 16
  /\ pkcs7Pad data = data ++ repeat padding (Z.to_nat padding).
Proof.
  cbv zeta. pose proof (Z.mod_pos_bound (Z.of_nat (length data)) 16 ltac:(lia)) as Hmod.
  split; [lia |].
  unfold pkcs7Pad, fill, typed_set, zeros.
  set (padding := 16 - Z.of_nat (length data) mod 16) in *.
  rewrite Nat2Z.id, firstn_app, firstn_all, Nat.sub_diag, firstn_O, app_nil_r.
  f_equal. rewrite Z.mod_small by lia. f_equal.
  rewrite length_app, length_skipn, repeat_length. lia.
Qed.

Lemma pkcs7Pad_length (data : bytes) :
  length (pkcs7Pad data)
  = (length data + Z.to_nat (16 - Z.of_nat (length data) mod 16))%nat.
Proof.
  destruct (pkcs7Pad_shape data) as [_ Hshape]. cbv zeta in Hshape.
  rewrite Hshape, length_app, repeat_length. reflexivity.
Qed.

Lemma pkcs7Unpad_pkcs7Pad (data : bytes) : pkcs7Unpad (pkcs7Pad data) = data.
Proof.
  destruct (pkcs7Pad_shape data) as [Hrange Hshape]. cbv zeta in Hrange, Hshape.
  pose proof (pkcs7Pad_length data) as Hlen.
  set (padding := 16 - Z.of_nat (length data) mod 16) in *.
  unfold pkcs7Unpad.
  assert (Hlast : last (pkcs7Pad data) = Some padding).
  { rewrite Hshape. destruct (Z.to_nat padding) as [| n] eqn:Hn; [lia |].
    replace (S n) with (n + 1)%nat by lia.
    rewrite repeat_app, app_assoc. simpl. apply last_snoc. }
  rewrite Hlast. unfold slice_to. rewrite Hlen.
  replace (Z.of_nat (length data + Z.to_nat padding) - padding)
    with (Z.of_nat (length data)) by lia.
  assert (Hneg : (Z.of_nat (length data) <? 0) = false) by (apply Z.ltb_ge; lia).
  rewrite Hneg, Z.min_l by lia.
  rewrite Nat2Z.id, Hshape, firstn_app, firstn_all, Nat.sub_diag, firstn_O.
  apply app_nil_r.
Qed.

(** X24.  [pkcs7Unpad] undoes [pkcs7Pad] on every byte array; the padded
    array is longer than the data by 1 to 16 bytes, and its length is a
    multiple of the block size 16. *)
Theorem pkcs7Unpad_undoes_pkcs7Pad (data : bytes) :
  pkcs7Unpad (pkcs7Pad data) = data
  /\ Z.of_nat (length (pkcs7Pad data)) mod 16 = 0
  /\ (length data < length (pkcs7Pad data) <= length data + 16)%nat.
Proof.
  pose proof (Z.mod_pos_bound (Z.of_nat (length data)) 16 ltac:(lia)) as Hmod.
  split; [apply pkcs7Unpad_pkcs7Pad |]. rewrite pkcs7Pad_length. split; [| lia].
  rewrite Nat2Z.inj_add, Z2Nat.id by lia.
  pose proof (Z.div_mod (Z.of_nat (length data)) 16 ltac:(lia)) as Hdm.
  replace (Z.of_nat (length data) + (16 - Z.of_nat (length data) mod 16))
    with ((Z.of_nat (length data) / 16 + 1) * 16) by lia.
  apply Z_mod_mult.
Qed.

End Padding.

Section Codecs.
Context `{Platform} `{Libraries}.
Import CodecLaws.

Lemma prop_first (k : string) (x : value) (rest : list (string * value)) :
  prop k (VObj ((k, x) :: rest)) = x.
Proof. simpl. now rewrite String.eqb_refl. Qed.

(** X25.  [decompress] undoes [compress]: for data whose JSON text parses
    back to it, what [compress] returns decompresses to the data, whether
    the data was below the threshold (and stored as text under the
    algorithm ['none']) or compressed, provided the decompressor of the
    configured algorithm inverts its compressor on that text and the
    base64 decoding inverts the encoding of the compressed bytes. *)
Theorem decompress_undoes_compress
  (data : value) (serialized : string) (c c' : CompressionService.t)
  (packed : value) :
  json_round_trips data serialized ->
  compressors_invert (CompressionService.cfg_level c) serialized ->
  (forall compressed,
      CompressionService.compress_with c serialized = Ok compressed ->
      base64_decode (base64_encode compressed) = Ok compressed) ->
  CompressionService.compress data c = (Ok packed, c') ->
  CompressionService.decompress packed = Ok data.
Proof.
  intros [Htext Hparse] (Hgzip & Hbrotli & Hstreams) Hbase64 Hcompress.
  unfold CompressionService.compress, bind, self in Hcompress.
  destruct (blob_size data <? CompressionService.cfg_threshold c).
  - rewrite Htext in Hcompress. injection Hcompress as <- _.
    unfold CompressionService.decompress, CompressionService.CompressedData. simpl.
    exact Hparse.
  - rewrite Htext in Hcompress. unfold lift_result in Hcompress.
    destruct (CompressionService.compress_with c serialized) as [compressed | e] eqn:Hwith;
      [| discriminate].
    unfold modify, ret in Hcompress. injection Hcompress as <- _.
    specialize (Hbase64 compressed eq_refl).
    unfold CompressionService.compress_with in Hwith.
    unfold CompressionService.decompress, CompressionService.CompressedData,
      CompressionService.decompress_with.
    destruct (CompressionService.cfg_algorithm c) eqn:Halg; simpl;
      rewrite ?Hbase64; simpl.
    + injection Hwith as <-. rewrite Hgzip. exact Hparse.
    + injection Hwith as <-. rewrite Hgzip. exact Hparse.
    + rewrite <- Hstreams. destruct compression_stream.
      * rewrite (Hbrotli compressed Hwith). exact Hparse.
      * injection Hwith as <-. rewrite Hgzip. exact Hparse.
    + discriminate.
Qed.


End Codecs.

(* ===================================================================== *)
(** * The registry of named storages *)
(* ===================================================================== *)

Section Registry.
Context `{Libraries}.
Variable constructing : option value -> result unit.
Variable closing : nat -> result unit.

Lemma create_unfold now name config m :
  StorageManager.create constructing now name config m
  = match JsMap.get name (StorageManager.storages m) with
    | Some existing =>
        if StorageManager.same_text
             (json_stringify (StorageManager.config existing))
             (StorageManager.stringify_argument config)
        then (Ok (StorageManager.storage existing), m)
        else (Err (StorageError "STORAGE_EXISTS"), m)
    | None =>
        match constructing config with
        | Err e => (Err e, m)
        | Ok _ =>
            (Ok (StorageManager.allocated m),
             {| StorageManager.storages :=
                  JsMap.set name
                    {| StorageManager.name := name;
                       StorageManager.storage := StorageManager.allocated m;
                       StorageManager.config := StorageManager.config_or_empty config;
                       StorageManager.created := now |}
                    (StorageManager.storages m);
                StorageManager.defaultStorage :=
                  match StorageManager.defaultStorage m with
                  | Some d => Some d
                  | None => Some (StorageManager.allocated m)
                  end;
                StorageManager.allocated := S (StorageManager.allocated m) |})
        end
    end.
Proof.
  unfold StorageManager.create, bind, self, lift_result, modify, ret, throw.
  destruct (JsMap.get name (StorageManager.storages m)) as [existing |].
  - destruct (StorageManager.same_text _ _); reflexivity.
  - destruct (constructing config); reflexivity.
Qed.

Lemma listed_of_assoc k (l : list (string * StorageManager.StorageInstance)) i :
  assoc k l = Some i -> List.In i (map snd l).
Proof.
  intros Hi. apply assoc_some_in in Hi.
  change i with (snd (k, i)). now apply in_map.
Qed.

Lemma listed_after_set k i (l : list (string * StorageManager.StorageInstance)) j :
  assoc k l = None -> List.In j (map snd l) -> List.In j (map snd (assoc_set k i l)).
Proof.
  intros Hk Hj. rewrite (assoc_set_fresh k i l Hk), map_app.
  apply in_or_app. now left.
Qed.

Lemma listed_after_remove k (l : list (string * StorageManager.StorageInstance)) r j :
  List.NoDup (map fst l) -> assoc k l = Some r -> j <> r ->
  List.In j (map snd l) -> List.In j (map snd (assoc_remove k l)).
Proof.
  intros Hnd Hr Hne Hj. apply in_map_iff in Hj. destruct Hj as ([k' j'] & Hj' & Hin).
  simpl in Hj'. subst j'.
  pose proof (assoc_in_nodup k' l j Hnd Hin) as Hk'.
  destruct (String.eqb k' k) eqn:E.
  - apply String.eqb_eq in E. subst k'. congruence.
  - apply String.eqb_neq in E.
    apply (listed_of_assoc k'). now rewrite assoc_remove_other.
Qed.

Lemma create_manager_coherent : StorageManager.coherent StorageManager.create_manager.
Proof.
  unfold StorageManager.coherent. simpl.
  split; [constructor |]. split; [tauto | discriminate].
Qed.

(** What [create] leaves behind is coherent whenever what it found was. *)
Lemma create_coherent now name config m :
  StorageManager.coherent m ->
  StorageManager.coherent (snd (StorageManager.create constructing now name config m)).
Proof.
  intros Hm. rewrite create_unfold.
  destruct (JsMap.get name (StorageManager.storages m)) as [existing |] eqn:E.
  - destruct (StorageManager.same_text _ _); exact Hm.
  - destruct (constructing config); [| exact Hm].
    destruct Hm as (Hnd & Hnone & Hdef). unfold JsMap.get in E.
    unfold StorageManager.coherent, StorageManager.list, JsMap.keys, JsMap.set. simpl.
    split; [now apply assoc_set_nodup |]. split.
    + rewrite (assoc_set_fresh _ _ _ E). split.
      * destruct (StorageManager.defaultStorage m); discriminate.
      * intros Habs. now apply app_eq_nil in Habs as [_ Habs].
    + intros d Hd. destruct (StorageManager.defaultStorage m) as [d' |] eqn:D.
      * injection Hd as <-. destruct (Hdef d' eq_refl) as (i & Hi & Hs).
        exists i. split; [| exact Hs]. now apply listed_after_set.
      * injection Hd as <-. eexists. split.
        -- apply (listed_of_assoc name). apply assoc_set_same.
        -- reflexivity.
Qed.

(** [create] answers with the storage of an instance of the registry. *)
Lemma create_returns_listed now name config m d m' :
  StorageManager.create constructing now name config m = (Ok d, m') ->
  exists i, List.In i (StorageManager.list m') /\ StorageManager.storage i = d.
Proof.
  rewrite create_unfold.
  destruct (JsMap.get name (StorageManager.storages m)) as [existing |] eqn:E.
  - destruct (StorageManager.same_text _ _); intros [= <- <-].
    exists existing. split; [| reflexivity]. now apply (listed_of_assoc name).
  - destruct (constructing config); intros [= <- <-].
    eexists. split.
    + apply (listed_of_assoc name). apply assoc_set_same.
    + reflexivity.
Qed.

Lemma getDefault_unfold now m :
  StorageManager.getDefault constructing now m
  = match StorageManager.defaultStorage m with
    | Some d => (Ok d, m)
    | None =>
        match StorageManager.create constructing now "default" None m with
        | (Ok d, m') =>
            (Ok d, {| StorageManager.storages := StorageManager.storages m';
                      StorageManager.defaultStorage := Some d;
                      StorageManager.allocated := StorageManager.allocated m' |})
        | (Err e, m') => (Err e, m')
        end
    end.
Proof.
  unfold StorageManager.getDefault, bind, self, ret, modify.
  destruct (StorageManager.defaultStorage m); [reflexivity |].
  destruct (StorageManager.create constructing now "default" None m) as [[d | e] m'];
    reflexivity.
Qed.

Lemma getDefault_coherent now m :
  StorageManager.coherent m ->
  StorageManager.coherent (snd (StorageManager.getDefault constructing now m)).
Proof.
  intros Hm. rewrite getDefault_unfold.
  destruct (StorageManager.defaultStorage m); [exact Hm |].
  pose proof (create_coherent now "default" None m Hm) as Hc.
  pose proof (create_returns_listed now "default" None m) as Hl.
  destruct (StorageManager.create constructing now "default" None m) as [[d | e] m'];
    [| exact Hc].
  destruct (Hl d m' eq_refl) as (i & Hi & Hs).
  destruct Hc as (Hnd & Hnone & Hdef). simpl in *.
  unfold StorageManager.coherent, StorageManager.list in *. simpl.
  split; [exact Hnd |]. split.
  - split; [discriminate |]. intros Habs. rewrite Habs in Hi. destruct Hi.
  - intros d' [= <-]. now exists i.
Qed.

Lemma remove_coherent name m :
  StorageManager.coherent m ->
  StorageManager.coherent (snd (StorageManager.remove closing name m)).
Proof.
  intros Hm. unfold StorageManager.remove, bind, self, lift_result, modify, throw.
  destruct (JsMap.get name (StorageManager.storages m)) as [r |] eqn:E; [| exact Hm].
  destruct (closing (StorageManager.storage r)); [| exact Hm].
  destruct Hm as (Hnd & Hnone & Hdef). unfold JsMap.get in E.
  unfold StorageManager.coherent, StorageManager.list, JsMap.keys, JsMap.delete in *.
  simpl. split; [now apply assoc_remove_nodup |].
  destruct (StorageManager.defaultStorage m) as [d |] eqn:D.
  - destruct (Nat.eqb d (StorageManager.storage r)) eqn:Q.
    + destruct (assoc_remove name (StorageManager.storages m)) as [| [k first] rest].
      * split; [tauto |]. discriminate.
      * split; [split; discriminate |].
        intros d' [= <-]. exists first. split; [now left | reflexivity].
    + apply Nat.eqb_neq in Q. destruct (Hdef d eq_refl) as (i & Hi & Hs).
      assert (Hne : i <> r) by (intros ->; congruence).
      pose proof (listed_after_remove name _ r i Hnd E Hne Hi) as Hkept.
      split.
      * split; [discriminate |]. intros Habs. rewrite Habs in Hkept. destruct Hkept.
      * intros d' [= <-]. now exists i.
  - apply listed_of_assoc in E. rewrite (proj1 Hnone eq_refl) in E. destruct E.
Qed.

Lemma clear_coherent m :
  StorageManager.coherent m ->
  StorageManager.coherent (snd (StorageManager.clear closing m)).
Proof.
  intros Hm. unfold StorageManager.clear, bind, self, lift_result, modify.
  destruct (StorageManager.close_all closing (StorageManager.list m)); [| exact Hm].
  unfold StorageManager.coherent. simpl.
  split; [constructor |]. split; [tauto | discriminate].
Qed.

Lemma setDefault_coherent name m :
  StorageManager.coherent m ->
  StorageManager.coherent (snd (StorageManager.setDefault name m)).
Proof.
  intros Hm. unfold StorageManager.setDefault, bind, self, modify, throw.
  destruct (JsMap.get name (StorageManager.storages m)) as [i |] eqn:E; [| exact Hm].
  destruct Hm as (Hnd & Hnone & Hdef). unfold JsMap.get in E.
  apply listed_of_assoc in E.
  unfold StorageManager.coherent, StorageManager.list in *. simpl.
  split; [exact Hnd |]. split.
  - split; [discriminate |]. intros Habs. rewrite Habs in E. destruct E.
  - intros d' [= <-]. now exists i.
Qed.

Lemma get_coherent now name m :
  StorageManager.coherent m ->
  StorageManager.coherent (snd (StorageManager.get constructing now name m)).
Proof.
  intros Hm. unfold StorageManager.get.
  destruct name as [[| a n] |]; try now apply getDefault_coherent.
  unfold bind, self, ret, throw.
  destruct (JsMap.get _ (StorageManager.storages m)); exact Hm.
Qed.

(** X28. The registry of [StorageManager] stays coherent: starting from a
    coherent registry (distinct names, a default storage exactly when
    there is an instance, and the default storage being the storage of
    an instance), each of [create], [get], [getDefault], [remove],
    [clear] and [setDefault] leaves a coherent registry behind, whether
    it returns or throws. *)
Theorem registry_stays_coherent (m : StorageManager.t) :
  StorageManager.coherent m ->
  (forall now name config,
     StorageManager.coherent
       (snd (StorageManager.create constructing now name config m)))
  /\ (forall now name,
        StorageManager.coherent (snd (StorageManager.get constructing now name m)))
  /\ (forall now,
        StorageManager.coherent (snd (StorageManager.getDefault constructing now m)))
  /\ (forall name,
        StorageManager.coherent (snd (StorageManager.remove closing name m)))
  /\ StorageManager.coherent (snd (StorageManager.clear closing m))
  /\ (forall name,
        StorageManager.coherent (snd (StorageManager.setDefault name m))).
Proof.
  intros Hm. repeat split_and.
  - intros. now apply create_coherent.
  - intros. now apply get_coherent.
  - intros. now apply getDefault_coherent.
  - intros. now apply remove_coherent.
  - now apply clear_coherent.
  - intros. now apply setDefault_coherent.
Qed.

(** X29. In a coherent registry [getDefault] (and [get] without a name)
    never throws, provided that constructing a storage without a
    configuration does not throw: it answers with the storage of an
    instance of the registry, and asking again gives the same storage
    and changes nothing. *)
Theorem getDefault_never_fails (now now' : Z) (m : StorageManager.t) :
  StorageManager.coherent m ->
  constructing None = Ok tt ->
  exists d m',
    StorageManager.getDefault constructing now m = (Ok d, m')
    /\ StorageManager.get constructing now None m = (Ok d, m')
    /\ (exists i, List.In i (StorageManager.list m') /\ StorageManager.storage i = d)
    /\ StorageManager.getDefault constructing now' m' = (Ok d, m').
Proof.
  intros Hm Hc. unfold StorageManager.get. rewrite getDefault_unfold.
  destruct (StorageManager.defaultStorage m) as [d |] eqn:D.
  - exists d, m. split; [reflexivity |]. split; [reflexivity |].
    split; [exact (proj2 (proj2 Hm) d D) |].
    rewrite getDefault_unfold, D. reflexivity.
  - pose proof (proj1 (proj1 (proj2 Hm)) D) as Hempty.
    rewrite create_unfold. unfold JsMap.get. rewrite Hempty. simpl. rewrite Hc.
    eexists. eexists. split; [reflexivity |]. split; [reflexivity |]. split.
    + eexists. split; [left; reflexivity | reflexivity].
    + reflexivity.
Qed.

(** X30. [create] is repeatable only with a configuration.  After
    [create(name, config)] registered a storage under a new name with a
    configuration object, the same call again returns that storage and
    changes nothing; after [create(name)] without a configuration, the
    same call again throws STORAGE_EXISTS, because the instance recorded
    [{}] while the argument is absent. *)
Theorem create_again (now now' : Z) (name : string) (config : option value)
  (m : StorageManager.t) (empty : string) :
  JsMap.get name (StorageManager.storages m) = None ->
  constructing config = Ok tt ->
  json_stringify (VObj []) = Some empty ->
  match config with Some c => truthy c = true | None => True end ->
  exists d m',
    StorageManager.create constructing now name config m = (Ok d, m')
    /\ StorageManager.create constructing now' name config m'
       = match config with
         | Some _ => (Ok d, m')
         | None => (Err (StorageError "STORAGE_EXISTS"), m')
         end.
Proof.
  intros Hnew Hc Hjson Hconfig.
  rewrite create_unfold, Hnew, Hc.
  eexists. eexists. split; [reflexivity |].
  rewrite create_unfold. unfold JsMap.get, JsMap.set. simpl.
  rewrite assoc_set_same. simpl.
  destruct config as [c |]; simpl.
  - rewrite Hconfig. destruct (json_stringify c) as [s |]; simpl.
    + rewrite String.eqb_refl. reflexivity.
    + reflexivity.
  - rewrite Hjson. reflexivity.
Qed.

End Registry.

(* ===================================================================== *)
(** * Examples on concrete storages *)
(* ===================================================================== *)

(** The closed examples run on the platform of [Demo]. *)
#[local] Existing Instance Demo.platform.

(** At a storage whose initial cycle is in flight, a second [sync()] changes
    nothing; and that storage's manager, one cycle in flight, is a state
    the scheduler reaches. *)
Lemma sync_in_progress_witness :
  SyncManager.sync 5 0 Scenario.just_started = Scenario.just_started
  /\ (1 <= 1)%nat.
Proof.
  split.
  - apply (proj1 sync_in_progress_makes_sync_a_no_op 5 0 Scenario.just_started
             (AdvancedStorage.started_sync Scenario.syncing_options));
      reflexivity.
  - apply (proj2 sync_in_progress_makes_sync_a_no_op
             {| Scheduler.manager := AdvancedStorage.started_sync Scenario.syncing_options;
                Scheduler.in_flight := 1 |}).
    eapply Scheduler.reach_step.
    + apply (Scheduler.reach_new
               {| SyncCore.enabled := true;
                  SyncCore.conflictResolution := SyncCore.merge;
                  SyncCore.providers := [Scenario.quiet_provider];
                  SyncCore.runtimeId := "";
                  SyncCore.pendingChanges := ∅;
                  SyncCore.syncing := false;
                  SyncCore.lastSyncTime := None;
                  SyncCore.listening := true;
                  SyncCore.emitted := [];
                  SyncCore.calls := [] |}).
      reflexivity.
    + apply Scheduler.step_call.
Defined.

(** C4, the array half. Under the merge policy the conflict between local
    [[1, 2]] and remote [[2, 3]] is resolved to the object
    [{"0": 1, "1": 2}], which is what the storage then holds for the key,
    and not to the array [[1, 2, 3]]. *)
Theorem merge_policy_turns_arrays_into_an_object :
  let (settled, s) :=
    SyncManager.resolveConflict 1000 0 SyncCore.merge Scenario.array_conflict Scenario.plain in
  SyncCore.resolution settled = Some SyncCore.merged
  /\ SyncCore.mergedValue settled = VObj [("0", VNum 1); ("1", VNum 2)]
  /\ fst (AdvancedStorage.get 1001 "list" s) = Ok (VObj [("0", VNum 1); ("1", VNum 2)])
  /\ deep_equal (SyncCore.mergedValue settled) (VArr [VNum 1; VNum 2; VNum 3]) = false.
Proof. vm_compute. repeat split; reflexivity. Qed.

(** A string under a key whose prefix admits numbers only: the write is
    rejected and nothing but the error event is left behind. *)
Lemma set_rejects_invalid_value_witness :
  let (outcome, s') :=
    AdvancedStorage.set 1000 0 "users:1" (VStr "x") AdvancedStorage.no_options
      Scenario.with_users_schema in
  outcome = Err ValidationError
  /\ AdvancedStorage.adapter s' = AdvancedStorage.adapter Scenario.with_users_schema
  /\ AdvancedStorage.cache s' = AdvancedStorage.cache Scenario.with_users_schema
  /\ AdvancedStorage.versionCounter s'
     = AdvancedStorage.versionCounter Scenario.with_users_schema
  /\ AdvancedStorage.sync s' = AdvancedStorage.sync Scenario.with_users_schema
  /\ AdvancedStorage.emitted s'
     = AdvancedStorage.emitted Scenario.with_users_schema
       ++ [AdvancedStorage.error_event "SET_ERROR" ValidationError].
Proof.
  apply (set_rejects_invalid_value_before_any_effect 1000 0 "users:1" (VStr "x")
           AdvancedStorage.no_options Scenario.with_users_schema
           Scenario.numbers_only); reflexivity.
Defined.

(** C3 as stated fails where the limit is not enforced: with a quota of
    zero bytes and [enforceLimit: false], a write of one byte is past the
    quota, and it succeeds and reaches the backend. *)
Lemma set_over_quota_succeeds_when_limit_is_not_enforced :
  let s := Scenario.no_room false in
  AdvancedStorage.quota_maxSize (AdvancedStorage.config s) * 1024 * 1024
    < AdvancedStorage.size s + AdvancedStorage.estimateSize (VNum 5)
  /\ fst (AdvancedStorage.set 1000 0 "k" (VNum 5) AdvancedStorage.no_options s) = Ok tt
  /\ MemoryAdapter.keys (AdvancedStorage.adapter
        (snd (AdvancedStorage.set 1000 0 "k" (VNum 5) AdvancedStorage.no_options s)))
     = ["default:k"].
Proof. vm_compute. repeat split; reflexivity. Qed.

(** With the same quota enforced, the same write is rejected, and the
    backend stays empty. *)
Lemma set_rejects_over_quota_witness :
  fst (AdvancedStorage.set 1000 0 "k" (VNum 5) AdvancedStorage.no_options
         (Scenario.no_room true)) = Err (QuotaExceededError 1 0)
  /\ AdvancedStorage.adapter
       (snd (AdvancedStorage.set 1000 0 "k" (VNum 5) AdvancedStorage.no_options
               (Scenario.no_room true)))
     = AdvancedStorage.adapter (Scenario.no_room true).
Proof.
  generalize (set_rejects_over_quota_before_any_effect (H := Demo.platform)
                1000 0 "k" (VNum 5)
                AdvancedStorage.no_options (Scenario.no_room true)
                eq_refl I ltac:(vm_compute; reflexivity)).
  destruct (AdvancedStorage.set 1000 0 "k" (VNum 5) AdvancedStorage.no_options
              (Scenario.no_room true)) as [outcome s'].
  intros (Houtcome & Hadapter & _). simpl. split; [| exact Hadapter].
  rewrite Houtcome. vm_compute. reflexivity.
Defined.



(** C10 at the failing input. The backend holds the bare number [0] for
    [counter]; [get] reports the key as absent. A bare [5] passes through. *)
Theorem get_drops_falsy_legacy_value :
  fst (AdvancedStorage.get 1000 "counter" (Scenario.holding_legacy (VNum 0))) = Ok VNull
  /\ AdvancedStorage.isStorageItem (VNum 0) = false
  /\ fst (AdvancedStorage.get 1000 "counter" (Scenario.holding_legacy (VNum 5)))
     = Ok (VNum 5).
Proof. vm_compute. repeat split; reflexivity. Qed.

(** C5 as stated fails where sizes differ. Of the two residents, [b] has
    the lower frequency per byte ([2 / 24] against [1 / 1]) and [a] the
    lower frequency; inserting [c] evicts [a] and keeps [b]. *)
Lemma frequency_cache_evicts_by_frequency_not_per_byte :
  JsMap.keys (StorageCache.entries Scenario.two_entries) = ["a"; "b"]
  /\ JsMap.size (StorageCache.entries Scenario.two_entries)
     = StorageCache.cfg_maxSize Scenario.two_entries
  /\ map (fun c => (StorageCache.cand_key c, StorageCache.score_num c,
                    StorageCache.score_den c))
         (StorageCache.sort_by_score (StorageCache.candidates Scenario.two_entries))
     = [("b", 2, 24); ("a", 1, 1)]
  /\ JsMap.keys (StorageCache.entries
        (StorageCache.set 1003 "c" (VNum 3) None Scenario.two_entries))
     = ["b"; "c"].
Proof. vm_compute. repeat split; reflexivity. Qed.

(** The same insertion, read through the theorem: one entry out, one in. *)
Lemma full_frequency_cache_witness :
  length (StorageCache.entries
            (StorageCache.set 1003 "c" (VNum 3) None Scenario.two_entries))
  = length (StorageCache.entries Scenario.two_entries).
Proof.
  apply (full_frequency_cache_evicts_first_least_frequent_entry (H := Demo.platform)
           1003 "c" (VNum 3) None Scenario.two_entries "a" 1).
  - reflexivity.
  - reflexivity.
  - vm_compute. repeat constructor; simpl; intuition discriminate.
  - reflexivity.
  - reflexivity.
  - discriminate.
  - intros e He. vm_compute in He. injection He as <-. vm_compute. discriminate.
Defined.

(** C7 as stated fails where the pull throws: the push has reported
    success, and the change to [a] is still pending afterwards. *)
Lemma pending_changes_kept_when_pull_throws :
  let s := Scenario.one_change_pending in
  let (outcome, s') :=
    SyncManager.syncWithProvider 2000 0 Scenario.offline_on_pull s in
  (SyncCore.success <$> (match SyncCore.push Scenario.offline_on_pull
                                 (SyncManager.pending_values s) with
                         | Ok r => Some r | Err _ => None end)) = Some true
  /\ outcome = Err (Foreign "offline")
  /\ map SyncCore.key (SyncManager.pending_values s) = ["a"]
  /\ map SyncCore.key (SyncManager.pending_values s') = ["a"].
Proof. vm_compute. repeat split; reflexivity. Qed.

(** With a provider that accepts the push and returns from the pull, the
    same pending change is cleared. *)
Lemma pending_changes_cleared_witness :
  pending (snd (SyncManager.syncWithProvider 2000 0 Scenario.quiet_provider
                  Scenario.one_change_pending)) = Some ∅.
Proof.
  generalize (pending_changes_cleared_after_successful_round_trip (H := Demo.platform)
                2000 0 Scenario.quiet_provider Scenario.one_change_pending
                (match AdvancedStorage.sync Scenario.one_change_pending with
                 | Some sm => sm
                 | None => AdvancedStorage.started_sync Scenario.syncing_options
                 end) eq_refl).
  destruct (SyncManager.syncWithProvider 2000 0 Scenario.quiet_provider
              Scenario.one_change_pending) as [outcome s'].
  simpl. intros (_ & Hcleared & _). apply Hcleared. reflexivity.
Defined.




(** Beside the theorem: [get] assigns the decoded value to the envelope
    that the in-memory backend handed out, which is the stored envelope
    itself, and leaves its [compressed] mark set. With no cache in front,
    a second [get] decodes the decoded value again. *)
Example second_get_decodes_again :
  let written :=
    snd (AdvancedStorage.set 1000 0 "k" Scenario.looks_packed
           (Scenario.with_options None (Some true) None) Scenario.packing) in
  let first := AdvancedStorage.get 1001 "k" written in
  fst first = Ok Scenario.looks_packed
  /\ fst (AdvancedStorage.get 1002 "k" (snd first)) = Ok (VNum 5).
Proof. vm_compute. split; reflexivity. Qed.



(** Beside the theorem: the metadata of the option bag is spread over the
    fields that [set] has computed, the version among them. *)
Example metadata_overwrites_the_version :
  Calls.stored_version "k"
    (set_all "k"
       [Calls.plain_call 1000 (VNum 5);
        {| at_time := 2000; with_nonce := 0; value_given := VNum 5;
           options_given :=
             Scenario.with_options None None (Some [("version", VNum 7)]) |}]
       Scenario.plain)
  = Some (Ok (VNum 7)).
Proof. vm_compute. reflexivity. Qed.

(* ===================================================================== *)
(** * Examples for the backend, the cache and the manager *)
(* ===================================================================== *)

(** Settle a closed comparison of numbers by evaluating it. *)
Ltac evaluate :=
  vm_compute; first [reflexivity | discriminate | (intro; discriminate)].


(** Deleting [k] from that backend. *)
Lemma adapter_delete_witness :
  let a' := snd (MemoryAdapter.delete "k" Cases.stocked) in
  fst (MemoryAdapter.delete "k" Cases.stocked) = Ok tt
  /\ MemoryAdapter.get 120 "k" a' = (Ok VNull, a')
  /\ MemoryAdapter.has 120 "k" a' = (Ok false, a')
  /\ MemoryAdapter.delete "k" a' = (Ok tt, a')
  /\ (forall k, k <> "k" ->
        MemoryAdapter.store a' !! k = MemoryAdapter.store Cases.stocked !! k).
Proof.
  apply (adapter_delete_forgets_the_key 120 "k" Cases.stocked). reflexivity.
Defined.

(** On two valid keys the two versions of [getMany] agree. *)
Lemma getMany_witness :
  MemoryAdapter.getMany 120 ["k"; "missing"] Cases.stocked
  = MemoryAdapter.getMany_base 120 ["k"; "missing"] Cases.stocked.
Proof.
  apply (proj2 (getMany_never_rejects_and_agrees_with_get 120 ["k"; "missing"]
                  Cases.stocked)).
  repeat constructor.
Defined.

(** A cleanup at time 200, after the record of [k] has expired, and a read
    at time 300. *)
Lemma cleanup_witness :
  fst (MemoryAdapter.get 300 "k" (MemoryAdapter.cleanup 200 Cases.stocked))
  = fst (MemoryAdapter.get 300 "k" Cases.stocked)
  /\ (forall k r, MemoryAdapter.store (MemoryAdapter.cleanup 200 Cases.stocked) !! k = Some r ->
                  MemoryAdapter.store Cases.stocked !! k = Some r)
  /\ (forall k r, MemoryAdapter.store Cases.stocked !! k = Some r ->
                  MemoryAdapter.expired 200 r = false ->
                  MemoryAdapter.store (MemoryAdapter.cleanup 200 Cases.stocked) !! k = Some r)
  /\ (forall k r, MemoryAdapter.store Cases.stocked !! k = Some r ->
                  MemoryAdapter.expired 200 r = true ->
                  MemoryAdapter.validateKey k = Ok tt ->
                  MemoryAdapter.store (MemoryAdapter.cleanup 200 Cases.stocked) !! k = None).
Proof.
  apply (cleanup_is_invisible_to_get 200 300 "k" Cases.stocked). lia.
Defined.

(** The write of [a] stays when the read that follows it is rejected, and
    the delete after that is not run. *)
Lemma transaction_witness :
  MemoryAdapter.transaction
    (Cases.first_step ++ Cases.failing_step :: Cases.last_step) MemoryAdapter.create
  = (Err (StorageError "INVALID_KEY_FORMAT"),
     snd (MemoryAdapter.transaction Cases.first_step MemoryAdapter.create)).
Proof.
  apply (transaction_stops_at_the_first_failure_and_keeps_earlier_effects
           (H := Demo.platform) Cases.first_step Cases.last_step Cases.failing_step
           MemoryAdapter.create
           (snd (MemoryAdapter.transaction Cases.first_step MemoryAdapter.create))).
  - vm_compute. reflexivity.
  - vm_compute. reflexivity.
Defined.

(** The size function of [Demo] is never negative. *)
Lemma json_length_nonneg : forall v : value, 0 <= Demo.json_length v.
Proof.
  fix IH 1. intros [| | | b | n | s | items | fields]; simpl; try lia.
  - destruct b; lia.
  - assert (Hitems : 0 <= (fix go (l : list value) : Z :=
                             match l with
                             | [] => 0
                             | x :: rest =>
                                 Demo.json_length x
                                 + match rest with [] => 0 | _ :: _ => 1 + go rest end
                             end) items).
    { revert items. fix IHl 1. intros [| x rest]; [lia |].
      pose proof (IH x). pose proof (IHl rest). destruct rest; lia. }
    lia.
  - assert (Hfields : 0 <= (fix go (l : list (string * value)) : Z :=
                              match l with
                              | [] => 0
                              | (k, x) :: rest =>
                                  Z.of_nat (String.length k) + 3 + Demo.json_length x
                                  + match rest with [] => 0 | _ :: _ => 1 + go rest end
                              end) fields).
    { revert fields. fix IHl 1. intros [| [k x] rest]; [lia |].
      pose proof (IH x). pose proof (IHl rest). destruct rest; lia. }
    lia.
Qed.

Lemma fifo_full_within_capacity : CacheState.within_capacity Cases.fifo_full.
Proof.
  unfold CacheState.within_capacity, CacheState.distinct_keys.
  split; [| split].
  - simpl. repeat constructor; simpl; intuition discriminate.
  - simpl. intuition discriminate.
  - vm_compute. discriminate.
Qed.

(** A new cache has counted its (no) reads; one read later the counters
    still agree. *)
Lemma cache_counts_witness :
  CacheState.counted (snd (StorageCache.get 1002 "a" Cases.fifo_empty))
  /\ StorageCache.reads (snd (StorageCache.get 1002 "a" Cases.fifo_empty))
     = StorageCache.reads Cases.fifo_empty + 1
  /\ CacheState.same_counters Cases.fifo_empty
       (StorageCache.set 1002 "a" (VNum 2) None Cases.fifo_empty)
  /\ CacheState.same_counters Cases.fifo_empty
       (snd (StorageCache.delete "a" Cases.fifo_empty))
  /\ CacheState.same_counters Cases.fifo_empty
       (snd (StorageCache.has 1002 "a" Cases.fifo_empty))
  /\ CacheState.same_counters Cases.fifo_empty
       (snd (StorageCache.prune 1002 Cases.fifo_empty))
  /\ CacheState.same_counters Cases.fifo_empty (StorageCache.warm [] Cases.fifo_empty)
  /\ CacheState.same_counters Cases.fifo_empty (StorageCache.clear Cases.fifo_empty).
Proof.
  apply (cache_counts_every_read_as_a_hit_or_a_miss (H := Demo.platform) 1002 "a"
           (VNum 2) None [] Cases.fifo_empty).
  reflexivity.
Defined.

(** The full cache of capacity two stays within its capacity when a third
    key is set. *)
Lemma fifo_capacity_witness :
  CacheState.within_capacity (StorageCache.set 1002 "c" (VNum 3) None Cases.fifo_full)
  /\ CacheState.within_capacity (snd (StorageCache.get 1002 "c" Cases.fifo_full))
  /\ CacheState.within_capacity (snd (StorageCache.delete "c" Cases.fifo_full))
  /\ CacheState.within_capacity (snd (StorageCache.prune 1002 Cases.fifo_full))
  /\ CacheState.within_capacity (StorageCache.clear Cases.fifo_full).
Proof.
  apply (fifo_cache_stays_within_its_capacity (H := Demo.platform) 1002 "c" (VNum 3)
           None Cases.fifo_full).
  - reflexivity.
  - evaluate.
  - discriminate.
  - apply fifo_full_within_capacity.
Defined.

(** Setting a third key evicts [a], the first inserted; so does setting
    [b] again. *)
Lemma full_fifo_cache_witness :
  map fst (StorageCache.entries (StorageCache.set 1002 "c" (VNum 3) None Cases.fifo_full))
  = ["b"; "c"].
Proof.
  rewrite (full_fifo_cache_evicts_the_first_inserted_entry (H := Demo.platform)
             1002 "c" (VNum 3) None Cases.fifo_full "a"
             {| StorageCache.value_of := VNum 1; StorageCache.size := 1;
                StorageCache.frequency := 1; StorageCache.createdAt := 1000;
                StorageCache.accessedAt := 1000; StorageCache.expiresAt := Some 1010 |}
             [("b", {| StorageCache.value_of := VStr "bee"; StorageCache.size := 5;
                       StorageCache.frequency := 1; StorageCache.createdAt := 1001;
                       StorageCache.accessedAt := 1001;
                       StorageCache.expiresAt := Some 3601001 |})]).
  - reflexivity.
  - reflexivity.
  - reflexivity.
  - simpl. intuition discriminate.
  - discriminate.
  - evaluate.
  - evaluate.
Defined.

(** The value set at time 1002 without a time-to-live is read back within
    the hour of the cache's default. *)
Lemma fifo_get_after_set_witness :
  fst (StorageCache.get 2000 "c" (StorageCache.set 1002 "c" (VNum 3) None Cases.fifo_full))
  = VNum 3.
Proof.
  apply (fifo_cache_get_after_set (H := Demo.platform) 1002 2000 "c" (VNum 3) None
           Cases.fifo_full).
  reflexivity.
Defined.

(** At time 1500 the entry of [a] has expired and that of [b] has not. *)
Lemma fifo_prune_witness :
  map fst (StorageCache.entries (snd (StorageCache.prune 1500 Cases.fifo_full))) = ["b"]
  /\ fst (StorageCache.prune 1500 Cases.fifo_full) = 1
  /\ fst (StorageCache.get 1600 "a" (snd (StorageCache.prune 1500 Cases.fifo_full)))
     = fst (StorageCache.get 1600 "a" Cases.fifo_full).
Proof.
  destruct (fifo_prune_removes_exactly_the_expired_entries
              1500 1600 "a" Cases.fifo_full) as (He & Hn & Hg).
  - reflexivity.
  - unfold CacheState.distinct_keys. simpl. repeat constructor; simpl; intuition discriminate.
  - lia.
  - split; [| split].
    + rewrite He. reflexivity.
    + rewrite Hn. reflexivity.
    + exact Hg.
Defined.

(** [memoryUsage] of the full cache is the bytes of its two entries, and
    stays an upper bound when [b] is set again. *)
Lemma fifo_memoryUsage_witness :
  CacheState.never_undercounts (StorageCache.set 1002 "b" (VStr "bumble") None Cases.fifo_full)
  /\ CacheState.never_undercounts (snd (StorageCache.get 1002 "b" Cases.fifo_full))
  /\ CacheState.never_undercounts (snd (StorageCache.delete "b" Cases.fifo_full))
  /\ CacheState.never_undercounts (snd (StorageCache.prune 1002 Cases.fifo_full))
  /\ CacheState.never_undercounts (StorageCache.clear Cases.fifo_full).
Proof.
  apply (fifo_memoryUsage_never_undercounts (H := Demo.platform) 1002 "b"
           (VStr "bumble") None Cases.fifo_full).
  - exact json_length_nonneg.
  - reflexivity.
  - unfold CacheState.never_undercounts, StorageCache.held_bytes. simpl.
    split; [repeat constructor; simpl; lia | lia].
Defined.

(** Under ['ttl'] the value just set is not found. *)
Lemma ttl_strategy_witness :
  let c' := StorageCache.set 1000 "a" (VNum 1) None Cases.ttl_cache in
  fst (StorageCache.get 1001 "a" c') = VUndefined
  /\ fst (StorageCache.has 1001 "a" c') = false
  /\ StorageCache.keys c' = []
  /\ StorageCache.entries c' = StorageCache.entries Cases.ttl_cache
  /\ StorageCache.memoryUsage c' = StorageCache.memoryUsage Cases.ttl_cache + blob_size (VNum 1).
Proof.
  apply (ttl_strategy_cache_stores_nothing (H := Demo.platform) 1000 1001 "a" (VNum 1)
           None Cases.ttl_cache).
  reflexivity.
Defined.


(** After the delete of [k] from the storage that wrote it twice. *)
Lemma has_after_delete_witness :
  fst (AdvancedStorage.has 3001 "k"
         (snd (AdvancedStorage.delete 3000 "k" Scenario.written_twice)))
  = Ok false.
Proof.
  apply (has_is_false_after_delete 3000 3001 "k" Scenario.written_twice).
  vm_compute. reflexivity.
Defined.


Lemma idle_is_idle :
  exists sm,
    AdvancedStorage.sync Cases.idle = Some sm
    /\ SyncCore.syncing sm = false
    /\ SyncCore.enabled sm = true.
Proof. vm_compute. eexists. repeat split. Qed.

(** A second cycle, at time 9, on the storage whose first cycle is over. *)
Lemma sync_cycle_witness :
  exists sm' report,
    AdvancedStorage.sync (SyncManager.sync 9 0 Cases.idle) = Some sm'
    /\ SyncCore.syncing sm' = false
    /\ SyncCore.lastSyncTime sm' = Some 9
    /\ last (SyncCore.emitted sm') = Some (SyncCore.sync_complete report).
Proof.
  destruct idle_is_idle as (sm & H1 & H2 & H3).
  exact (sync_cycle_always_releases_the_guard (H := Demo.platform) 9 0 Cases.idle sm
           H1 H2 H3).
Defined.


(** The examples of the codec services run on the stand-ins of [Toy]. *)
#[local] Existing Instance Toy.libraries.

(** The text [hello], seven bytes of JSON, is above the threshold of the
    toy compressor: it is compressed, and decompressed again. *)
Lemma decompress_witness :
  exists packed c',
    CompressionService.compress (VStr "hello") Toy.compressor = (Ok packed, c')
    /\ CompressionService.decompress packed = Ok (VStr "hello").
Proof.
  eexists. eexists. split; [vm_compute; reflexivity |].
  eapply (@decompress_undoes_compress Demo.platform Toy.libraries (VStr "hello") "hello"
            Toy.compressor).
  - split; reflexivity.
  - split; [vm_compute; reflexivity |]. split; [discriminate | reflexivity].
  - intros compressed Hc. vm_compute in Hc. injection Hc as <-. vm_compute. reflexivity.
  - vm_compute. reflexivity.
Defined.


Lemma one_storage_coherent : StorageManager.coherent RegistryCases.one_storage.
Proof.
  apply (create_coherent RegistryCases.constructs).
  apply create_manager_coherent.
Qed.

Lemma registry_witness :
  StorageManager.coherent RegistryCases.one_storage
  /\ StorageManager.coherent
       (snd (StorageManager.remove RegistryCases.closes "main"
               RegistryCases.one_storage)).
Proof.
  split; [exact one_storage_coherent |].
  apply (registry_stays_coherent RegistryCases.constructs RegistryCases.closes
           RegistryCases.one_storage one_storage_coherent).
Defined.

Lemma getDefault_witness :
  exists d m',
    StorageManager.getDefault RegistryCases.constructs 200 RegistryCases.one_storage
    = (Ok d, m')
    /\ StorageManager.get RegistryCases.constructs 200 None RegistryCases.one_storage
       = (Ok d, m')
    /\ (exists i, List.In i (StorageManager.list m') /\ StorageManager.storage i = d)
    /\ StorageManager.getDefault RegistryCases.constructs 300 m' = (Ok d, m').
Proof.
  apply (getDefault_never_fails RegistryCases.constructs 200 300
           RegistryCases.one_storage one_storage_coherent).
  reflexivity.
Defined.

Lemma create_again_witness :
  exists d m',
    StorageManager.create RegistryCases.constructs 100 "main" None
      StorageManager.create_manager = (Ok d, m')
    /\ StorageManager.create RegistryCases.constructs 200 "main" None m'
       = (Err (StorageError "STORAGE_EXISTS"), m').
Proof.
  apply (create_again RegistryCases.constructs 100 200 "main" None
           StorageManager.create_manager "{}").
  - reflexivity.
  - reflexivity.
  - reflexivity.
  - exact I.
Defined.
